(** * walnut: a Redis-backed cache-stampede guard for Twisted

    A shallow embedding of [walnut/utils.py] and [walnut/core.py], and the
    properties of the lock-and-broadcast protocol, the local waiter
    coalescer, the degradation policy and the default keymaker.

    Layout: the model first (Python values, SHA-1, JSON hooks, the Redis
    store, then the two source files), the lemmas and theorems after it. *)

From Stdlib Require Import ZArith String Ascii List Lia Bool.
From stdpp Require Import base option list gmap strings sorting.

Set Warnings "-register-all".
Local Open Scope Z_scope.

(* ===================================================================== *)
(** * Python values                                                        *)
(* ===================================================================== *)

Module Py.

(** The values that flow through the decorator: arguments of the wrapped
    function, its results, and the options of [async_cache].  [PInt] is a
    Python 2 [int], [PLong] a [long]; [PObj r] is an instance of any other
    class, of which only its [repr] string [r] is known. *)
Inductive pyval : Type :=
  | PNone
  | PBool (b : bool)
  | PInt (z : Z)
  | PLong (z : Z)
  | PStr (s : string)
  | PTuple (l : list pyval)
  | PList (l : list pyval)
  | PDict (items : list (string * pyval))
  | PObj (r : string).

(** Exceptions: the class name, the names of its ancestor classes, and the
    message. *)
Record exn : Type := Exn { exn_kind : string; exn_bases : list string; exn_msg : string }.

Definition standard_bases : list string := ["StandardError"; "Exception"; "BaseException"].

Definition TypeError (m : string) : exn := Exn "TypeError" standard_bases m.
Definition ValueError (m : string) : exn := Exn "ValueError" standard_bases m.
Definition AttributeError (m : string) : exn := Exn "AttributeError" standard_bases m.

(** [isinstance(e, classes)], as an [except classes:] clause tests it. *)
Definition exn_isinstance (e : exn) (classes : list string) : bool :=
  existsb (fun c => existsb (String.eqb c) (exn_kind e :: exn_bases e)) classes.

(** The result of a call that returns or raises. *)
Inductive res (A : Type) : Type :=
  | Ok (a : A)
  | Err (e : exn).
Arguments Ok {A} a.
Arguments Err {A} e.

(** ** Decimal and hexadecimal digits *)

Definition digit_char (d : Z) : ascii :=
  ascii_of_N (Z.to_N (48 + d)).

Fixpoint pos_digits (fuel : nat) (n : Z) (acc : string) : string :=
  match fuel with
  | O => acc
  | S fuel' =>
      let acc' := String (digit_char (n mod 10)) acc in
      if n / 10 =? 0 then acc' else pos_digits fuel' (n / 10) acc'
  end.

(** [str(n)] for an integer: an optional minus sign and the decimal digits. *)
Definition decimal (z : Z) : string :=
  let n := Z.abs z in
  let body := pos_digits (S (Z.to_nat (Z.log2 n))) n EmptyString in
  if z <? 0 then String "-" body else body.

Definition hex_char (d : Z) : ascii :=
  if d <? 10 then ascii_of_N (Z.to_N (48 + d)) else ascii_of_N (Z.to_N (87 + d)).

Definition code (c : ascii) : Z := Z.of_N (N_of_ascii c).

(** ** Reading decimal integers *)

Definition is_digit (c : ascii) : bool :=
  (48 <=? code c) && (code c <=? 57).

Fixpoint read_digits (s : string) (acc : Z) : Z * string :=
  match s with
  | String c s' =>
      if is_digit c then read_digits s' (10 * acc + (code c - 48)) else (acc, s)
  | EmptyString => (acc, s)
  end.

(** Does a fraction or an exponent follow? *)
Definition starts_fraction (s : string) : bool :=
  match s with
  | String c _ => (code c =? 46) || (code c =? 101) || (code c =? 69)
  | EmptyString => false
  end.

Definition read_nat (s : string) : option (Z * string) :=
  match s with
  | String c _ =>
      if is_digit c then
        let '(n, rest) := read_digits s 0 in
        if starts_fraction rest then None else Some (n, rest)
      else None
  | EmptyString => None
  end.

(** An integer literal at the head of [s]; a fraction or an exponent after
    it is refused. *)
Definition read_int (s : string) : option (Z * string) :=
  match s with
  | String c s' =>
      if code c =? 45 then
        match read_nat s' with
        | Some (n, rest) => Some (- n, rest)
        | None => None
        end
      else read_nat s
  | EmptyString => None
  end.

(** The whole of [s] read as a decimal integer. *)
Definition int_of_string (s : string) : option Z :=
  match read_int s with
  | Some (n, EmptyString) => Some n
  | _ => None
  end.

(** ** [repr] *)

Fixpoint contains (c : ascii) (s : string) : bool :=
  match s with
  | EmptyString => false
  | String d s' => if Ascii.eqb c d then true else contains c s'
  end.

(** One character of the [repr] of a [str], inside quotes [q]. *)
Definition repr_char (q c : ascii) : string :=
  if Ascii.eqb c q || Ascii.eqb c "\"
  then String "\" (String c EmptyString)
  else if code c =? 9 then "\t"
  else if code c =? 10 then "\n"
  else if code c =? 13 then "\r"
  else if (code c <? 32) || (127 <=? code c)
  then String "\" (String "x" (String (hex_char (code c / 16))
                                 (String (hex_char (code c mod 16)) EmptyString)))
  else String c EmptyString.

Fixpoint repr_chars (q : ascii) (s : string) : string :=
  match s with
  | EmptyString => EmptyString
  | String c s' => repr_char q c +:+ repr_chars q s'
  end.

Definition squote : ascii := ascii_of_N 39.
Definition dquote : ascii := ascii_of_N 34.

(** [repr] of a [str]: single quotes, unless the text has a single quote
    and no double quote. *)
Definition repr_str (s : string) : string :=
  let q := if contains squote s && negb (contains dquote s) then dquote else squote in
  String q (repr_chars q s +:+ String q EmptyString).

(** [', '.join(l)] *)
Fixpoint join (l : list string) : string :=
  match l with
  | [] => EmptyString
  | [x] => x
  | x :: l' => x +:+ ", " +:+ join l'
  end.

Fixpoint repr (v : pyval) : string :=
  match v with
  | PNone => "None"
  | PBool true => "True"
  | PBool false => "False"
  | PInt z => decimal z
  | PLong z => decimal z +:+ "L"
  | PStr s => repr_str s
  | PTuple l =>
      match l with
      | [x] => "(" +:+ repr x +:+ ",)"
      | _ => "(" +:+ join (map repr l) +:+ ")"
      end
  | PList l => "[" +:+ join (map repr l) +:+ "]"
  | PDict items =>
      "{" +:+ join (map (fun kv => repr_str (fst kv) +:+ ": " +:+ repr (snd kv)) items) +:+ "}"
  | PObj r => r
  end.

(** [str(v)]: a [str] is itself, a [long] loses its suffix. *)
Definition str (v : pyval) : string :=
  match v with
  | PStr s => s
  | PLong z => decimal z
  | _ => repr v
  end.

(** Truth value, as [if v:] tests it. *)
Definition truthy (v : pyval) : bool :=
  match v with
  | PNone => false
  | PBool b => b
  | PInt z | PLong z => negb (z =? 0)
  | PStr s => negb (String.eqb s EmptyString)
  | PTuple l | PList l => match l with [] => false | _ => true end
  | PDict items => match items with [] => false | _ => true end
  | PObj _ => true
  end.

(** [isinstance(v, int)]: [bool] is a subclass of [int], [long] is not. *)
Definition is_int (v : pyval) : bool :=
  match v with PInt _ | PBool _ => true | _ => false end.

Definition is_none (v : pyval) : bool :=
  match v with PNone => true | _ => false end.

(** [isinstance(v, basestring)] *)
Definition is_basestring (v : pyval) : bool :=
  match v with PStr _ => true | _ => false end.

(** The number an [int] instance compares as ([True] is 1, [False] is 0). *)
Definition int_value (v : pyval) : Z :=
  match v with
  | PInt z => z
  | PBool true => 1
  | _ => 0
  end.

(** ** [sorted] on the items of a dict

    The items are [(key, value)] tuples whose keys are [str] and pairwise
    distinct, so the tuple comparison is settled by the keys, compared
    byte by byte. *)
Definition item_le (a b : string * pyval) : Prop :=
  String.leb (fst a) (fst b) = true.

Global Instance item_le_dec a b : Decision (item_le a b).
Proof. unfold item_le. apply _. Defined.

Definition sorted (items : list (string * pyval)) : list (string * pyval) :=
  merge_sort item_le items.

(** The representation [sorted] returns a list of 2-tuples. *)
Definition items_as_list (items : list (string * pyval)) : pyval :=
  PList (map (fun kv => PTuple [PStr (fst kv); snd kv]) items).

End Py.

(* ===================================================================== *)
(** * SHA-1, as [hashlib.sha1] computes it                                 *)
(* ===================================================================== *)

Module Sha1.

Definition w32 (x : Z) : Z := x mod 2 ^ 32.

Definition rotl (n x : Z) : Z :=
  w32 (Z.lor (Z.shiftl x n) (Z.shiftr x (32 - n))).

Fixpoint bytes_of (s : string) : list Z :=
  match s with
  | EmptyString => []
  | String c s' => Py.code c :: bytes_of s'
  end.

(** Big-endian bytes of [x], [n] of them. *)
Fixpoint be_bytes (n : nat) (x : Z) : list Z :=
  match n with
  | O => []
  | S n' => (Z.shiftr x (8 * Z.of_nat n')) mod 256 :: be_bytes n' x
  end.

(** The message, a [0x80] byte, zeros up to 56 modulo 64, and the bit
    length on 64 bits. *)
Definition pad (msg : list Z) : list Z :=
  let len := Z.of_nat (length msg) in
  let zeros := Z.to_nat ((55 - len) mod 64) in
  msg ++ [128] ++ replicate zeros 0 ++ be_bytes 8 (8 * len).

Fixpoint words_of (fuel : nat) (bs : list Z) : list Z :=
  match fuel, bs with
  | S fuel', b0 :: b1 :: b2 :: b3 :: rest =>
      (b0 * 16777216 + b1 * 65536 + b2 * 256 + b3) :: words_of fuel' rest
  | _, _ => []
  end.

(** The message schedule kept newest first: [rev_w] holds [w[i-1]] at its
    head, so [w[i-3]], [w[i-8]], [w[i-14]], [w[i-16]] sit at 2, 7, 13, 15. *)
Fixpoint extend (n : nat) (rev_w : list Z) : list Z :=
  match n with
  | O => rev_w
  | S n' =>
      let at_ i := nth i rev_w 0 in
      let x := Z.lxor (Z.lxor (Z.lxor (at_ 2%nat) (at_ 7%nat)) (at_ 13%nat)) (at_ 15%nat) in
      extend n' (rotl 1 x :: rev_w)
  end.

Definition schedule (block : list Z) : list Z :=
  rev (extend 64 (rev block)).

Definition state : Type := (Z * Z * Z * Z * Z)%type.

Definition round_f (i : nat) (b c d : Z) : Z * Z :=
  if (i <? 20)%nat then
    (Z.lor (Z.land b c) (Z.land (Z.lxor b 4294967295) d), 1518500249)
  else if (i <? 40)%nat then
    (Z.lxor (Z.lxor b c) d, 1859775393)
  else if (i <? 60)%nat then
    (Z.lor (Z.lor (Z.land b c) (Z.land b d)) (Z.land c d), 2400959708)
  else
    (Z.lxor (Z.lxor b c) d, 3395469782).

Fixpoint rounds (i : nat) (ws : list Z) (st : state) : state :=
  match ws with
  | [] => st
  | wi :: ws' =>
      let '(a, b, c, d, e) := st in
      let '(f, k) := round_f i b c d in
      let temp := w32 (rotl 5 a + f + e + k + wi) in
      rounds (S i) ws' (temp, a, rotl 30 b, c, d)
  end.

Definition compress (h : state) (block : list Z) : state :=
  let '(h0, h1, h2, h3, h4) := h in
  let '(a, b, c, d, e) := rounds 0 (schedule block) h in
  (w32 (h0 + a), w32 (h1 + b), w32 (h2 + c), w32 (h3 + d), w32 (h4 + e)).

Fixpoint blocks (fuel : nat) (ws : list Z) (h : state) : state :=
  match fuel, ws with
  | S fuel', _ :: _ => blocks fuel' (drop 16 ws) (compress h (take 16 ws))
  | _, _ => h
  end.

Definition init : state :=
  (1732584193, 4023233417, 2562383102, 271733878, 3285377520).

Definition digest_words (msg : string) : state :=
  let ws := words_of (String.length msg + 72) (pad (bytes_of msg)) in
  blocks (length ws) ws init.

Definition hex8 (x : Z) : string :=
  let h i := Py.hex_char ((Z.shiftr x (4 * i)) mod 16) in
  String (h 7) (String (h 6) (String (h 5) (String (h 4)
  (String (h 3) (String (h 2) (String (h 1) (String (h 0) EmptyString))))))).

(** [sha1(msg).hexdigest()] *)
Definition hexdigest (msg : string) : string :=
  let '(h0, h1, h2, h3, h4) := digest_words msg in
  hex8 h0 +:+ hex8 h1 +:+ hex8 h2 +:+ hex8 h3 +:+ hex8 h4.

(** [sha1().digest_size] *)
Definition digest_size : nat := 20.

End Sha1.

(* ===================================================================== *)
(** * walnut/utils.py                                                      *)
(* ===================================================================== *)

Module Utils.
Import Py.

Definition SHA1_HEXDIGEST_SIZE : nat := (Sha1.digest_size * 2)%nat.

(** [make_key(args, kwargs)]: [args] is the tuple of positional arguments,
    [kwargs] the items of the keyword dict in its iteration order. *)
Definition make_key (args : list pyval) (kwargs : list (string * pyval))
  : option string :=
  if negb (truthy (PTuple args) || truthy (PDict kwargs)) then None
  else
    let value := EmptyString in
    let value := if truthy (PTuple args) then value +:+ repr (PTuple args) else value in
    let value :=
      if truthy (PDict kwargs)
      then value +:+ repr (items_as_list (sorted kwargs))
      else value in
    if (SHA1_HEXDIGEST_SIZE <? String.length value)%nat
    then Some (Sha1.hexdigest value)
    else Some value.

End Utils.

(* ===================================================================== *)
(** * The default serialization hooks                                      *)
(* ===================================================================== *)

(** [json.dumps(v, separators=(',', ':'))] and [json.loads], the defaults of
    [json_encode_func] and [json_decode_func].  The model covers [None],
    booleans, integers, ASCII text, lists and dicts with [str] keys; on a
    byte above 0x7f, where the encoder would first decode UTF-8, and on a
    fractional number, it raises. *)
Module Json.
Import Py.

Definition escape_char (c : ascii) : res string :=
  let n := code c in
  if n =? 34 then Ok (String "\" (String c EmptyString))
  else if n =? 92 then Ok "\\"
  else if n =? 10 then Ok "\n"
  else if n =? 13 then Ok "\r"
  else if n =? 9 then Ok "\t"
  else if n =? 8 then Ok "\b"
  else if n =? 12 then Ok "\f"
  else if 128 <=? n then Err (Exn "UnicodeDecodeError" ("ValueError" :: standard_bases) "non-ASCII byte")
  else if (n <? 32) || (n =? 127)
  then Ok ("\u00" +:+ String (hex_char (n / 16)) (String (hex_char (n mod 16)) EmptyString))
  else Ok (String c EmptyString).

Fixpoint escape (s : string) : res string :=
  match s with
  | EmptyString => Ok EmptyString
  | String c s' =>
      match escape_char c, escape s' with
      | Ok a, Ok b => Ok (a +:+ b)
      | Err e, _ | _, Err e => Err e
      end
  end.

Definition dumps_str (s : string) : res string :=
  match escape s with
  | Ok body => Ok (String dquote (body +:+ String dquote EmptyString))
  | Err e => Err e
  end.

(** Elements joined with [sep], the first error wins. *)
Fixpoint join_res (sep : string) (l : list (res string)) : res string :=
  match l with
  | [] => Ok EmptyString
  | [x] => x
  | x :: l' =>
      match x, join_res sep l' with
      | Ok a, Ok b => Ok (a +:+ sep +:+ b)
      | Err e, _ | _, Err e => Err e
      end
  end.

Definition wrap (l r : string) (body : res string) : res string :=
  match body with
  | Ok b => Ok (l +:+ b +:+ r)
  | Err e => Err e
  end.

Definition member (k v : res string) : res string :=
  match k, v with
  | Ok a, Ok b => Ok (a +:+ ":" +:+ b)
  | Err e, _ | _, Err e => Err e
  end.

Fixpoint dumps (v : pyval) : res string :=
  match v with
  | PNone => Ok "null"
  | PBool true => Ok "true"
  | PBool false => Ok "false"
  | PInt z | PLong z => Ok (decimal z)
  | PStr s => dumps_str s
  | PTuple l | PList l => wrap "[" "]" (join_res "," (map dumps l))
  | PDict items =>
      wrap "{" "}"
        (join_res "," (map (fun kv => member (dumps_str (fst kv)) (dumps (snd kv))) items))
  | PObj r => Err (TypeError (r +:+ " is not JSON serializable"))
  end.

(** ** The decoder *)

Definition is_ws (c : ascii) : bool :=
  let n := code c in (n =? 32) || (n =? 9) || (n =? 10) || (n =? 13).

Fixpoint skip_ws (s : string) : string :=
  match s with
  | String c s' => if is_ws c then skip_ws s' else s
  | EmptyString => s
  end.

Fixpoint strip_prefix (p s : string) : option string :=
  match p, s with
  | EmptyString, _ => Some s
  | String a p', String b s' => if Ascii.eqb a b then strip_prefix p' s' else None
  | _, EmptyString => None
  end.

Definition hex_value (c : ascii) : option Z :=
  let n := code c in
  if (48 <=? n) && (n <=? 57) then Some (n - 48)
  else if (97 <=? n) && (n <=? 102) then Some (n - 87)
  else if (65 <=? n) && (n <=? 70) then Some (n - 55)
  else None.

(** The text of a string literal after its opening quote. *)
Fixpoint read_string (s : string) : option (string * string) :=
  match s with
  | EmptyString => None
  | String c s' =>
      if code c =? 34 then Some (EmptyString, s')
      else if code c =? 92 then
        match s' with
        | String e s'' =>
            let plain (x : Z) :=
              match read_string s'' with
              | Some (t, rest) => Some (String (ascii_of_N (Z.to_N x)) t, rest)
              | None => None
              end in
            if code e =? 34 then plain 34
            else if code e =? 92 then plain 92
            else if code e =? 47 then plain 47
            else if code e =? 98 then plain 8
            else if code e =? 102 then plain 12
            else if code e =? 110 then plain 10
            else if code e =? 114 then plain 13
            else if code e =? 116 then plain 9
            else if code e =? 117 then
              match s'' with
              | String h3 (String h2 (String h1 (String h0 s3))) =>
                  match hex_value h3, hex_value h2, hex_value h1, hex_value h0 with
                  | Some 0, Some 0, Some a, Some b =>
                      if a <? 8 then
                        match read_string s3 with
                        | Some (t, rest) =>
                            Some (String (ascii_of_N (Z.to_N (16 * a + b))) t, rest)
                        | None => None
                        end
                      else None
                  | _, _, _, _ => None
                  end
              | _ => None
              end
            else None
        | EmptyString => None
        end
      else if code c <? 32 then None
      else
        match read_string s' with
        | Some (t, rest) => Some (String c t, rest)
        | None => None
        end
  end.

(** [d[k] = v] on the items of a dict: a later member replaces an earlier
    one with the same key. *)
Fixpoint dict_set (k : string) (v : pyval) (items : list (string * pyval))
  : list (string * pyval) :=
  match items with
  | [] => [(k, v)]
  | (k', v') :: rest =>
      if String.eqb k k' then (k, v) :: rest else (k', v') :: dict_set k v rest
  end.

(** [d.get(k, default)], the default being [None] of the option. *)
Fixpoint dict_get (k : string) (items : list (string * pyval)) : option pyval :=
  match items with
  | [] => None
  | (k', v') :: rest => if String.eqb k k' then Some v' else dict_get k rest
  end.

Fixpoint read_value (fuel : nat) (s : string) : option (pyval * string) :=
  match fuel with
  | O => None
  | S fuel' =>
      match skip_ws s with
      | EmptyString => None
      | String c rest as s0 =>
          if code c =? 110 then
            match strip_prefix "ull" rest with Some r => Some (PNone, r) | None => None end
          else if code c =? 116 then
            match strip_prefix "rue" rest with Some r => Some (PBool true, r) | None => None end
          else if code c =? 102 then
            match strip_prefix "alse" rest with Some r => Some (PBool false, r) | None => None end
          else if code c =? 34 then
            match read_string rest with Some (t, r) => Some (PStr t, r) | None => None end
          else if code c =? 91 then
            match skip_ws rest with
            | String "]" r => Some (PList [], r)
            | r => read_elements fuel' r []
            end
          else if code c =? 123 then
            match skip_ws rest with
            | String "}" r => Some (PDict [], r)
            | r => read_members fuel' r []
            end
          else
            match read_int s0 with Some (n, r) => Some (PInt n, r) | None => None end
      end
  end
with read_elements (fuel : nat) (s : string) (acc : list pyval) : option (pyval * string) :=
  match fuel with
  | O => None
  | S fuel' =>
      match read_value fuel' s with
      | Some (v, r) =>
          match skip_ws r with
          | String "," r' => read_elements fuel' r' (v :: acc)
          | String "]" r' => Some (PList (rev (v :: acc)), r')
          | _ => None
          end
      | None => None
      end
  end
with read_members (fuel : nat) (s : string) (acc : list (string * pyval))
  : option (pyval * string) :=
  match fuel with
  | O => None
  | S fuel' =>
      match skip_ws s with
      | String q r0 =>
          if code q =? 34 then
            match read_string r0 with
            | Some (k, r1) =>
                match skip_ws r1 with
                | String ":" r2 =>
                    match read_value fuel' r2 with
                    | Some (v, r3) =>
                        match skip_ws r3 with
                        | String "," r4 => read_members fuel' r4 (dict_set k v acc)
                        | String "}" r4 => Some (PDict (dict_set k v acc), r4)
                        | _ => None
                        end
                    | None => None
                    end
                | _ => None
                end
            | None => None
            end
          else None
      | EmptyString => None
      end
  end.

(** [json.loads(s)]: one value, then nothing but white space. *)
Definition loads (s : string) : res pyval :=
  match read_value (S (String.length s)) s with
  | Some (v, rest) =>
      match skip_ws rest with
      | EmptyString => Ok v
      | _ => Err (ValueError "Extra data")
      end
  | None => Err (ValueError "No JSON object could be decoded")
  end.

End Json.

(* ===================================================================== *)
(** * The shared coordination store                                        *)
(* ===================================================================== *)

(** The Redis server as the protocol uses it: string and list values, key
    expiry against the server clock, the commands the source names, and the
    execution of a Lua script as one atomic step. *)
Module Redis.
Import Py.

Inductive rval : Type :=
  | RString (s : string)
  | RList (l : list string).

Record entry : Type := Entry { value : rval; expire_at : option Z }.

Record server : Type := Server { db : gmap string entry; now : Z }.

Inductive reply : Type :=
  | Int (z : Z)
  | Bulk (s : string)
  | Nil
  | Multi (l : list reply).

(** What a command answers: a reply or an error reply. *)
Inductive answer (A : Type) : Type :=
  | Reply (r : A)
  | Error (msg : string).
Arguments Reply {A} r.
Arguments Error {A} msg.

Definition WRONGTYPE : string :=
  "WRONGTYPE Operation against a key holding the wrong kind of value".
Definition NOT_AN_INTEGER : string :=
  "ERR value is not an integer or out of range".
Definition WRONG_ARITY : string :=
  "ERR wrong number of arguments".
Definition UNKNOWN_COMMAND : string :=
  "Unknown Redis command called from Lua script".

Definition expired (t : Z) (e : entry) : bool :=
  match expire_at e with
  | Some at_ => at_ <=? t
  | None => false
  end.

(** The entry at [k], if it is there and has not expired. *)
Definition lookup (k : string) (s : server) : option entry :=
  match db s !! k with
  | Some e => if expired (now s) e then None else Some e
  | None => None
  end.

Definition put (k : string) (e : entry) (s : server) : server :=
  Server (<[k := e]> (db s)) (now s).

Definition remove (k : string) (s : server) : server :=
  Server (delete k (db s)) (now s).

(** Time passes on the server. *)
Definition advance (dt : Z) (s : server) : server :=
  Server (db s) (now s + dt).

(** ** Commands *)

Definition setnx (k v : string) (s : server) : server * answer reply :=
  match lookup k s with
  | Some _ => (s, Reply (Int 0))
  | None => (put k (Entry (RString v) None) s, Reply (Int 1))
  end.

Definition del (k : string) (s : server) : server * answer reply :=
  match lookup k s with
  | Some _ => (remove k s, Reply (Int 1))
  | None => (remove k s, Reply (Int 0))
  end.

Definition lindex (k : string) (i : Z) (s : server) : server * answer reply :=
  match lookup k s with
  | None => (s, Reply Nil)
  | Some (Entry (RString _) _) => (s, Error WRONGTYPE)
  | Some (Entry (RList l) _) =>
      let j := if i <? 0 then Z.of_nat (length l) + i else i in
      if j <? 0 then (s, Reply Nil)
      else match l !! Z.to_nat j with
           | Some x => (s, Reply (Bulk x))
           | None => (s, Reply Nil)
           end
  end.

Definition rpush (k v : string) (s : server) : server * answer reply :=
  match lookup k s with
  | None => (put k (Entry (RList [v]) None) s, Reply (Int 1))
  | Some (Entry (RString _) _) => (s, Error WRONGTYPE)
  | Some (Entry (RList l) ex) =>
      (put k (Entry (RList (l ++ [v])) ex) s, Reply (Int (Z.of_nat (length l) + 1)))
  end.

Definition expire (k : string) (secs : Z) (s : server) : server * answer reply :=
  match lookup k s with
  | None => (s, Reply (Int 0))
  | Some (Entry v _) =>
      if secs <=? 0 then (remove k s, Reply (Int 1))
      else (put k (Entry v (Some (now s + secs))) s, Reply (Int 1))
  end.

(** [RPOPLPUSH src dst]: the tail of [src] moves to the head of [dst]; with
    [src = dst] the list rotates.  A list left empty is removed. *)
Definition rpoplpush (src dst : string) (s : server) : server * answer reply :=
  match lookup src s with
  | None => (s, Reply Nil)
  | Some (Entry (RString _) _) => (s, Error WRONGTYPE)
  | Some (Entry (RList l) ex) =>
      match last l with
      | None => (s, Reply Nil)
      | Some x =>
          if String.eqb src dst then
            (put src (Entry (RList (x :: removelast l)) ex) s, Reply (Bulk x))
          else
            match lookup dst s with
            | Some (Entry (RString _) _) => (s, Error WRONGTYPE)
            | other =>
                let s1 :=
                  match removelast l with
                  | [] => remove src s
                  | l' => put src (Entry (RList l') ex) s
                  end in
                let s2 :=
                  match other with
                  | Some (Entry (RList d) exd) => put dst (Entry (RList (x :: d)) exd) s1
                  | _ => put dst (Entry (RList [x]) None) s1
                  end in
                (s2, Reply (Bulk x))
            end
      end
  end.

Definition lower_char (c : ascii) : ascii :=
  if (65 <=? code c) && (code c <=? 90) then ascii_of_N (Z.to_N (code c + 32)) else c.

Fixpoint lower (s : string) : string :=
  match s with
  | EmptyString => EmptyString
  | String c s' => String (lower_char c) (lower s')
  end.

(** [redis.call(cmd, ...)] inside a script; command names are matched
    without regard to case.  The table holds the commands that core.py
    reaches for and that the server has: SETNX, DEL, LINDEX, RPUSH, EXPIRE.
    The server has no command named DELETE (a key is removed by DEL); that
    name, like any other it does not know, is answered with an error. *)
Definition call (cmd : string) (args : list string) (s : server)
  : server * answer reply :=
  let c := lower cmd in
  if String.eqb c "setnx" then
    match args with
    | [k; v] => setnx k v s
    | _ => (s, Error WRONG_ARITY)
    end
  else if String.eqb c "del" then
    match args with
    | [k] => del k s
    | _ => (s, Error WRONG_ARITY)
    end
  else if String.eqb c "lindex" then
    match args with
    | [k; i] =>
        match int_of_string i with
        | Some n => lindex k n s
        | None => (s, Error NOT_AN_INTEGER)
        end
    | _ => (s, Error WRONG_ARITY)
    end
  else if String.eqb c "rpush" then
    match args with
    | [k; v] => rpush k v s
    | _ => (s, Error WRONG_ARITY)
    end
  else if String.eqb c "expire" then
    match args with
    | [k; t] =>
        match int_of_string t with
        | Some n => expire k n s
        | None => (s, Error NOT_AN_INTEGER)
        end
    | _ => (s, Error WRONG_ARITY)
    end
  else (s, Error UNKNOWN_COMMAND).

(** ** Scripts

    A script runs against the server with no other client in between.  An
    error raised by [redis.call] ends the script; what it wrote before
    stays written. *)
Definition script (A : Type) : Type := server -> server * answer A.

Definition ret {A} (a : A) : script A := fun s => (s, Reply a).

Definition bind {A B} (m : script A) (f : A -> script B) : script B :=
  fun s =>
    match m s with
    | (s', Reply a) => f a s'
    | (s', Error msg) => (s', Error msg)
    end.

Definition raise {A} (msg : string) : script A := fun s => (s, Error msg).

(** [KEYS[i]] and [ARGV[i]], counted from 1; a missing one is [nil], which
    [redis.call] refuses as an argument. *)
Definition item (l : list string) (i : nat) : script string :=
  match l !! pred i with
  | Some x => ret x
  | None => raise "Lua redis() command arguments must be strings or integers"
  end.

End Redis.

Declare Scope script_scope.
Delimit Scope script_scope with script.
Notation "x <- m ;; k" := (Redis.bind m (fun x => k))
  (at level 100, m at next level, right associativity) : script_scope.
Notation "m ;;; k" := (Redis.bind m (fun _ => k))
  (at level 100, right associativity) : script_scope.

(* ===================================================================== *)
(** * walnut/core.py: the scripts                                          *)
(* ===================================================================== *)

Module Scripts.
Import Py Redis.
Local Open Scope script_scope.

Inductive script_id : Type :=
  | GET_SCRIPT
  | PUSH_AND_EXPIRE_SCRIPT
  | PUSH_AND_DELETE_SCRIPT.

(** What each script text does.  A [nil] bulk reply reaches Lua as [false]
    and leaves it as a [nil] bulk reply again, so a returned table keeps its
    two places.

    GET_SCRIPT:
<<
      local owned = redis.call('setnx', KEYS[1], ARGV[1])
      if owned == 1 then redis.call('del', KEYS[2]) end
      return {owned, redis.call('lindex', KEYS[2], 0)}
>>
    PUSH_AND_EXPIRE_SCRIPT:
<<
      return {redis.call('rpush', KEYS[1], ARGV[1]), redis.call('expire', KEYS[2], ARGV[2])}
>>
    PUSH_AND_DELETE_SCRIPT:
<<
      return {redis.call('rpush', KEYS[1], ARGV[1]), redis.call('delete', KEYS[2])}
>> *)
Definition lua (sc : script_id) (KEYS ARGV : list string) : script reply :=
  match sc with
  | GET_SCRIPT =>
      k1 <- item KEYS 1 ;;
      a1 <- item ARGV 1 ;;
      owned <- call "setnx" [k1; a1] ;;
      match owned with
      | Int 1 => (k2 <- item KEYS 2 ;; call "del" [k2])
      | _ => ret Nil
      end ;;;
      k2 <- item KEYS 2 ;;
      peek <- call "lindex" [k2; "0"] ;;
      ret (Multi [owned; peek])
  | PUSH_AND_EXPIRE_SCRIPT =>
      k1 <- item KEYS 1 ;;
      a1 <- item ARGV 1 ;;
      pushed <- call "rpush" [k1; a1] ;;
      k2 <- item KEYS 2 ;;
      a2 <- item ARGV 2 ;;
      expiring <- call "expire" [k2; a2] ;;
      ret (Multi [pushed; expiring])
  | PUSH_AND_DELETE_SCRIPT =>
      k1 <- item KEYS 1 ;;
      a1 <- item ARGV 1 ;;
      pushed <- call "rpush" [k1; a1] ;;
      k2 <- item KEYS 2 ;;
      deleted <- call "delete" [k2] ;;
      ret (Multi [pushed; deleted])
  end.

End Scripts.

(* ===================================================================== *)
(** * The process side: Twisted and the Redis client                       *)
(* ===================================================================== *)

Module Tx.
Import Py Scripts.

(** How a task that was yielded on ends: with a value, with an error, or
    never (it stays suspended). *)
Inductive outcome (A : Type) : Type :=
  | Ret (a : A)
  | Raise (e : exn)
  | Pending.
Arguments Ret {A} a.
Arguments Raise {A} e.
Arguments Pending {A}.

(** What a run leaves behind, oldest first: the requests sent to the
    store, the calls of the wrapped computation, the lines logged.  The
    [print] statements of core.py are left out. *)
Inductive event : Type :=
  | EvEval (sc : script_id) (keys args : list string)
  | EvRpush (key msg : string)
  | EvBrpoplpush (src dst : string) (timeout : Z)
  | EvCall (args : list pyval) (kwargs : list (string * pyval))
  | EvLogErr (msg : string)
  | EvLogMsg (msg : string).

(** The world a call runs in: the server; [faults], what goes wrong with
    the next requests of this client, one entry a request ([Some e]: the
    request raises [e] and does not reach the server); [incoming], what
    another client will push on the list this client blocks on, and after
    how many seconds ([None]: nobody ever does); the trace. *)
Record world : Type := World {
  server : Redis.server;
  faults : list (option exn);
  incoming : option (Z * string);
  trace : list event
}.

(** The calls of the wrapped computation in a trace. *)
Fixpoint count_calls (t : list event) : nat :=
  match t with
  | [] => 0
  | EvCall _ _ :: t' => S (count_calls t')
  | _ :: t' => count_calls t'
  end.

Definition emit (ev : event) (w : world) : world :=
  World (server w) (faults w) (incoming w) (trace w ++ [ev]).

Definition set_server (s : Redis.server) (w : world) : world :=
  World s (faults w) (incoming w) (trace w).

(** The fault of the next request, if any, taken off the list. *)
Definition take_fault (w : world) : option exn * world :=
  (hd None (faults w), World (server w) (tl (faults w)) (incoming w) (trace w)).

(** The world once a request [ev] has been sent and the server, if it was
    reached, has become [s]. *)
Definition after (ev : event) (s : Redis.server) (w : world) : world :=
  World s (tl (faults w)) (incoming w) (trace w ++ [ev]).

(** [w'] comes after [w] with at most [n] more calls of the computation. *)
Definition grows (n : nat) (w w' : world) : Prop :=
  exists evs, trace w' = trace w ++ evs /\ (count_calls evs <= n)%nat.

Definition M (A : Type) : Type := world -> world * outcome A.

Definition ret {A} (a : A) : M A := fun w => (w, Ret a).
Definition raise {A} (e : exn) : M A := fun w => (w, Raise e).

Definition bind {A B} (m : M A) (f : A -> M B) : M B :=
  fun w =>
    match m w with
    | (w', Ret a) => f a w'
    | (w', Raise e) => (w', Raise e)
    | (w', Pending) => (w', Pending)
    end.

(** [try: body except: handler] *)
Definition try_except {A} (body : M A) (handler : exn -> M A) : M A :=
  fun w =>
    match body w with
    | (w', Raise e) => handler e w'
    | r => r
    end.

(** A task started and not yielded on: what it does is done, how it ends is
    dropped. *)
Definition spawn {A} (m : M A) : M unit :=
  fun w => (fst (m w), Ret tt).

Definition log_err (msg : string) : M unit := fun w => (emit (EvLogErr msg) w, Ret tt).
Definition log_msg (msg : string) : M unit := fun w => (emit (EvLogMsg msg) w, Ret tt).

Definition lift {A} (r : res A) : M A :=
  match r with
  | Ok a => ret a
  | Err e => raise e
  end.

Definition ResponseError (m : string) : exn :=
  Exn "ResponseError" ("RedisError" :: "Exception" :: "BaseException" :: nil) m.
Definition ConnectionError (m : string) : exn :=
  Exn "ConnectionError" ("RedisError" :: "Exception" :: "BaseException" :: nil) m.

(** A reply as the client hands it to Python; the messages of the protocol
    are JSON objects, which the client leaves as text. *)
Fixpoint to_py (r : Redis.reply) : pyval :=
  match r with
  | Redis.Int z => PInt z
  | Redis.Bulk s => PStr s
  | Redis.Nil => PNone
  | Redis.Multi l => PList (map to_py l)
  end.

(** One request: it fails on the way, or the server answers. *)
Definition request (ev : event) (run : Redis.server -> Redis.server * Redis.answer Redis.reply)
  : M pyval :=
  fun w =>
    match take_fault (emit ev w) with
    | (Some e, w1) => (w1, Raise e)
    | (None, w1) =>
        match run (server w1) with
        | (s', Redis.Reply r) => (set_server s' w1, Ret (to_py r))
        | (s', Redis.Error msg) => (set_server s' w1, Raise (ResponseError msg))
        end
    end.

(** [redis.eval(script, keys, args)] *)
Definition eval (sc : script_id) (keys args : list string) : M pyval :=
  request (EvEval sc keys args) (lua sc keys args).

(** [redis.rpush(key, value)] *)
Definition rpush (key msg : string) : M pyval :=
  request (EvRpush key msg) (Redis.rpush key msg).

(** [redis.brpoplpush(src, dst, timeout)], which sends BRPOPLPUSH with the
    timeout as given: served at once when [src] has an element; otherwise
    the client blocks until another client pushes on [src], for at most
    [timeout] seconds, a timeout of 0 standing for no limit at all.  While
    it blocks, the server clock runs. *)
Definition brpoplpush (src dst : string) (timeout : Z) : M pyval :=
  fun w =>
    match take_fault (emit (EvBrpoplpush src dst timeout) w) with
    | (Some e, w1) => (w1, Raise e)
    | (None, w1) =>
        if timeout <? 0 then (w1, Raise (ResponseError "ERR timeout is negative"))
        else
          match Redis.rpoplpush src dst (server w1) with
          | (s', Redis.Error msg) => (set_server s' w1, Raise (ResponseError msg))
          | (s', Redis.Reply Redis.Nil) =>
              match incoming w1 with
              | Some (t, m) =>
                  if (timeout =? 0) || (t <? timeout) then
                    let s1 := fst (Redis.rpush src m (Redis.advance t s')) in
                    let s2 := fst (Redis.rpoplpush src dst s1) in
                    (World s2 (faults w1) None (trace w1), Ret (PStr m))
                  else (set_server (Redis.advance timeout s') w1, Ret PNone)
              | None =>
                  if timeout =? 0 then (set_server s' w1, Pending)
                  else (set_server (Redis.advance timeout s') w1, Ret PNone)
              end
          | (s', Redis.Reply r) => (set_server s' w1, Ret (to_py r))
          end
    end.

End Tx.

Declare Scope tx_scope.
Delimit Scope tx_scope with tx.
Notation "x <- m ;; k" := (Tx.bind m (fun x => k))
  (at level 100, m at next level, right associativity) : tx_scope.
Notation "m ;;; k" := (Tx.bind m (fun _ => k))
  (at level 100, right associativity) : tx_scope.

(* ===================================================================== *)
(** * walnut/core.py: the decorator                                        *)
(* ===================================================================== *)

Module Core.
Import Py Scripts Tx.
Local Open Scope tx_scope.

(** [SENTINEL = object()]: what [msg.get('content', SENTINEL)] answers when
    the key is missing; no decoded value is that object. *)
Definition SENTINEL : option pyval := None.

(** The wrapped computation: returns a value or fails. *)
Definition computation : Type := list pyval -> list (string * pyval) -> res pyval.
Definition keymaker_t : Type := list pyval -> list (string * pyval) -> option string.

Record wrapped : Type := Wrapped {
  is_function : bool;
  qualified_name : string;
  body : computation
}.

(** An option that must be a callable or [None]. *)
Inductive hook (A : Type) : Type :=
  | HNone
  | HCallable (f : A)
  | HOther (v : pyval).
Arguments HNone {A}.
Arguments HCallable {A} f.
Arguments HOther {A} v.

(** [skip_cache_on]: an exception class, a tuple of them, [None], or
    something else. *)
Inductive skip_option : Type :=
  | SkipNone
  | SkipClass (c : string)
  | SkipTuple (cs : list string)
  | SkipOther (v : pyval).

(** The arguments of [async_cache]. *)
Record options : Type := Options {
  o_func : option wrapped;
  o_ttl : pyval;
  o_max_wait : pyval;
  o_keymaker : hook keymaker_t;
  o_skip_cache_on : skip_option;
  o_namespace : pyval;
  o_json_encode_func : hook (pyval -> res string);
  o_json_decode_func : hook (pyval -> res pyval);
  o_id_tag : pyval;
  o_key_sep : pyval;
  o_lock_key_prefix : pyval;
  o_value_key_prefix : pyval
}.

(** The signature's defaults. *)
Definition default_options : options :=
  Options None PNone PNone HNone SkipNone PNone HNone HNone PNone
          (PStr ":") (PStr "L") (PStr "V").

(** What the functions nested in [async_cache] close over. *)
Record closure : Type := Closure {
  func : computation;
  ttl : pyval;
  max_wait : pyval;
  keymaker : keymaker_t;
  skip_cache_on : list string;
  json_encode_func : pyval -> res string;
  json_decode_func : pyval -> res pyval;
  id_tag : string;
  key_sep : string;
  lock_key_base : string;
  value_key_base : string;
  EMPTY_JSON_MSG : string
}.

Definition quoted (s : string) : string :=
  String dquote (s +:+ String dquote EmptyString).

(** [get_qualified_name(func)] of utils.py *)
Definition get_qualified_name (f : wrapped) : res string :=
  if is_function f then Ok (qualified_name f)
  else Err (TypeError (qualified_name f +:+ " must be a function or staticmethod")).

Definition is_callable_or_none {A} (h : hook A) : bool :=
  match h with HOther _ => false | _ => true end.

Definition text (v : pyval) : string :=
  match v with PStr s => s | _ => EmptyString end.

(** [json.loads] takes a string. *)
Definition json_loads (v : pyval) : res pyval :=
  match v with
  | PStr s => Json.loads s
  | _ => Err (TypeError "expected string or buffer")
  end.

(** What [async_cache] hands back. *)
Inductive decorated : Type :=
  | Partial (o : options)
  | Wrapper (c : closure).

(** [async_cache(func, ...)]; [uuid_hex] is what [uuid.uuid4().hex] yields.
    The [redis] argument, the connection, is the world the calls run in. *)
Definition async_cache (o : options) (uuid_hex : string) : res decorated :=
  if negb (is_int (o_ttl o) || is_none (o_ttl o)) then
    Err (TypeError (quoted "ttl" +:+ " must be an integer or None"))
  else if is_int (o_ttl o) && (int_value (o_ttl o) <=? 0) then
    Err (ValueError (quoted "ttl" +:+ " must be > 0"))
  else if negb (is_int (o_max_wait o) || is_none (o_max_wait o)) then
    Err (TypeError (quoted "max_wait" +:+ " must be an integer or None"))
  else if is_int (o_max_wait o) && (int_value (o_max_wait o) <? 0) then
    Err (ValueError (quoted "max_wait" +:+ " must be >= 0"))
  else if negb (is_callable_or_none (o_keymaker o)) then
    Err (TypeError (quoted "keymaker" +:+ " must be a callable or None"))
  else if match o_skip_cache_on o with SkipOther _ => true | _ => false end then
    Err (TypeError (quoted "skip_cache_on" +:+ " must be an exception class, "
                    +:+ "a tuple of exception classes, or None"))
  else if negb (is_basestring (o_namespace o) || is_none (o_namespace o)) then
    Err (TypeError (quoted "namespace" +:+ " must be a string or None"))
  else if negb (is_callable_or_none (o_json_encode_func o)) then
    Err (TypeError (quoted "json_encode_func" +:+ " must be a callable or None"))
  else if negb (is_callable_or_none (o_json_decode_func o)) then
    Err (TypeError (quoted "json_decode_func" +:+ " must be a callable or None"))
  else if negb (is_basestring (o_id_tag o) || is_none (o_id_tag o)) then
    Err (TypeError (quoted "id_tag" +:+ " must be a string or None"))
  else if negb (is_basestring (o_key_sep o)) then
    Err (TypeError (quoted "key_sep" +:+ " must be a string"))
  else if negb (is_basestring (o_lock_key_prefix o)) then
    Err (TypeError (quoted "lock_key_prefix" +:+ " must be a string"))
  else if negb (is_basestring (o_value_key_prefix o)) then
    Err (TypeError (quoted "value_key_prefix" +:+ " must be a string"))
  else if String.eqb (text (o_lock_key_prefix o)) (text (o_value_key_prefix o)) then
    Err (ValueError (quoted "lock_key_prefix" +:+ " cannot equal "
                     +:+ quoted "value_key_prefix"))
  else
    match o_func o with
    | None => Ok (Partial o)
    | Some f =>
        let max_wait := if is_none (o_max_wait o) then PInt 0 else o_max_wait o in
        let keymaker :=
          match o_keymaker o with HCallable k => k | _ => Utils.make_key end in
        let skip_cache_on :=
          match o_skip_cache_on o with
          | SkipClass c => [c]
          | SkipTuple cs => cs
          | _ => ["ConnectionError"]
          end in
        let namespace :=
          if is_none (o_namespace o) then get_qualified_name f
          else Ok (text (o_namespace o)) in
        match namespace with
        | Err e => Err e
        | Ok namespace =>
            let json_decode_func :=
              match o_json_decode_func o with HCallable d => d | _ => json_loads end in
            let json_encode_func :=
              match o_json_encode_func o with HCallable e => e | _ => Json.dumps end in
            let id_tag :=
              if is_none (o_id_tag o) then namespace +:+ "." +:+ uuid_hex
              else text (o_id_tag o) in
            let key_sep := text (o_key_sep o) in
            let lock_key_base := text (o_lock_key_prefix o) +:+ key_sep +:+ namespace in
            let value_key_base := text (o_value_key_prefix o) +:+ key_sep +:+ namespace in
            match json_encode_func (PDict []) with
            | Err e => Err e
            | Ok EMPTY_JSON_MSG =>
                Ok (Wrapper (Closure (body f) (o_ttl o) max_wait keymaker skip_cache_on
                                     json_encode_func json_decode_func id_tag key_sep
                                     lock_key_base value_key_base EMPTY_JSON_MSG))
            end
        end
    end.

(** The values [async_cache] takes for [ttl] and for [max_wait]. *)
Definition ttl_valid (v : pyval) : Prop :=
  v = PNone \/ (is_int v = true /\ 0 < int_value v).
Definition max_wait_valid (v : pyval) : Prop :=
  v = PNone \/ (is_int v = true /\ 0 <= int_value v).

(** The options that have the type [async_cache] asks of them. *)
Definition well_typed (o : options) : Prop :=
  is_callable_or_none (o_keymaker o) = true /\
  (forall v, o_skip_cache_on o <> SkipOther v) /\
  (is_basestring (o_namespace o) || is_none (o_namespace o)) = true /\
  is_callable_or_none (o_json_encode_func o) = true /\
  is_callable_or_none (o_json_decode_func o) = true /\
  (is_basestring (o_id_tag o) || is_none (o_id_tag o)) = true /\
  is_basestring (o_key_sep o) = true /\
  is_basestring (o_lock_key_prefix o) = true /\
  is_basestring (o_value_key_prefix o) = true.

(** The decoding hook reads the empty message as a dict without content,
    as [json.loads] reads what [json.dumps] makes of [{}]. *)
Definition decodes_empty (c : closure) : Prop :=
  exists items,
    json_decode_func c (PStr (EMPTY_JSON_MSG c)) = Ok (PDict items) /\
    Json.dict_get "content" items = None.

(** How a call of the wrapped computation ends. *)
Definition computed (c : closure) (args : list pyval) (kwargs : list (string * pyval))
  : outcome pyval :=
  match func c args kwargs with
  | Ok v => Ret v
  | Err e => Raise e
  end.

(** ** [get_computed_or_redis_value] and the functions nested in it *)

Section get_computed_or_redis_value.
Variable c : closure.
Variables lock_key value_key : string.

Definition log_skip (name : string) : M unit :=
  log_err ("skipping cache for key " +:+ repr_str value_key
           +:+ ": exception in " +:+ quoted name +:+ ":").

(** [a, b = v] *)
Definition unpack2 (v : pyval) : M (pyval * pyval) :=
  match v with
  | PList [a; b] | PTuple [a; b] => ret (a, b)
  | PList _ | PTuple _ => raise (ValueError "wrong number of values to unpack")
  | _ => raise (TypeError "object is not iterable")
  end.

(** [bool(int(v))] *)
Definition bool_int (v : pyval) : M bool :=
  match v with
  | PInt z | PLong z => ret (negb (z =? 0))
  | PBool b => ret b
  | PStr s =>
      match int_of_string s with
      | Some z => ret (negb (z =? 0))
      | None => raise (ValueError "invalid literal for int()")
      end
  | _ => raise (TypeError "int() argument must be a string or a number")
  end.

(** [except skip_cache_on:] around [body] *)
Definition except_skip {A} (body : M A) (handler : M A) : M A :=
  try_except body
    (fun e => if exn_isinstance e (skip_cache_on c) then handler else raise e).

Definition get_lock_or_cached_value : M (bool * pyval) :=
  r <- except_skip
         (reply <- eval GET_SCRIPT [lock_key; value_key] [id_tag c] ;;
          unpack2 reply)
         (log_skip "get_lock_or_cached_value" ;;;
          ret (PBool false, PStr (EMPTY_JSON_MSG c))) ;;
  own <- bool_int (fst r) ;;
  ret (own, snd r).

Definition notify_waiters_and_release_lock : M unit :=
  fun w =>
    match eval PUSH_AND_DELETE_SCRIPT [value_key; lock_key] [EMPTY_JSON_MSG c] w with
    | (w', Ret result) =>
        log_msg ("notify_waiters_and_release_lock(): redis response: " +:+ repr result) w'
    | (w', Raise _) =>
        log_err "exception in notify_waiters_and_release_lock():" w'
    | (w', Pending) => (w', Pending)
    end.

Definition cache_value (value : pyval) : M unit :=
  json_msg <- lift (json_encode_func c (PDict [("content", value)])) ;;
  fun w =>
    let publish :=
      if truthy (ttl c)
      then eval PUSH_AND_EXPIRE_SCRIPT [value_key; lock_key] [json_msg; str (ttl c)]
      else rpush value_key json_msg in
    match publish w with
    | (w', Ret result) => log_msg ("cache_value(): redis response: " +:+ repr result) w'
    | (w', Raise e) =>
        if exn_isinstance e (skip_cache_on c) then log_skip "cache_value" w'
        else (w', Raise e)
    | (w', Pending) => (w', Pending)
    end.

Definition wait_for_cached_value : M pyval :=
  json_msg <- except_skip
                (brpoplpush value_key value_key (int_value (max_wait c)))
                (log_skip "wait_for_cached_value" ;;; ret PNone) ;;
  ret (if is_none json_msg then PStr (EMPTY_JSON_MSG c) else json_msg).

(** [maybeDeferred] on [func] with the caller's arguments, yielded on *)
Definition call_func (args : list pyval) (kwargs : list (string * pyval)) : M pyval :=
  fun w => lift (func c args kwargs) (emit (EvCall args kwargs) w).

(** [msg.get('content', SENTINEL)] *)
Definition get_content (msg : pyval) : M (option pyval) :=
  match msg with
  | PDict items =>
      ret (match Json.dict_get "content" items with Some v => Some v | None => SENTINEL end)
  | _ => raise (AttributeError "object has no attribute 'get'")
  end.

(** The [if own_lock:] branch: compute, then publish without waiting. *)
Definition on_owned (args : list pyval) (kwargs : list (string * pyval)) : M pyval :=
  fun w =>
    match call_func args kwargs w with
    | (w', Ret value) => (spawn (cache_value value) ;;; ret value) w'
    | (w', Raise e) => (spawn notify_waiters_and_release_lock ;;; raise e) w'
    | (w', Pending) => (w', Pending)
    end.

(** The [else:] branch: use the value peeked or wait for one, and compute
    when the message carries no content. *)
Definition on_denied (json_msg : pyval) (args : list pyval)
    (kwargs : list (string * pyval)) : M pyval :=
  json_msg <- (if is_none json_msg then wait_for_cached_value else ret json_msg) ;;
  msg <- lift (json_decode_func c json_msg) ;;
  value <- get_content msg ;;
  match value with
  | None => call_func args kwargs
  | Some v => ret v
  end.

(** The body of [get_computed_or_redis_value] once the keys are built. *)
Definition compute_or_fetch (args : list pyval) (kwargs : list (string * pyval))
  : M pyval :=
  acquired <- get_lock_or_cached_value ;;
  if fst acquired : bool
  then on_owned args kwargs
  else on_denied (snd acquired) args kwargs.

End get_computed_or_redis_value.

Definition make_lock_key (c : closure) (key : option string) : string :=
  match key with
  | Some k => lock_key_base c +:+ key_sep c +:+ k
  | None => lock_key_base c
  end.

Definition make_value_key (c : closure) (key : option string) : string :=
  match key with
  | Some k => value_key_base c +:+ key_sep c +:+ k
  | None => value_key_base c
  end.

Definition get_computed_or_redis_value (c : closure) (key : option string)
    (args : list pyval) (kwargs : list (string * pyval)) : M pyval :=
  compute_or_fetch c (make_lock_key c key) (make_value_key c key) args kwargs.

End Core.

(* ===================================================================== *)
(** * walnut/core.py: the local waiters                                    *)
(* ===================================================================== *)

Module Local.
Import Py Tx Core.

(** The two ways of firing a Deferred. *)
Inductive method : Type := callback | errback.

(** [Waiters = namedtuple('Waiters', 'master, slaves')]: the master is the
    number of the attempt it stands for, the slaves are Deferreds. *)
Record Waiters : Type := mkWaiters { master : nat; slaves : list nat }.

Definition call_t : Type := (list pyval * list (string * pyval))%type.

(** One process running one decorated function: the [local_waiters] dict;
    the Deferreds made by [wrapper], each not yet called or called with a
    method and a result; the calls of [get_computed_or_redis_value] started
    so far; the Deferreds in the order they were fired. *)
Record process : Type := Process {
  local_waiters : gmap (option string) Waiters;
  deferreds : list (option (method * res pyval));
  attempts : list (option string * call_t);
  fired : list nat
}.

Definition empty_process : process := Process ∅ [] [] [].

(** [deferred.called] *)
Definition called (d : nat) (p : process) : bool :=
  match deferreds p !! d with
  | Some (Some _) => true
  | _ => false
  end.

(** [getattr(deferred, method)(result)] *)
Definition fire (d : nat) (m : method) (result : res pyval) (p : process) : process :=
  Process (local_waiters p) (<[d := Some (m, result)]> (deferreds p))
          (attempts p) (fired p ++ [d]).

Definition run_local_waiters (result : res pyval) (m : method) (key : option string)
    (p : process) : process :=
  match local_waiters p !! key with
  | None => p
  | Some waiters =>
      let popped := Process (delete key (local_waiters p)) (deferreds p)
                            (attempts p) (fired p) in
      foldl (fun q d => if called d q then q else fire d m result q)
            popped (slaves waiters)
  end.

(** [wrapper], called with [args] and [kwargs]: the new state and the Deferred returned.
    The master attempt is started here and ends later, see [complete]. *)
Definition wrapper (c : closure) (args : list pyval) (kwargs : list (string * pyval))
    (p : process) : process * nat :=
  let key := keymaker c args kwargs in
  let deferred := length (deferreds p) in
  let ds := deferreds p ++ [None] in
  match local_waiters p !! key with
  | Some w =>
      (Process (<[key := mkWaiters (master w) (slaves w ++ [deferred])]> (local_waiters p))
               ds (attempts p) (fired p),
       deferred)
  | None =>
      let master_deferred := length (attempts p) in
      (Process (<[key := mkWaiters master_deferred [deferred]]> (local_waiters p))
               ds (attempts p ++ [(key, (args, kwargs))]) (fired p),
       deferred)
  end.

(** The callbacks added to the master: [run_local_waiters] with
    ['callback'] on a value, with ['errback'] on a failure. *)
Definition master_fires (o : res pyval) (key : option string) (p : process) : process :=
  match o with
  | Ok _ => run_local_waiters o callback key p
  | Err _ => run_local_waiters o errback key p
  end.

(** The method the master's callbacks pass on. *)
Definition method_of (o : res pyval) : method :=
  match o with
  | Ok _ => callback
  | Err _ => errback
  end.

(** The master attempt number [m] runs against the store and fires. *)
Definition complete (c : closure) (m : nat) (pw : process * world) : process * world :=
  let '(p, w) := pw in
  match attempts p !! m with
  | Some (key, (args, kwargs)) =>
      match get_computed_or_redis_value c key args kwargs w with
      | (w', Ret v) => (master_fires (Ok v) key p, w')
      | (w', Raise e) => (master_fires (Err e) key p, w')
      | (w', Pending) => (p, w')
      end
  | None => (p, w)
  end.

(** A burst of calls, none of them completing meanwhile. *)
Fixpoint burst (c : closure) (calls : list call_t) (p : process) : process * list nat :=
  match calls with
  | [] => (p, [])
  | (args, kwargs) :: rest =>
      let '(p1, d) := wrapper c args kwargs p in
      let '(p2, ds) := burst c rest p1 in
      (p2, d :: ds)
  end.

End Local.

(* ===================================================================== *)
(** * Processes racing for a key                                           *)
(* ===================================================================== *)

(** Each racer sends GET_SCRIPT for the same keys under its own tag; the
    server takes the scripts one at a time, in any order. *)
Module Race.
Import Py Scripts.

Record racer : Type := Racer { tag : string; observed : option (Redis.answer Redis.reply) }.

Definition owns (r : racer) : bool :=
  match observed r with
  | Some (Redis.Reply (Redis.Multi (Redis.Int 1 :: _))) => true
  | _ => false
  end.

Definition answered (r : racer) : bool :=
  match observed r with Some _ => true | None => false end.

Definition state : Type := (Redis.server * list racer)%type.

(** The server runs the script of racer [i], who has not been served yet. *)
Inductive step (lock_key value_key : string) : state -> state -> Prop :=
  | step_serve s rs i r s' a :
      rs !! i = Some r ->
      observed r = None ->
      lua GET_SCRIPT [lock_key; value_key] [tag r] s = (s', a) ->
      step lock_key value_key (s, rs) (s', <[i := Racer (tag r) (Some a)]> rs).

Definition owners (rs : list racer) : nat := length (filter (fun r => owns r = true) rs).

(** [step] for racer [i], as a function. *)
Definition serve (lock_key value_key : string) (i : nat) (st : state) : state :=
  match snd st !! i with
  | Some r =>
      match observed r with
      | None =>
          let '(s', a) := lua GET_SCRIPT [lock_key; value_key] [tag r] (fst st) in
          (s', <[i := Racer (tag r) (Some a)]> (snd st))
      | Some _ => st
      end
  | None => st
  end.

(** The two answers of the script to a racer. *)
Definition granted : Redis.answer Redis.reply :=
  Redis.Reply (Redis.Multi [Redis.Int 1; Redis.Nil]).
Definition denied : Redis.answer Redis.reply :=
  Redis.Reply (Redis.Multi [Redis.Int 0; Redis.Nil]).

(** Either nobody was served and the lock is free, or the lock is held,
    the value list is absent, one racer was granted the lock and every
    other racer served so far was denied it. *)
Definition race_inv (lock_key value_key : string) (st : state) : Prop :=
  (Redis.lookup lock_key (fst st) = None /\ Forall (fun r => observed r = None) (snd st))
  \/ (is_Some (Redis.lookup lock_key (fst st)) /\
      Redis.lookup value_key (fst st) = None /\
      exists i r, snd st !! i = Some r /\ observed r = Some granted /\
        forall j r', j <> i -> snd st !! j = Some r' ->
          observed r' = None \/ observed r' = Some denied).

End Race.

(* ===================================================================== *)
(** * A decorated function to run the model on                             *)
(* ===================================================================== *)

Module Demo.
Import Py Tx Core.

(** [def double(n): return 2 * n], which fails on anything but one
    integer and passes [None] through. *)
Definition double : wrapped :=
  Wrapped true "demo.double"
    (fun args _ =>
       match args with
       | [PInt n] => Ok (PInt (2 * n))
       | [PNone] => Ok PNone
       | _ => Err (TypeError "unsupported operand")
       end).

Definition options_with (ttl max_wait : pyval) : options :=
  Options (Some double) ttl max_wait HNone SkipNone PNone HNone HNone (PStr "demo.1")
          (PStr ":") (PStr "L") (PStr "V").

(** What [async_cache(double, ttl=ttl, max_wait=max_wait, id_tag='demo.1')]
    closes over. *)
Definition closure_with (ttl max_wait : pyval) : closure :=
  Closure (body double) ttl (if is_none max_wait then PInt 0 else max_wait)
          Utils.make_key ["ConnectionError"] Json.dumps json_loads
          "demo.1" ":" "L:demo.double" "V:demo.double" "{}".

Definition fresh : world := World (Redis.Server ∅ 0) [] None [].

(** A world where another process holds the lock of [double(21)] and has
    published nothing yet. *)
Definition held : world :=
  World (Redis.Server {[ "L:demo.double:(21,)" := Redis.Entry (Redis.RString "other.9") None ]} 0)
        [] None [].

(** Three processes about to race for one key, and the race once the
    second, the first and the third have been served, in that order. *)
Definition racers : list Race.racer :=
  [Race.Racer "p1" None; Race.Racer "p2" None; Race.Racer "p3" None].

Definition race_end : Race.state :=
  Race.serve "L:k" "V:k" 2
    (Race.serve "L:k" "V:k" 0
       (Race.serve "L:k" "V:k" 1 (Redis.Server ∅ 0, racers))).

Definition with_faults (fs : list (option exn)) (w : world) : world :=
  World (server w) fs (incoming w) (trace w).

Definition with_incoming (i : option (Z * string)) (w : world) : world :=
  World (server w) (faults w) i (trace w).

End Demo.

(* ===================================================================== *)
(** * Notions for the further properties                                   *)
(* ===================================================================== *)

Module Notions.
Import Py Tx Core.

(** Every check of [async_cache] passes. *)
Definition acceptable (o : options) : Prop :=
  ttl_valid (o_ttl o) /\ max_wait_valid (o_max_wait o) /\ well_typed o /\
  text (o_lock_key_prefix o) <> text (o_value_key_prefix o).

(** The namespace of the wrapper: the one given, or the qualified name of
    the function. *)
Definition namespace_of (o : options) (f : wrapped) : res string :=
  if is_none (o_namespace o) then get_qualified_name f else Ok (text (o_namespace o)).

(** The encoding hook of the wrapper: the one given, or [json.dumps]. *)
Definition encoder_of (o : options) : pyval -> res string :=
  match o_json_encode_func o with HCallable e => e | _ => Json.dumps end.

Definition first_char (s : string) : option ascii :=
  match s with
  | String a _ => Some a
  | EmptyString => None
  end.


(** [w'] comes after [w], every event in between being a [P]. *)
Definition extends (P : event -> Prop) (w w' : world) : Prop :=
  exists evs, trace w' = trace w ++ evs /\ Forall P evs.

(** The requests that write a message: RPUSH and the two publishing
    scripts. *)
Definition is_publish (ev : event) : Prop :=
  match ev with
  | EvRpush _ _ => True
  | EvEval Scripts.PUSH_AND_EXPIRE_SCRIPT _ _ => True
  | EvEval Scripts.PUSH_AND_DELETE_SCRIPT _ _ => True
  | _ => False
  end.

(** The value list of an entry holds no message or one message. *)
Definition at_most_one_message (value_key : string) (s : Redis.server) : Prop :=
  match Redis.db s !! value_key with
  | None => True
  | Some (Redis.Entry (Redis.RList [_]) _) => True
  | Some _ => False
  end.

(** Whoever pushes while a client blocks does so after some time, not
    before. *)
Definition incoming_later (w : world) : Prop :=
  match incoming w with
  | Some (t, _) => 0 <= t
  | None => True
  end.

End Notions.

(* ===================================================================== *)
(** * More worlds to run the model on                                      *)
(* ===================================================================== *)

Module Worlds.
Import Py Tx Core.

(** Another process holds the lock of [double(21)] and has published 42. *)
Definition published : world :=
  World (Redis.Server
           (<[ "V:demo.double:(21,)" :=
                 Redis.Entry (Redis.RList ["{" +:+ quoted "content" +:+ ":42}"]) None ]>
              {[ "L:demo.double:(21,)" := Redis.Entry (Redis.RString "other.9") None ]}) 0)
        [] None [].

(** Another process holds the lock of [double(21)], has published nothing
    yet, and will push [msg] after [t] seconds. *)
Definition awaited (t : Z) (msg : string) : world :=
  World (server Demo.held) [] (Some (t, msg)) [].


End Worlds.


(* ===================================================================== *)
(** * Sessions of one process                                              *)
(* ===================================================================== *)

Module Session.
Import Py Core Local.

(** What happens in a process, in some order: the wrapper is called, or
    the master of a key fires with an outcome. *)
Inductive op : Type :=
  | Call (args : list pyval) (kwargs : list (string * pyval))
  | Fires (o : res pyval) (key : option string).

Definition step (c : closure) (p : process) (x : op) : process :=
  match x with
  | Call args kwargs => fst (wrapper c args kwargs p)
  | Fires o key => master_fires o key p
  end.

Definition run (c : closure) (ops : list op) (p : process) : process :=
  foldl (step c) p ops.

(** The key of each call, in the order of the calls: the call number [d]
    is handed the Deferred number [d]. *)
Definition key_of (c : closure) (x : op) : option (option string) :=
  match x with
  | Call args kwargs => Some (keymaker c args kwargs)
  | Fires _ _ => None
  end.

Definition keys_of (c : closure) (ops : list op) : list (option string) :=
  omap (key_of c) ops.

(** How often the master of [k] fired. *)
Definition fires_for (k : option string) (ops : list op) : nat :=
  length (List.filter (fun x => match x with
                           | Fires _ key => bool_decide (key = k)
                           | Call _ _ => false
                           end) ops).

(** How many attempts were started for [k]. *)
Definition attempts_for (k : option string) (p : process) : nat :=
  length (List.filter (fun a => bool_decide (fst a = k)) (attempts p)).

(** One if [k] is waited for, none if not. *)
Definition waiting_for (k : option string) (p : process) : nat :=
  match local_waiters p !! k with
  | Some _ => 1
  | None => 0
  end.

(** What holds of a process after the operations [hist]. *)
Record delivery_inv (c : closure) (hist : list op) (p : process) : Prop := {
  inv_len : length (deferreds p) = length (keys_of c hist);
  inv_waiting : forall k w, local_waiters p !! k = Some w ->
    NoDup (slaves w) /\
    forall d, d ∈ slaves w ->
      keys_of c hist !! d = Some k /\ deferreds p !! d = Some None;
  inv_pending : forall d, deferreds p !! d = Some None ->
    exists k w, keys_of c hist !! d = Some k /\ local_waiters p !! k = Some w /\
                d ∈ slaves w;
  inv_fired : forall d m r, deferreds p !! d = Some (Some (m, r)) ->
    m = method_of r /\
    exists k, keys_of c hist !! d = Some k /\ In (Fires r k) hist /\ d ∈ fired p;
  inv_nodup : NoDup (fired p);
  inv_called : forall d, d ∈ fired p -> called d p = true
}.

(** A process where the caller of the first of two waiting Deferreds has
    fired it on their own. *)
Definition interfered : process :=
  Process {[ None := mkWaiters 0 [0; 1]%nat ]}
          [Some (errback, Err (Exn "CancelledError" [] EmptyString)); None]
          [(None, ([], []))] [0%nat].

(** [double(21)] is called twice, then the master of its key fires
    with 42. *)
Definition two_calls_one_firing : list op :=
  [Call [PInt 21] []; Call [PInt 21] []; Fires (Ok (PInt 42)) (Some "(21,)")].

End Session.

(* ********************************************************************* *)
(** * Part II: lemmas and theorems                                         *)
(* ********************************************************************* *)

(* ===================================================================== *)
(** * Properties of the default keymaker                                   *)
(* ===================================================================== *)

Section MakeKey.
Import Py Utils.

Lemma string_leb_trans (s1 s2 s3 : string) :
  String.leb s1 s2 = true -> String.leb s2 s3 = true -> String.leb s1 s3 = true.
Proof.
  unfold String.leb. revert s2 s3.
  induction s1 as [|a s1 IH]; intros [|b s2] [|d s3]; simpl; try done.
  unfold Ascii.compare.
  destruct (N.compare_spec (N_of_ascii a) (N_of_ascii b)) as [Hab|Hab|Hab];
    destruct (N.compare_spec (N_of_ascii b) (N_of_ascii d)) as [Hbd|Hbd|Hbd];
    try done.
  - rewrite Hab, Hbd, N.compare_refl. apply IH.
  - intros _ _. rewrite Hab. apply N.compare_lt_iff in Hbd. by rewrite Hbd.
  - intros _ _. rewrite <- Hbd. apply N.compare_lt_iff in Hab. by rewrite Hab.
  - intros _ _.
    assert (N_of_ascii a < N_of_ascii d)%N as Had by lia.
    apply N.compare_lt_iff in Had. by rewrite Had.
Qed.

#[local] Instance item_le_trans : Transitive item_le.
Proof. intros x y z. apply string_leb_trans. Qed.

#[local] Instance item_le_total : Total item_le.
Proof. intros x y. apply String.leb_total. Qed.




Lemma append_length (s t : string) :
  String.length (s +:+ t) = (String.length s + String.length t)%nat.
Proof. induction s as [|a s IH]; simpl; [done | by rewrite IH]. Qed.




End MakeKey.

(* ===================================================================== *)
(** * The store and the scripts                                            *)
(* ===================================================================== *)

Section StoreFacts.
Import Py Redis Scripts.

Lemma lookup_put_eq k e s :
  expired (now s) e = false -> lookup k (put k e s) = Some e.
Proof. intros H. unfold lookup, put. simpl. by rewrite lookup_insert_eq, H. Qed.

Lemma lookup_put_ne k k' e s : k <> k' -> lookup k' (put k e s) = lookup k' s.
Proof. intros H. unfold lookup, put. simpl. by rewrite lookup_insert_ne. Qed.

Lemma lookup_remove_eq k s : lookup k (remove k s) = None.
Proof. unfold lookup, remove. simpl. by rewrite lookup_delete_eq. Qed.

Lemma lookup_remove_ne k k' s : k <> k' -> lookup k' (remove k s) = lookup k' s.
Proof. intros H. unfold lookup, remove. simpl. by rewrite lookup_delete_ne. Qed.

Lemma call_setnx k v s : call "setnx" [k; v] s = setnx k v s.
Proof. reflexivity. Qed.
Lemma call_del k s : call "del" [k] s = del k s.
Proof. reflexivity. Qed.
Lemma call_lindex_0 k s : call "lindex" [k; "0"] s = lindex k 0 s.
Proof. reflexivity. Qed.
Lemma call_rpush k v s : call "rpush" [k; v] s = rpush k v s.
Proof. reflexivity. Qed.
Lemma call_expire k t s :
  call "expire" [k; t] s =
  match int_of_string t with
  | Some n => expire k n s
  | None => (s, Error NOT_AN_INTEGER)
  end.
Proof. reflexivity. Qed.

(** The server knows no command of that name. *)
Lemma call_delete k s : call "delete" [k] s = (s, Error UNKNOWN_COMMAND).
Proof. reflexivity. Qed.

(** GET_SCRIPT when the lock is free: the lock is taken, the value list is
    removed, and the peek finds nothing. *)
Lemma get_script_free lock_key value_key tag s :
  lookup lock_key s = None ->
  lua GET_SCRIPT [lock_key; value_key] [tag] s
  = (remove value_key (put lock_key (Entry (RString tag) None) s),
     Reply (Multi [Int 1; Nil])).
Proof.
  intros Hfree. unfold lua, bind, item, ret. simpl.
  rewrite call_setnx. unfold setnx. rewrite Hfree.
  rewrite call_del. unfold del.
  destruct (lookup value_key _); rewrite call_lindex_0; unfold lindex;
    by rewrite lookup_remove_eq.
Qed.

(** GET_SCRIPT when the lock is held: nothing is written, and the answer
    is the peek (or the error of the peek). *)
Lemma get_script_held lock_key value_key tag s e :
  lookup lock_key s = Some e ->
  lua GET_SCRIPT [lock_key; value_key] [tag] s
  = match lindex value_key 0 s with
    | (s', Reply peek) => (s', Reply (Multi [Int 0; peek]))
    | (s', Error msg) => (s', Error msg)
    end.
Proof.
  intros Hheld. unfold lua, bind, item, ret. simpl.
  rewrite call_setnx. unfold setnx. rewrite Hheld.
  rewrite call_lindex_0. by destruct (lindex value_key 0 s) as [s' [peek|msg]].
Qed.

Lemma lindex_server k i s : fst (lindex k i s) = s.
Proof.
  unfold lindex. destruct (lookup k s) as [[[v|l] ex]|]; try done.
  destruct (_ <? 0); [done|]. by destruct (l !! _).
Qed.

End StoreFacts.

(* ===================================================================== *)
(** * Acquisition                                                          *)
(* ===================================================================== *)

Section Acquire.
Import Py Redis Scripts Tx Core.

Lemma get_script_owned lock_key value_key tag s s' owned peek :
  lua GET_SCRIPT [lock_key; value_key] [tag] s = (s', Reply (Multi [owned; peek])) ->
  (owned = Int 1 /\ lookup lock_key s = None /\ peek = Nil /\ lookup value_key s' = None)
  \/ (owned = Int 0 /\ is_Some (lookup lock_key s) /\ s' = s).
Proof.
  destruct (lookup lock_key s) as [e|] eqn:Hl.
  - rewrite (get_script_held _ _ _ _ e Hl).
    pose proof (lindex_server value_key 0 s) as Hs.
    destruct (lindex value_key 0 s) as [s1 [p|msg]]; [|done].
    simpl in Hs. intros [= <- <- <-]. right. eauto.
  - rewrite (get_script_free _ _ _ _ Hl). intros [= <- <- <-]. left.
    by rewrite lookup_remove_eq.
Qed.

Lemma get_script_shape lock_key value_key tag s :
  (exists s' owned peek,
     lua GET_SCRIPT [lock_key; value_key] [tag] s = (s', Reply (Multi [Int owned; peek]))
     /\ (owned = 1 \/ owned = 0))
  \/ (exists s' msg, lua GET_SCRIPT [lock_key; value_key] [tag] s = (s', Error msg)).
Proof.
  destruct (lookup lock_key s) as [e|] eqn:Hl.
  - rewrite (get_script_held _ _ _ _ e Hl).
    destruct (lindex value_key 0 s) as [s1 [p|msg]]; [left|right]; eauto 10.
  - rewrite (get_script_free _ _ _ _ Hl). left. eauto 10.
Qed.

(** What [get_lock_or_cached_value] answers when it says the lock is owned. *)
Lemma acquired_owned c lock_key value_key w w' j :
  get_lock_or_cached_value c lock_key value_key w = (w', Ret (true, j)) -> j = PNone.
Proof.
  unfold get_lock_or_cached_value, except_skip, try_except, Tx.bind, eval, request.
  destruct (take_fault _) as [[e|] w1].
  - destruct (exn_isinstance e _); [|done]. by simpl.
  - destruct (get_script_shape lock_key value_key (id_tag c) (server w1))
      as [(s' & owned & peek & Heq & Hown)|(s' & msg & Heq)]; rewrite Heq.
    + apply get_script_owned in Heq as [(? & _ & -> & _)|(? & _)]; simplify_eq;
        simpl; by intros [=].
    + destruct (exn_isinstance _ _); [|done]. by simpl.
Qed.

(** C3. When GET_SCRIPT answers that the lock was taken, the lock had been
    free, the value list was removed before the peek and the peek found
    nothing; so [get_lock_or_cached_value] never pairs ownership with a
    message, and the owner's branch runs without looking at one. *)
Theorem owner_observes_no_value :
  (forall lock_key value_key tag s s' peek,
     lua GET_SCRIPT [lock_key; value_key] [tag] s = (s', Reply (Multi [Int 1; peek])) ->
     lookup lock_key s = None /\ peek = Nil /\ lookup value_key s' = None) /\
  (forall c lock_key value_key args kwargs w w' j,
     get_lock_or_cached_value c lock_key value_key w = (w', Ret (true, j)) ->
     j = PNone /\
     compute_or_fetch c lock_key value_key args kwargs w
     = on_owned c lock_key value_key args kwargs w').
Proof.
  split.
  - intros * H. apply get_script_owned in H as [(_ & ? & ? & ?)|(? & _)]; [done|].
    discriminate.
  - intros * H. split; [by eapply acquired_owned|].
    unfold compute_or_fetch, Tx.bind. by rewrite H.
Qed.

End Acquire.

(* ===================================================================== *)
(** * One owner among racing processes                                     *)
(* ===================================================================== *)

Section RaceFacts.
Import Py Redis Scripts Race.

Variables lock_key value_key : string.
Hypothesis keys_differ : lock_key <> value_key.

Lemma race_inv_step st st' :
  race_inv lock_key value_key st -> step lock_key value_key st st' -> race_inv lock_key value_key st'.
Proof.
  intros Hinv Hstep. destruct Hstep as [s rs i r s' a Hi Hnone Hlua].
  destruct Hinv as [[Hfree Hall]|(Hheld & Hval & i0 & r0 & Hi0 & Hr0 & Hothers)];
    cbn [fst snd] in *.
  - rewrite (get_script_free _ _ _ _ Hfree) in Hlua. injection Hlua as <- <-.
    right. cbn [fst snd]. split; [|split].
    + rewrite lookup_remove_ne by done. rewrite lookup_put_eq; [eauto|done].
    + apply lookup_remove_eq.
    + exists i, (Racer (tag r) (Some granted)). split; [|split; [done|]].
      * apply list_lookup_insert_eq. by eapply lookup_lt_Some.
      * intros j r' Hj Hr'. rewrite list_lookup_insert_ne in Hr' by done.
        left. rewrite Forall_forall in Hall. apply Hall.
        by eapply list_elem_of_lookup_2.
  - destruct Hheld as [e He].
    rewrite (get_script_held _ _ _ _ e He) in Hlua.
    unfold lindex in Hlua. rewrite Hval in Hlua. injection Hlua as <- <-.
    assert (i <> i0) as Hne by (intros ->; congruence).
    right. cbn [fst snd]. split; [eauto|split; [done|]].
    exists i0, r0. split; [|split; [done|]].
    + by rewrite list_lookup_insert_ne.
    + intros j r' Hj Hr'. destruct (decide (j = i)) as [->|Hji].
      * rewrite list_lookup_insert_eq in Hr' by (by eapply lookup_lt_Some).
        injection Hr' as <-. by right.
      * rewrite list_lookup_insert_ne in Hr' by done. eauto.
Qed.

Lemma race_inv_steps st st' :
  race_inv lock_key value_key st -> rtc (step lock_key value_key) st st' -> race_inv lock_key value_key st'.
Proof. intros Hinv Hsteps. induction Hsteps; eauto using race_inv_step. Qed.

Lemma race_length st st' :
  rtc (step lock_key value_key) st st' -> length (snd st') = length (snd st).
Proof.
  intros Hsteps. induction Hsteps as [|x y z Hstep _ IH]; [done|].
  rewrite IH. destruct Hstep. simpl. by rewrite length_insert.
Qed.

Lemma serve_step s rs i r :
  rs !! i = Some r -> observed r = None ->
  step lock_key value_key (s, rs) (serve lock_key value_key i (s, rs)).
Proof.
  intros Hi Hr. unfold serve. cbn [fst snd]. rewrite Hi, Hr.
  destruct (lua GET_SCRIPT _ _ s) as [s' a] eqn:Hlua. by eapply step_serve.
Qed.

(** A racer not served yet can always be served next. *)
Lemma race_progress s rs i r :
  rs !! i = Some r -> observed r = None ->
  exists st', step lock_key value_key (s, rs) st'.
Proof.
  intros Hi Hr.
  destruct (lua GET_SCRIPT [lock_key; value_key] [tag r] s) as [s' a] eqn:Hlua.
  eexists. by eapply step_serve.
Qed.

(** C2. Processes race for a key whose lock is free, each sending
    GET_SCRIPT once, the server running the scripts in any order.  When all
    have been served, exactly one was told it owns the lock and all the
    others were told they do not. *)
Theorem race_single_owner (s0 : server) (rs0 : list racer) (st : state) :
  lookup lock_key s0 = None ->
  Forall (fun r => observed r = None) rs0 ->
  rs0 <> [] ->
  rtc (step lock_key value_key) (s0, rs0) st ->
  Forall (fun r => answered r = true) (snd st) ->
  owners (snd st) = 1%nat /\
  exists i r, snd st !! i = Some r /\ owns r = true /\
    forall j r', j <> i -> snd st !! j = Some r' -> observed r' = Some denied.
Proof.
  intros Hfree Hall Hne Hsteps Hdone.
  pose proof (race_length _ _ Hsteps) as Hlen. simpl in Hlen.
  assert (race_inv lock_key value_key st) as Hinv.
  { eapply race_inv_steps; [|done]. left. by simpl. }
  destruct st as [s rs]. simpl in *.
  destruct Hinv as [[_ Hnone]|(_ & _ & i & r & Hi & Hr & Hothers)]; simpl in *.
  - destruct rs as [|r rs]; [by destruct rs0|].
    apply Forall_cons in Hnone as [Hn _]. apply Forall_cons in Hdone as [Hd _].
    unfold answered in Hd. by rewrite Hn in Hd.
  - assert (forall j r', j <> i -> rs !! j = Some r' -> observed r' = Some denied)
      as Hden.
    { intros j r' Hj Hr'. destruct (Hothers j r' Hj Hr') as [Hn|]; [|done].
      rewrite Forall_forall in Hdone.
      assert (answered r' = true) as Ha by (by eapply Hdone, list_elem_of_lookup_2).
      unfold answered in Ha. by rewrite Hn in Ha. }
    split; [|exists i, r; split; [done|split; [|done]]; unfold owns; by rewrite Hr].
    apply list_elem_of_split_length in Hi as (l1 & l2 & -> & ->).
    unfold owners. rewrite filter_app, filter_cons, length_app.
    assert (forall l : list racer,
              (forall r', r' ∈ l -> observed r' = Some denied) ->
              filter (fun r => owns r = true) l = []) as Hnil.
    { intros l Hl. induction l as [|x l IH]; [done|].
      rewrite filter_cons. rewrite decide_False.
      - apply IH. intros r' ?. apply Hl. by right.
      - unfold owns. rewrite (Hl x) by left. done. }
    rewrite (Hnil l1), (Hnil l2).
    + rewrite decide_True; [done|]. unfold owns. by rewrite Hr.
    + intros r' Hr'. apply list_elem_of_lookup in Hr' as [j Hj].
      apply (Hden (length l1 + S j)%nat); [lia|].
      rewrite lookup_app_r by lia.
      replace (length l1 + S j - length l1)%nat with (S j) by lia. done.
    + intros r' Hr'. apply list_elem_of_lookup in Hr' as [j Hj].
      pose proof (lookup_lt_Some _ _ _ Hj).
      apply (Hden j); [lia|]. by rewrite lookup_app_l.
Qed.

End RaceFacts.

Section AcquireWitnesses.
Import Py Redis Scripts Tx Core Race.

(** The first call of [double(21)] against an empty store. *)
Lemma owner_observes_no_value_witness :
  PNone = PNone /\
  compute_or_fetch (Demo.closure_with PNone PNone)
    "L:demo.double:(21,)" "V:demo.double:(21,)" [PInt 21] [] Demo.fresh
  = on_owned (Demo.closure_with PNone PNone)
      "L:demo.double:(21,)" "V:demo.double:(21,)" [PInt 21] []
      (fst (get_lock_or_cached_value (Demo.closure_with PNone PNone)
              "L:demo.double:(21,)" "V:demo.double:(21,)" Demo.fresh)).
Proof.
  apply (proj2 owner_observes_no_value (Demo.closure_with PNone PNone)
           "L:demo.double:(21,)" "V:demo.double:(21,)" [PInt 21] [] Demo.fresh
           (fst (get_lock_or_cached_value (Demo.closure_with PNone PNone)
                   "L:demo.double:(21,)" "V:demo.double:(21,)" Demo.fresh))
           PNone).
  vm_compute. reflexivity.
Defined.

(** Three processes, served second, first, third. *)
Lemma race_single_owner_witness :
  owners (snd Demo.race_end) = 1%nat /\
  exists i r, snd Demo.race_end !! i = Some r /\ owns r = true /\
    forall j r', j <> i -> snd Demo.race_end !! j = Some r' -> observed r' = Some denied.
Proof.
  apply (race_single_owner "L:k" "V:k" ltac:(discriminate) (Server ∅ 0) Demo.racers
           Demo.race_end).
  - reflexivity.
  - repeat constructor.
  - discriminate.
  - eapply rtc_l; [by apply (serve_step "L:k" "V:k" _ _ 1%nat (Racer "p2" None))|].
    eapply rtc_l; [by eapply (serve_step "L:k" "V:k" _ _ 0%nat (Racer "p1" None))|].
    eapply rtc_l; [by eapply (serve_step "L:k" "V:k" _ _ 2%nat (Racer "p3" None))|].
    apply rtc_refl.
  - vm_compute. repeat constructor.
Defined.

End AcquireWitnesses.

(* ===================================================================== *)
(** * Validation of the options                                            *)
(* ===================================================================== *)

Section Validation.
Import Py Core.

Lemma ttl_valid_checks v :
  ttl_valid v ->
  negb (is_int v || is_none v) = false /\ is_int v && (int_value v <=? 0) = false.
Proof.
  intros [->|[Hi Hpos]]; [done|]. rewrite Hi. split; [done|].
  simpl. apply Z.leb_gt. lia.
Qed.

Lemma max_wait_valid_checks v :
  max_wait_valid v ->
  negb (is_int v || is_none v) = false /\ is_int v && (int_value v <? 0) = false.
Proof.
  intros [->|[Hi Hpos]]; [done|]. rewrite Hi. split; [done|].
  simpl. apply Z.ltb_ge. lia.
Qed.

Lemma is_none_eq v : is_none v = true -> v = PNone.
Proof. by destruct v. Qed.

Lemma ttl_checks_valid v :
  negb (is_int v || is_none v) = false -> is_int v && (int_value v <=? 0) = false ->
  ttl_valid v.
Proof.
  intros H1 H2. destruct (is_int v) eqn:Hi; simpl in *.
  - right. split; [done|]. apply Z.leb_gt in H2. lia.
  - left. apply is_none_eq. by destruct (is_none v).
Qed.

Lemma max_wait_checks_valid v :
  negb (is_int v || is_none v) = false -> is_int v && (int_value v <? 0) = false ->
  max_wait_valid v.
Proof.
  intros H1 H2. destruct (is_int v) eqn:Hi; simpl in *.
  - right. split; [done|]. apply Z.ltb_ge in H2. lia.
  - left. apply is_none_eq. by destruct (is_none v).
Qed.

(** A result other than an error means every check passed. *)
Lemma async_cache_accepts o uuid d :
  async_cache o uuid = Ok d ->
  ttl_valid (o_ttl o) /\ max_wait_valid (o_max_wait o) /\
  text (o_lock_key_prefix o) <> text (o_value_key_prefix o).
Proof.
  intros H. unfold async_cache in H.
  repeat match type of H with
         | (if ?b then Err _ else _) = Ok _ => destruct b eqn:?; [done|]
         end.
  split; [by apply ttl_checks_valid|split; [by apply max_wait_checks_valid|]].
  by apply String.eqb_neq.
Qed.

(** C8. [async_cache] checks its options before it returns anything: a
    [ttl] that is neither an integer nor [None] is a [TypeError], an
    integer [ttl] not above 0 a [ValueError]; a [max_wait] that is neither
    an integer nor [None] is a [TypeError], a negative one a [ValueError];
    equal prefixes are a [ValueError].  The checks run in that order, each
    error being that of the first option found malformed, and whatever the
    other options are, a call with one of these faults returns no wrapper. *)
Theorem async_cache_validation (o : options) (uuid : string) :
  (is_int (o_ttl o) = false -> o_ttl o <> PNone ->
     async_cache o uuid = Err (TypeError (quoted "ttl" +:+ " must be an integer or None"))) /\
  (is_int (o_ttl o) = true -> int_value (o_ttl o) <= 0 ->
     async_cache o uuid = Err (ValueError (quoted "ttl" +:+ " must be > 0"))) /\
  (ttl_valid (o_ttl o) -> is_int (o_max_wait o) = false -> o_max_wait o <> PNone ->
     async_cache o uuid
     = Err (TypeError (quoted "max_wait" +:+ " must be an integer or None"))) /\
  (ttl_valid (o_ttl o) -> is_int (o_max_wait o) = true -> int_value (o_max_wait o) < 0 ->
     async_cache o uuid = Err (ValueError (quoted "max_wait" +:+ " must be >= 0"))) /\
  (ttl_valid (o_ttl o) -> max_wait_valid (o_max_wait o) -> well_typed o ->
     text (o_lock_key_prefix o) = text (o_value_key_prefix o) ->
     async_cache o uuid
     = Err (ValueError (quoted "lock_key_prefix" +:+ " cannot equal "
                        +:+ quoted "value_key_prefix"))) /\
  (forall d, async_cache o uuid = Ok d ->
     ttl_valid (o_ttl o) /\ max_wait_valid (o_max_wait o) /\
     text (o_lock_key_prefix o) <> text (o_value_key_prefix o)).
Proof.
  repeat split.
  - intros Hi Hn. unfold async_cache. rewrite Hi.
    by destruct (o_ttl o).
  - intros Hi Hle. unfold async_cache. rewrite Hi. simpl.
    by apply Z.leb_le in Hle as ->.
  - intros [Ht1 Ht2]%ttl_valid_checks Hi Hn. unfold async_cache.
    rewrite Ht1, Ht2, Hi. by destruct (o_max_wait o).
  - intros [Ht1 Ht2]%ttl_valid_checks Hi Hlt. unfold async_cache.
    rewrite Ht1, Ht2, Hi. simpl. by apply Z.ltb_lt in Hlt as ->.
  - intros [Ht1 Ht2]%ttl_valid_checks [Hm1 Hm2]%max_wait_valid_checks
      (Hk & Hs & Hn & He & Hd & Hi & Hsep & Hl & Hv) Heq.
    unfold async_cache.
    rewrite Ht1, Ht2, Hm1, Hm2, Hk, Hn, He, Hd, Hi, Hsep, Hl, Hv. simpl.
    apply String.eqb_eq in Heq as ->.
    destruct (o_skip_cache_on o) as [| | |v]; try done. by destruct (Hs v).
  - by eapply async_cache_accepts.
  - by eapply async_cache_accepts.
  - by eapply async_cache_accepts.
Qed.

(** [async_cache(ttl=0)], [async_cache(max_wait=-1)] with a good [ttl], and
    [async_cache(lock_key_prefix='V')]. *)
Lemma async_cache_validation_witness :
  async_cache (Demo.options_with (PInt 0) PNone) "u"
  = Err (ValueError (quoted "ttl" +:+ " must be > 0")) /\
  async_cache (Demo.options_with (PInt 60) (PInt (-1))) "u"
  = Err (ValueError (quoted "max_wait" +:+ " must be >= 0")) /\
  async_cache (Options None (PInt 60) (PInt 5) HNone SkipNone PNone HNone HNone PNone
                       (PStr ":") (PStr "V") (PStr "V")) "u"
  = Err (ValueError (quoted "lock_key_prefix" +:+ " cannot equal "
                     +:+ quoted "value_key_prefix")).
Proof.
  split; [|split].
  - apply (async_cache_validation (Demo.options_with (PInt 0) PNone) "u");
      [reflexivity | simpl; lia].
  - apply (async_cache_validation (Demo.options_with (PInt 60) (PInt (-1))) "u").
    + right. simpl. split; [reflexivity | lia].
    + reflexivity.
    + simpl; lia.
  - apply (async_cache_validation
             (Options None (PInt 60) (PInt 5) HNone SkipNone PNone HNone HNone PNone
                      (PStr ":") (PStr "V") (PStr "V")) "u").
    + right. simpl. split; [reflexivity | lia].
    + right. simpl. split; [reflexivity | lia].
    + unfold well_typed. simpl. repeat split; discriminate.
    + reflexivity.
Defined.

End Validation.

(* ===================================================================== *)
(** * Printing and reading integers                                        *)
(* ===================================================================== *)

Section Decimal.
Import Py.

Lemma digit_char_code d : 0 <= d < 10 -> code (digit_char d) = 48 + d.
Proof.
  intros H.
  assert (d = 0 \/ d = 1 \/ d = 2 \/ d = 3 \/ d = 4 \/ d = 5 \/ d = 6 \/ d = 7
          \/ d = 8 \/ d = 9) as Hd by lia.
  repeat destruct Hd as [->|Hd]; try reflexivity. by subst.
Qed.

Lemma read_digits_cons d s a :
  0 <= d < 10 ->
  read_digits (String (digit_char d) s) a = read_digits s (10 * a + d).
Proof.
  intros H. simpl. unfold is_digit. rewrite (digit_char_code d H).
  replace (48 <=? 48 + d) with true by (symmetry; apply Z.leb_le; lia).
  replace (48 + d <=? 57) with true by (symmetry; apply Z.leb_le; lia).
  simpl. f_equal. lia.
Qed.

(** The digits written are read back, whatever follows them. *)
Lemma read_pos_digits fuel n acc :
  0 <= n < 2 ^ Z.of_nat fuel -> (0 < fuel)%nat ->
  exists c rest k,
    pos_digits fuel n acc = String c rest /\ is_digit c = true /\
    forall a, read_digits (String c rest) a = read_digits acc (a * k + n).
Proof.
  revert n acc. induction fuel as [|fuel IH]; intros n acc Hn Hf; [lia|].
  assert (0 <= n mod 10 < 10) as Hd by (apply Z.mod_pos_bound; lia).
  simpl pos_digits. destruct (Z.eqb_spec (n / 10) 0) as [H0|H0].
  - exists (digit_char (n mod 10)), acc, 10. split; [done|]. split.
    + unfold is_digit. rewrite (digit_char_code _ Hd).
      apply andb_true_iff. split; apply Z.leb_le; lia.
    + intros a. rewrite read_digits_cons by done. f_equal.
      pose proof (Z.div_mod n 10). lia.
  - assert (0 < n / 10) as Hq.
    { assert (0 <= n / 10) by (apply Z.div_pos; lia). lia. }
    assert (n / 10 < 2 ^ Z.of_nat fuel) as Hb.
    { rewrite Nat2Z.inj_succ, Z.pow_succ_r in Hn by lia.
      apply Z.div_lt_upper_bound; lia. }
    assert (0 < fuel)%nat as Hfuel.
    { destruct fuel; [simpl in Hb; lia | lia]. }
    destruct (IH (n / 10) (String (digit_char (n mod 10)) acc)) as (c & rest & k & -> & Hc & Hr);
      [lia|done|].
    exists c, rest, (10 * k). split; [done|]. split; [done|].
    intros a. rewrite Hr, read_digits_cons by done. f_equal.
    pose proof (Z.div_mod n 10). lia.
Qed.

(** [int(str(n)) == n] for a natural number. *)
Lemma int_of_string_decimal n : 0 <= n -> int_of_string (decimal n) = Some n.
Proof.
  intros Hn. unfold decimal.
  replace (n <? 0) with false by (symmetry; apply Z.ltb_ge; lia).
  rewrite Z.abs_eq by done.
  destruct (read_pos_digits (S (Z.to_nat (Z.log2 n))) n EmptyString)
    as (c & rest & k & -> & Hc & Hr).
  - split; [done|]. rewrite Nat2Z.inj_succ, Z2Nat.id by apply Z.log2_nonneg.
    destruct (Z.eq_dec n 0) as [->|]; [done|]. apply Z.log2_spec. lia.
  - lia.
  - unfold int_of_string, read_int, read_nat. rewrite Hc.
    assert ((code c =? 45) = false) as ->.
    { unfold is_digit in Hc. apply andb_true_iff in Hc as [H1 _].
      apply Z.leb_le in H1. apply Z.eqb_neq. lia. }
    rewrite Hr. simpl. by replace (0 * k + n) with n by lia.
Qed.

End Decimal.

(* ===================================================================== *)
(** * The lock-and-broadcast protocol, step by step                        *)
(* ===================================================================== *)

Section Requests.
Import Py Redis Scripts Tx.

Lemma request_fault ev run w e :
  hd None (faults w) = Some e ->
  request ev run w = (after ev (server w) w, Raise e).
Proof. intros H. unfold request, take_fault. simpl. by rewrite H. Qed.

Lemma request_served ev run w :
  hd None (faults w) = None ->
  request ev run w
  = match run (server w) with
    | (s', Reply r) => (after ev s' w, Ret (to_py r))
    | (s', Error msg) => (after ev s' w, Raise (ResponseError msg))
    end.
Proof.
  intros H. unfold request, take_fault. simpl. rewrite H.
  by destruct (run (server w)) as [s' [r|msg]].
Qed.

Lemma rpush_absent k v s :
  lookup k s = None -> Redis.rpush k v s = (put k (Entry (RList [v]) None) s, Reply (Int 1)).
Proof. intros H. unfold Redis.rpush. by rewrite H. Qed.

(** RPUSH leaves every other key as it was. *)
Lemma rpush_other k k' v s : k <> k' -> lookup k' (fst (Redis.rpush k v s)) = lookup k' s.
Proof.
  intros H. unfold Redis.rpush. destruct (lookup k s) as [[[x|l] ex]|]; simpl; try done;
    by rewrite lookup_put_ne.
Qed.

Lemma rpush_now k v s : now (fst (Redis.rpush k v s)) = now s.
Proof. unfold Redis.rpush. by destruct (lookup k s) as [[[x|l] ex]|]. Qed.

(** PUSH_AND_DELETE_SCRIPT pushes, then stops on the unknown command: the
    second key is not touched and the script answers with an error. *)
Lemma push_and_delete_script value_key lock_key msg s :
  lua PUSH_AND_DELETE_SCRIPT [value_key; lock_key] [msg] s
  = match Redis.rpush value_key msg s with
    | (s', Reply _) => (s', Error UNKNOWN_COMMAND)
    | (s', Error m) => (s', Error m)
    end.
Proof.
  unfold lua, Redis.bind, Redis.item, Redis.ret. simpl. rewrite call_rpush.
  by destruct (Redis.rpush value_key msg s) as [s1 [r|m]].
Qed.

(** PUSH_AND_EXPIRE_SCRIPT on a fresh value list and a held lock. *)
Lemma push_and_expire_script value_key lock_key msg t s v ex :
  value_key <> lock_key -> 0 < t ->
  lookup value_key s = None -> lookup lock_key s = Some (Entry v ex) ->
  lua PUSH_AND_EXPIRE_SCRIPT [value_key; lock_key] [msg; decimal t] s
  = (put lock_key (Entry v (Some (now s + t))) (put value_key (Entry (RList [msg]) None) s),
     Reply (Multi [Int 1; Int 1])).
Proof.
  intros Hne Ht Hv Hl. unfold lua, Redis.bind, Redis.item, Redis.ret. simpl.
  rewrite call_rpush, (rpush_absent _ _ _ Hv), call_expire.
  rewrite int_of_string_decimal by lia. unfold expire.
  rewrite lookup_put_ne, Hl by done.
  by replace (t <=? 0) with false by (symmetry; apply Z.leb_gt; lia).
Qed.

End Requests.

Section Protocol.
Import Py Redis Scripts Tx Core.

Variable c : closure.
Variables lock_key value_key : string.
Hypothesis keys_differ : lock_key <> value_key.

Abbreviation acquire_ev := (EvEval GET_SCRIPT [lock_key; value_key] [id_tag c]).
Abbreviation skip_msg name :=
  (EvLogErr ("skipping cache for key " +:+ repr_str value_key
             +:+ ": exception in " +:+ quoted name +:+ ":")).

(** Acquisition on a free lock. *)
Lemma acquire_free w :
  hd None (faults w) = None -> lookup lock_key (server w) = None ->
  get_lock_or_cached_value c lock_key value_key w
  = (after acquire_ev
       (remove value_key (put lock_key (Entry (RString (id_tag c)) None) (server w))) w,
     Ret (true, PNone)).
Proof.
  intros Hf Hl.
  unfold get_lock_or_cached_value, except_skip, try_except, Tx.bind, eval.
  by rewrite (request_served _ _ _ Hf), (get_script_free _ _ _ _ Hl).
Qed.

(** Acquisition on a held lock: the answer is what heads the value list. *)
Lemma acquire_held w e :
  hd None (faults w) = None -> lookup lock_key (server w) = Some e ->
  (lookup value_key (server w) = None ->
   get_lock_or_cached_value c lock_key value_key w
   = (after acquire_ev (server w) w, Ret (false, PNone))) /\
  (forall m l ex, lookup value_key (server w) = Some (Entry (RList (m :: l)) ex) ->
   get_lock_or_cached_value c lock_key value_key w
   = (after acquire_ev (server w) w, Ret (false, PStr m))).
Proof.
  intros Hf Hl.
  unfold get_lock_or_cached_value, except_skip, try_except, Tx.bind, eval.
  rewrite (request_served _ _ _ Hf), (get_script_held _ _ _ _ e Hl).
  unfold lindex. split; [intros ->|intros m l ex ->]; done.
Qed.

(** Acquisition when the request fails on the way. *)
Lemma acquire_fault w e :
  hd None (faults w) = Some e ->
  get_lock_or_cached_value c lock_key value_key w
  = if exn_isinstance e (skip_cache_on c)
    then (emit (skip_msg "get_lock_or_cached_value") (after acquire_ev (server w) w),
          Ret (false, PStr (EMPTY_JSON_MSG c)))
    else (after acquire_ev (server w) w, Raise e).
Proof.
  intros Hf.
  unfold get_lock_or_cached_value, except_skip, try_except, Tx.bind, eval.
  rewrite (request_fault _ _ _ _ Hf). by destruct (exn_isinstance e _).
Qed.

(** The owner's branch ends as the computation ends, whatever becomes of
    the publication. *)
Lemma on_owned_outcome args kwargs w :
  on_owned c lock_key value_key args kwargs w
  = match func c args kwargs with
    | Ok v => (fst (cache_value c lock_key value_key v (emit (EvCall args kwargs) w)), Ret v)
    | Err e =>
        (fst (notify_waiters_and_release_lock c lock_key value_key
                (emit (EvCall args kwargs) w)), Raise e)
    end.
Proof.
  unfold on_owned, call_func, spawn, Tx.bind, Tx.ret, Tx.raise.
  by destruct (func c args kwargs).
Qed.

(** The failure notice: the empty message is pushed; the lock stays. *)
Lemma notify_effect w :
  hd None (faults w) = None -> lookup value_key (server w) = None ->
  notify_waiters_and_release_lock c lock_key value_key w
  = (emit (EvLogErr "exception in notify_waiters_and_release_lock():")
       (after (EvEval PUSH_AND_DELETE_SCRIPT [value_key; lock_key] [EMPTY_JSON_MSG c])
          (put value_key (Entry (RList [EMPTY_JSON_MSG c]) None) (server w)) w),
     Ret tt).
Proof.
  intros Hf Hv. unfold notify_waiters_and_release_lock, eval.
  by rewrite (request_served _ _ _ Hf), push_and_delete_script, (rpush_absent _ _ _ Hv).
Qed.

(** In no case does the failure notice remove the lock. *)
Lemma notify_keeps_lock w :
  lookup lock_key (server (fst (notify_waiters_and_release_lock c lock_key value_key w)))
  = lookup lock_key (server w).
Proof.
  unfold notify_waiters_and_release_lock, eval.
  destruct (hd None (faults w)) as [e|] eqn:Hf.
  - by rewrite (request_fault _ _ _ _ Hf).
  - rewrite (request_served _ _ _ Hf), push_and_delete_script.
    pose proof (rpush_other value_key lock_key (EMPTY_JSON_MSG c) (server w)) as Ho.
    destruct (Redis.rpush _ _ _) as [s' [r|m]]; simpl in *; apply Ho; congruence.
Qed.

(** Publication without a time to live: one RPUSH. *)
Lemma cache_value_plain v msg w :
  ttl c = PNone -> json_encode_func c (PDict [("content", v)]) = Ok msg ->
  hd None (faults w) = None -> lookup value_key (server w) = None ->
  cache_value c lock_key value_key v w
  = (emit (EvLogMsg "cache_value(): redis response: 1")
       (after (EvRpush value_key msg)
          (put value_key (Entry (RList [msg]) None) (server w)) w),
     Ret tt).
Proof.
  intros Ht He Hf Hv. unfold cache_value, Tx.bind, lift. rewrite He, Ht. simpl.
  unfold rpush. by rewrite (request_served _ _ _ Hf), (rpush_absent _ _ _ Hv).
Qed.

(** Publication with a time to live: one script that pushes and sets the
    expiry of the lock. *)
Lemma cache_value_ttl v msg t w lv ex :
  ttl c = PInt t -> 0 < t -> json_encode_func c (PDict [("content", v)]) = Ok msg ->
  hd None (faults w) = None -> lookup value_key (server w) = None ->
  lookup lock_key (server w) = Some (Entry lv ex) ->
  cache_value c lock_key value_key v w
  = (emit (EvLogMsg "cache_value(): redis response: [1, 1]")
       (after (EvEval PUSH_AND_EXPIRE_SCRIPT [value_key; lock_key] [msg; decimal t])
          (put lock_key (Entry lv (Some (now (server w) + t)))
             (put value_key (Entry (RList [msg]) None) (server w))) w),
     Ret tt).
Proof.
  intros Ht Hpos He Hf Hv Hl. unfold cache_value, Tx.bind, lift. rewrite He, Ht.
  cbn [truthy str repr].
  replace (negb (t =? 0)) with true by (symmetry; apply negb_true_iff, Z.eqb_neq; lia).
  unfold Tx.ret, eval. cbv beta iota zeta. rewrite (request_served _ _ _ Hf).
  by rewrite (push_and_expire_script _ _ _ _ _ lv ex).
Qed.

End Protocol.

Section StoreClock.
Import Redis.




End StoreClock.

(* ===================================================================== *)
(** * The owner: publication of the result, notice of a failure            *)
(* ===================================================================== *)

Section Owner.
Import Py Redis Scripts Tx Core.

Variable c : closure.
Variables lock_key value_key : string.
Hypothesis keys_differ : lock_key <> value_key.

Abbreviation acquired_ev := (EvEval GET_SCRIPT [lock_key; value_key] [id_tag c]).


End Owner.



Section OwnerFailure.
Import Py Redis Scripts Tx Core.

(** When the owner's computation fails, the error reaches the caller after
    the notice was sent; the notice pushes the empty message, but its
    script stops on the unknown command and the lock is as it was. *)
Lemma owner_failure_keeps_lock (c : closure) (lock_key value_key : string)
    (args : list pyval) (kwargs : list (string * pyval)) (w : world) (e : exn) :
  lock_key <> value_key ->
  faults w = [] ->
  lookup lock_key (server w) = None ->
  func c args kwargs = Err e ->
  let r := compute_or_fetch c lock_key value_key args kwargs w in
  snd r = Raise e /\
  trace (fst r)
  = trace w ++ [EvEval GET_SCRIPT [lock_key; value_key] [id_tag c];
                EvCall args kwargs;
                EvEval PUSH_AND_DELETE_SCRIPT [value_key; lock_key] [EMPTY_JSON_MSG c];
                EvLogErr "exception in notify_waiters_and_release_lock():"] /\
  lookup value_key (server (fst r)) = Some (Entry (RList [EMPTY_JSON_MSG c]) None) /\
  lookup lock_key (server (fst r)) = Some (Entry (RString (id_tag c)) None).
Proof.
  intros Hne Hf Hl He r. subst r.
  assert (hd None (faults w) = None) as Hf0 by (by rewrite Hf).
  unfold compute_or_fetch, Tx.bind.
  rewrite (acquire_free c _ _ w Hf0 Hl). cbn [fst snd].
  rewrite on_owned_outcome, He. cbn [fst snd].
  rewrite notify_effect.
  - cbn [fst]. split; [done|]. split; [|split]; simpl.
    + by rewrite <- !app_assoc.
    + by rewrite lookup_put_eq.
    + rewrite lookup_put_ne, lookup_remove_ne by done. by rewrite lookup_put_eq.
  - simpl. by rewrite Hf.
  - apply lookup_remove_eq.
Qed.

(** C4, on the code.  The first call of [double('boom')] against an empty
    store: the computation fails and its error is raised to the caller; the
    empty message is on the value list; the script answered with an error
    in place of the two results; and the lock is still held. *)
Theorem failure_notice_keeps_lock :
  snd (get_computed_or_redis_value (Demo.closure_with PNone (PInt 5))
         (keymaker (Demo.closure_with PNone (PInt 5)) [PStr "boom"] [])
         [PStr "boom"] [] Demo.fresh)
  = Raise (TypeError "unsupported operand") /\
  lookup "V:demo.double:('boom',)"
    (server (fst (get_computed_or_redis_value (Demo.closure_with PNone (PInt 5))
                    (keymaker (Demo.closure_with PNone (PInt 5)) [PStr "boom"] [])
                    [PStr "boom"] [] Demo.fresh)))
  = Some (Entry (RList ["{}"]) None) /\
  snd (lua PUSH_AND_DELETE_SCRIPT ["V:demo.double:('boom',)"; "L:demo.double:('boom',)"]
         ["{}"]
         (fst (lua GET_SCRIPT ["L:demo.double:('boom',)"; "V:demo.double:('boom',)"]
                 ["demo.1"] (server Demo.fresh))))
  = Error UNKNOWN_COMMAND /\
  lookup "L:demo.double:('boom',)"
    (server (fst (get_computed_or_redis_value (Demo.closure_with PNone (PInt 5))
                    (keymaker (Demo.closure_with PNone (PInt 5)) [PStr "boom"] [])
                    [PStr "boom"] [] Demo.fresh)))
  = Some (Entry (RString "demo.1") None).
Proof.
  destruct (owner_failure_keeps_lock (Demo.closure_with PNone (PInt 5))
              "L:demo.double:('boom',)" "V:demo.double:('boom',)" [PStr "boom"] []
              Demo.fresh (TypeError "unsupported operand")) as (H1 & _ & H3 & H4);
    try done.
Qed.

End OwnerFailure.

(* ===================================================================== *)
(** * The waiter                                                           *)
(* ===================================================================== *)

Section Waiter.
Import Py Redis Scripts Tx Core.

Variable c : closure.
Variable value_key : string.

Abbreviation wait_ev := (EvBrpoplpush value_key value_key (int_value (max_wait c))).
Abbreviation skipped name :=
  (EvLogErr ("skipping cache for key " +:+ repr_str value_key
             +:+ ": exception in " +:+ quoted name +:+ ":")).

Lemma call_func_run args kwargs w :
  call_func c args kwargs w = (emit (EvCall args kwargs) w, computed c args kwargs).
Proof. unfold call_func, computed, lift. by destruct (func c args kwargs). Qed.

(** A message at hand is decoded; its content, if it has one, is the
    result, and the computation runs only if it has none. *)
Lemma on_denied_message m items args kwargs w :
  json_decode_func c (PStr m) = Ok (PDict items) ->
  on_denied c value_key (PStr m) args kwargs w
  = match Json.dict_get "content" items with
    | Some v => (w, Ret v)
    | None => (emit (EvCall args kwargs) w, computed c args kwargs)
    end.
Proof.
  intros Hd. unfold on_denied, Tx.bind, lift, get_content. simpl. rewrite Hd. simpl.
  destruct (Json.dict_get "content" items); [done|]. apply call_func_run.
Qed.

(** The empty message sends the waiter to the computation. *)
Lemma on_denied_empty args kwargs w :
  decodes_empty c ->
  on_denied c value_key (PStr (EMPTY_JSON_MSG c)) args kwargs w
  = (emit (EvCall args kwargs) w, computed c args kwargs).
Proof. intros (items & Hd & Hg). by rewrite (on_denied_message _ items), Hg. Qed.

(** The blocking pop on an absent list. *)
Lemma brpoplpush_absent timeout w :
  hd None (faults w) = None -> 0 <= timeout ->
  lookup value_key (server w) = None ->
  brpoplpush value_key value_key timeout w
  = let ev := EvBrpoplpush value_key value_key timeout in
    match incoming w with
    | Some (t, m) =>
        if (timeout =? 0) || (t <? timeout) then
          (World (fst (rpoplpush value_key value_key
                         (fst (Redis.rpush value_key m (advance t (server w))))))
                 (tl (faults w)) None (trace w ++ [ev]),
           Ret (PStr m))
        else (after ev (advance timeout (server w)) w, Ret PNone)
    | None =>
        if timeout =? 0 then (after ev (server w) w, Pending)
        else (after ev (advance timeout (server w)) w, Ret PNone)
    end.
Proof.
  intros Hf Ht Hv. unfold brpoplpush, take_fault. simpl. rewrite Hf.
  replace (timeout <? 0) with false by (symmetry; apply Z.ltb_ge; lia).
  unfold rpoplpush at 1. rewrite Hv. done.
Qed.

(** The wait when the request fails on the way. *)
Lemma wait_fault w e :
  hd None (faults w) = Some e ->
  wait_for_cached_value c value_key w
  = if exn_isinstance e (skip_cache_on c)
    then (emit (skipped "wait_for_cached_value") (after wait_ev (server w) w),
          Ret (PStr (EMPTY_JSON_MSG c)))
    else (after wait_ev (server w) w, Raise e).
Proof.
  intros Hf. unfold wait_for_cached_value, except_skip, try_except, Tx.bind.
  unfold brpoplpush, take_fault. simpl. rewrite Hf.
  by destruct (exn_isinstance e _).
Qed.

(** The wait on an absent list, with nothing going wrong on the way. *)
Lemma wait_absent w :
  hd None (faults w) = None -> 0 <= int_value (max_wait c) ->
  lookup value_key (server w) = None ->
  wait_for_cached_value c value_key w
  = match incoming w with
    | Some (t, m) =>
        if (int_value (max_wait c) =? 0) || (t <? int_value (max_wait c)) then
          (World (fst (rpoplpush value_key value_key
                         (fst (Redis.rpush value_key m (advance t (server w))))))
                 (tl (faults w)) None (trace w ++ [wait_ev]),
           Ret (PStr m))
        else (after wait_ev (advance (int_value (max_wait c)) (server w)) w,
              Ret (PStr (EMPTY_JSON_MSG c)))
    | None =>
        if int_value (max_wait c) =? 0 then (after wait_ev (server w) w, Pending)
        else (after wait_ev (advance (int_value (max_wait c)) (server w)) w,
              Ret (PStr (EMPTY_JSON_MSG c)))
    end.
Proof.
  intros Hf Ht Hv. unfold wait_for_cached_value, except_skip, try_except, Tx.bind.
  rewrite (brpoplpush_absent _ _ Hf Ht Hv). cbv zeta.
  destruct (incoming w) as [[t m]|].
  - by destruct (_ || _).
  - by destruct (_ =? 0).
Qed.

End Waiter.

Section WaiterFacts.
Import Py Redis Scripts Tx Core.

Variable c : closure.
Variable value_key : string.

Lemma rpoplpush_now src dst s : now (fst (rpoplpush src dst s)) = now s.
Proof.
  unfold rpoplpush. destruct (lookup src s) as [[[x|l] ex]|]; try done.
  destruct (last l); [|done]. destruct (String.eqb src dst); [done|].
  destruct (lookup dst s) as [[[y|d] exd]|]; try done; by destruct (removelast l).
Qed.

Lemma wait_never_none w w' j :
  wait_for_cached_value c value_key w = (w', Ret j) -> is_none j = false.
Proof.
  unfold wait_for_cached_value, Tx.bind.
  destruct (except_skip _ _ _ w) as [w1 [a|e|]]; try done.
  unfold Tx.ret. intros [= _ <-]. by destruct (is_none a) eqn:Ha.
Qed.

(** A waiter with no message at hand waits, then goes on with what the
    wait gave it. *)
Lemma on_denied_waits args kwargs w :
  on_denied c value_key PNone args kwargs w
  = match wait_for_cached_value c value_key w with
    | (w', Ret j) => on_denied c value_key j args kwargs w'
    | (w', Raise e) => (w', Raise e)
    | (w', Pending) => (w', Pending)
    end.
Proof.
  unfold on_denied at 1. unfold Tx.bind at 1. cbn [is_none].
  destruct (wait_for_cached_value c value_key w) as [w' [j|e|]] eqn:Hw; try done.
  apply wait_never_none in Hw. unfold on_denied. rewrite Hw.
  unfold Tx.bind at 3. by unfold Tx.ret.
Qed.

(** With a message at hand the waiter ends, and the server is not asked. *)
Lemma on_denied_ends j args kwargs w :
  is_none j = false ->
  snd (on_denied c value_key j args kwargs w) <> Pending /\
  server (fst (on_denied c value_key j args kwargs w)) = server w.
Proof.
  intros Hj. unfold on_denied, Tx.bind, lift, get_content. rewrite Hj. unfold Tx.ret.
  destruct (json_decode_func c j) as [msg|e]; [|done]. unfold Tx.raise.
  destruct msg; try done.
  destruct (Json.dict_get "content" items); [done|]. unfold SENTINEL.
  rewrite call_func_run. unfold computed. by destruct (func c args kwargs).
Qed.

End WaiterFacts.

(* ===================================================================== *)
(** * The bound on the wait                                                *)
(* ===================================================================== *)

Section MaxWait.
Import Py Redis Scripts Tx Core.

(** When [max_wait] is left out, the closure holds 0. *)
Lemma max_wait_default o uuid c :
  async_cache o uuid = Ok (Wrapper c) -> o_max_wait o = PNone -> max_wait c = PInt 0.
Proof.
  intros H Hn. unfold async_cache in H.
  repeat match type of H with
         | (if ?b then Err _ else _) = Ok _ => destruct b eqn:?; [done|]
         end.
  destruct (o_func o); [|done].
  destruct (if is_none (o_namespace o) then _ else _); [|done].
  destruct (match o_json_encode_func o with HCallable e => e | _ => Json.dumps end _);
    [|done].
  injection H as <-. simpl. by rewrite Hn.
Qed.

(** C5, as the code has it.  A caller that was denied the lock and saw no
    message waits on the value list.  With [max_wait = W > 0] the wait ends
    within [W] seconds, and if nothing was pushed by then the caller
    computes the value itself.  With [max_wait = 0], which is also what a
    missing [max_wait] becomes, the wait has no bound: the caller goes on
    when a message is pushed, and stays suspended, computing nothing, if
    none ever is. *)
Theorem wait_bounded_unless_zero (c : closure) (value_key : string)
    (args : list pyval) (kwargs : list (string * pyval)) (w : world) :
  hd None (faults w) = None ->
  lookup value_key (server w) = None ->
  decodes_empty c ->
  let W := int_value (max_wait c) in
  let wait_ev := EvBrpoplpush value_key value_key W in
  let r := on_denied c value_key PNone args kwargs w in
  (0 < W ->
     snd r <> Pending /\ now (server (fst r)) <= now (server w) + W) /\
  (0 < W ->
     incoming w = None \/ (exists t m, incoming w = Some (t, m) /\ W <= t) ->
     r = (emit (EvCall args kwargs) (after wait_ev (advance W (server w)) w),
          computed c args kwargs)) /\
  (W = 0 -> incoming w = None -> r = (after wait_ev (server w) w, Pending)) /\
  (W = 0 -> forall t m, incoming w = Some (t, m) ->
     now (server (fst r)) = now (server w) + t /\
     exists w', r = on_denied c value_key (PStr m) args kwargs w' /\
                trace w' = trace w ++ [wait_ev]) /\
  (forall o uuid, async_cache o uuid = Ok (Wrapper c) -> o_max_wait o = PNone -> W = 0).
Proof.
  intros Hf Hv Hde W wait_ev r. subst r.
  rewrite on_denied_waits.
  split; [|split; [|split; [|split]]].
  - intros HW. rewrite (wait_absent c value_key w Hf ltac:(fold W; lia) Hv). fold W.
    replace (W =? 0) with false by (symmetry; apply Z.eqb_neq; lia). simpl.
    destruct (incoming w) as [[t m]|].
    + destruct (Z.ltb_spec t W).
      * match goal with
        | |- context [on_denied c value_key (PStr m) args kwargs ?w1] =>
            destruct (on_denied_ends c value_key (PStr m) args kwargs w1 eq_refl)
              as [Hp Hs]
        end.
        split; [done|]. rewrite Hs. simpl. rewrite rpoplpush_now, rpush_now. simpl. lia.
      * rewrite on_denied_empty by done. split; [|simpl; lia].
        unfold computed. by destruct (func c args kwargs).
    + rewrite on_denied_empty by done. split; [|simpl; lia].
      unfold computed. by destruct (func c args kwargs).
  - intros HW Hin. rewrite (wait_absent c value_key w Hf ltac:(fold W; lia) Hv). fold W.
    replace (W =? 0) with false by (symmetry; apply Z.eqb_neq; lia). simpl.
    destruct Hin as [->|(t & m & -> & Hle)].
    + by rewrite on_denied_empty.
    + replace (t <? W) with false by (symmetry; apply Z.ltb_ge; lia).
      by rewrite on_denied_empty.
  - intros HW Hin. rewrite (wait_absent c value_key w Hf ltac:(fold W; lia) Hv). fold W.
    unfold wait_ev. by rewrite Hin, HW.
  - intros HW t m Hin.
    rewrite (wait_absent c value_key w Hf ltac:(fold W; lia) Hv). fold W.
    rewrite Hin, HW. simpl. split.
    + match goal with
      | |- context [on_denied c value_key (PStr m) args kwargs ?w1] =>
          destruct (on_denied_ends c value_key (PStr m) args kwargs w1 eq_refl)
            as [_ Hs]
      end.
      rewrite Hs. simpl. by rewrite rpoplpush_now, rpush_now.
    + eexists. split; [done|]. simpl. unfold wait_ev. by rewrite HW.
  - intros o uuid Ha Hn. subst W. by rewrite (max_wait_default o uuid c Ha Hn).
Qed.

End MaxWait.

(** [double(21)] with [max_wait=5] while another process holds the lock
    and never publishes: after 5 seconds the caller computes 42 itself. *)
Lemma wait_bounded_unless_zero_witness :
  Core.on_denied (Demo.closure_with Py.PNone (Py.PInt 5)) "V:demo.double:(21,)" Py.PNone
    [Py.PInt 21] [] Demo.held
  = (Tx.emit (Tx.EvCall [Py.PInt 21] [])
       (Tx.after (Tx.EvBrpoplpush "V:demo.double:(21,)" "V:demo.double:(21,)" 5)
          (Redis.advance 5 (Tx.server Demo.held)) Demo.held),
     Tx.Ret (Py.PInt 42)).
Proof.
  apply (wait_bounded_unless_zero (Demo.closure_with Py.PNone (Py.PInt 5))
           "V:demo.double:(21,)" [Py.PInt 21] [] Demo.held).
  - reflexivity.
  - reflexivity.
  - exists []. split; reflexivity.
  - simpl. lia.
  - left. reflexivity.
Defined.

(** What the specification says of [max_wait=0] does not hold on the code.
    [async_cache(double)], with [max_wait] left out, closes over
    [max_wait = 0]; a call denied the lock, with no message published, does
    not compute at once: it stays suspended on the blocking pop, and the
    computation is not called. *)
Lemma zero_max_wait_blocks :
  Core.async_cache (Demo.options_with Py.PNone Py.PNone) "u"
  = Py.Ok (Core.Wrapper (Demo.closure_with Py.PNone Py.PNone)) /\
  Core.max_wait (Demo.closure_with Py.PNone Py.PNone) = Py.PInt 0 /\
  Core.get_computed_or_redis_value (Demo.closure_with Py.PNone Py.PNone)
    (Some "(21,)") [Py.PInt 21] [] Demo.held
  = (Tx.after (Tx.EvBrpoplpush "V:demo.double:(21,)" "V:demo.double:(21,)" 0)
       (Tx.server Demo.held)
       (Tx.after (Tx.EvEval Scripts.GET_SCRIPT
                    ["L:demo.double:(21,)"; "V:demo.double:(21,)"] ["demo.1"])
          (Tx.server Demo.held) Demo.held),
     Tx.Pending) /\
  ~ In (Tx.EvCall [Py.PInt 21] [])
       (Tx.trace (fst (Core.get_computed_or_redis_value
                         (Demo.closure_with Py.PNone Py.PNone)
                         (Some "(21,)") [Py.PInt 21] [] Demo.held))).
Proof.
  split; [reflexivity|]. split; [reflexivity|]. split; [reflexivity|].
  vm_compute. intros [H|[H|[]]]; discriminate.
Qed.

(* ===================================================================== *)
(** * Degradation                                                          *)
(* ===================================================================== *)

Section Degradation.
Import Py Redis Scripts Tx Core.

Variable c : closure.
Variables lock_key value_key : string.

Abbreviation skip_note name :=
  (EvLogErr ("skipping cache for key " +:+ repr_str value_key
             +:+ ": exception in " +:+ quoted name +:+ ":")).

(** The publication of a result when its request fails on the way. *)
Lemma cache_value_fault v msg w e :
  json_encode_func c (PDict [("content", v)]) = Ok msg ->
  hd None (faults w) = Some e ->
  exists ev,
    cache_value c lock_key value_key v w
    = if exn_isinstance e (skip_cache_on c)
      then (emit (skip_note "cache_value") (after ev (server w) w), Ret tt)
      else (after ev (server w) w, Raise e).
Proof.
  intros He Hf. unfold cache_value, Tx.bind, lift. rewrite He. unfold Tx.ret.
  cbv beta iota zeta. destruct (truthy (ttl c)).
  - eexists. unfold eval. rewrite (request_fault _ _ _ _ Hf).
    by destruct (exn_isinstance e _).
  - eexists. unfold rpush. rewrite (request_fault _ _ _ _ Hf).
    by destruct (exn_isinstance e _).
Qed.

Lemma notify_fault w e :
  hd None (faults w) = Some e ->
  notify_waiters_and_release_lock c lock_key value_key w
  = (emit (EvLogErr "exception in notify_waiters_and_release_lock():")
       (after (EvEval PUSH_AND_DELETE_SCRIPT [value_key; lock_key] [EMPTY_JSON_MSG c])
          (server w) w),
     Ret tt).
Proof.
  intros Hf. unfold notify_waiters_and_release_lock, eval.
  by rewrite (request_fault _ _ _ _ Hf).
Qed.

(** C6, as the code has it.  The next request to the store fails with [e].
    At the acquisition and at the wait, an [e] of a kind in [skip_cache_on]
    is logged and the caller computes the value itself, and an [e] of any
    other kind is raised to the caller.  At the two publications, which the
    caller does not wait for, the caller gets the value computed, or the
    error of the computation, whatever the kind of [e]; a kind in
    [skip_cache_on] is logged by [cache_value], and any kind is logged by
    [notify_waiters_and_release_lock]. *)
Theorem store_failures_degrade (args : list pyval) (kwargs : list (string * pyval))
    (w : world) (e : exn) :
  hd None (faults w) = Some e ->
  let acquire_ev := EvEval GET_SCRIPT [lock_key; value_key] [id_tag c] in
  let wait_ev := EvBrpoplpush value_key value_key (int_value (max_wait c)) in
  (exn_isinstance e (skip_cache_on c) = true -> decodes_empty c ->
     compute_or_fetch c lock_key value_key args kwargs w
     = (emit (EvCall args kwargs)
          (emit (skip_note "get_lock_or_cached_value") (after acquire_ev (server w) w)),
        computed c args kwargs)) /\
  (exn_isinstance e (skip_cache_on c) = false ->
     compute_or_fetch c lock_key value_key args kwargs w
     = (after acquire_ev (server w) w, Raise e)) /\
  (exn_isinstance e (skip_cache_on c) = true -> decodes_empty c ->
     on_denied c value_key PNone args kwargs w
     = (emit (EvCall args kwargs)
          (emit (skip_note "wait_for_cached_value") (after wait_ev (server w) w)),
        computed c args kwargs)) /\
  (exn_isinstance e (skip_cache_on c) = false ->
     on_denied c value_key PNone args kwargs w = (after wait_ev (server w) w, Raise e)) /\
  (snd (on_owned c lock_key value_key args kwargs w) = computed c args kwargs /\
   server (fst (on_owned c lock_key value_key args kwargs w)) = server w) /\
  (forall v msg, func c args kwargs = Ok v ->
     json_encode_func c (PDict [("content", v)]) = Ok msg ->
     exn_isinstance e (skip_cache_on c) = true ->
     exists ev, trace (fst (on_owned c lock_key value_key args kwargs w))
                = trace w ++ [EvCall args kwargs; ev; skip_note "cache_value"]) /\
  (forall e', func c args kwargs = Err e' ->
     trace (fst (on_owned c lock_key value_key args kwargs w))
     = trace w ++ [EvCall args kwargs;
                   EvEval PUSH_AND_DELETE_SCRIPT [value_key; lock_key] [EMPTY_JSON_MSG c];
                   EvLogErr "exception in notify_waiters_and_release_lock():"]).
Proof.
  intros Hf acquire_ev wait_ev.
  assert (forall ev, hd None (faults (emit ev w)) = Some e) as Hf' by done.
  split; [|split; [|split; [|split; [|split; [|split]]]]].
  - intros Hc Hde. unfold compute_or_fetch, Tx.bind.
    rewrite (acquire_fault c _ _ w e Hf), Hc. cbn [fst snd].
    by rewrite on_denied_empty.
  - intros Hc. unfold compute_or_fetch, Tx.bind.
    by rewrite (acquire_fault c _ _ w e Hf), Hc.
  - intros Hc Hde. rewrite on_denied_waits, (wait_fault c _ w e Hf), Hc.
    by rewrite on_denied_empty.
  - intros Hc. by rewrite on_denied_waits, (wait_fault c _ w e Hf), Hc.
  - rewrite on_owned_outcome. unfold computed.
    destruct (func c args kwargs) as [v|e'].
    + split; [done|]. cbn [fst].
      destruct (json_encode_func c (PDict [("content", v)])) as [msg|e2] eqn:He.
      * destruct (cache_value_fault v msg _ e He (Hf' (EvCall args kwargs))) as [ev ->].
        by destruct (exn_isinstance e _).
      * unfold cache_value, Tx.bind, lift. by rewrite He.
    + split; [done|]. cbn [fst]. by rewrite (notify_fault _ e (Hf' _)).
  - intros v msg Hv He Hc. rewrite on_owned_outcome, Hv. cbn [fst].
    destruct (cache_value_fault v msg _ e He (Hf' (EvCall args kwargs))) as [ev ->].
    rewrite Hc. exists ev. simpl. by rewrite <- !app_assoc.
  - intros e' He'. rewrite on_owned_outcome, He'. cbn [fst].
    rewrite (notify_fault _ e (Hf' _)). simpl. by rewrite <- !app_assoc.
Qed.

End Degradation.

(** [double(21)] when the acquisition meets a connection error: the caller
    gets 42, computed on the spot. *)
Lemma store_failures_degrade_witness :
  Core.compute_or_fetch (Demo.closure_with Py.PNone (Py.PInt 5))
    "L:demo.double:(21,)" "V:demo.double:(21,)" [Py.PInt 21] []
    (Demo.with_faults [Some (Tx.ConnectionError "refused")] Demo.fresh)
  = (Tx.emit (Tx.EvCall [Py.PInt 21] [])
       (Tx.emit (Tx.EvLogErr ("skipping cache for key "
                              +:+ Py.repr_str "V:demo.double:(21,)"
                              +:+ ": exception in "
                              +:+ Core.quoted "get_lock_or_cached_value" +:+ ":"))
          (Tx.after (Tx.EvEval Scripts.GET_SCRIPT
                       ["L:demo.double:(21,)"; "V:demo.double:(21,)"] ["demo.1"])
             (Tx.server Demo.fresh)
             (Demo.with_faults [Some (Tx.ConnectionError "refused")] Demo.fresh))),
     Tx.Ret (Py.PInt 42)).
Proof.
  apply (store_failures_degrade (Demo.closure_with Py.PNone (Py.PInt 5))
           "L:demo.double:(21,)" "V:demo.double:(21,)" [Py.PInt 21] []
           (Demo.with_faults [Some (Tx.ConnectionError "refused")] Demo.fresh)
           (Tx.ConnectionError "refused")).
  - reflexivity.
  - reflexivity.
  - exists []. split; reflexivity.
Defined.

(** An error of a kind outside [skip_cache_on] does not reach the caller
    from every request: here the RPUSH of the result meets one, and the
    caller is handed the value all the same. *)
Lemma unclassified_publish_failure_not_raised :
  Py.exn_isinstance (Tx.ResponseError "READONLY")
    (Core.skip_cache_on (Demo.closure_with Py.PNone (Py.PInt 5))) = false /\
  Core.compute_or_fetch (Demo.closure_with Py.PNone (Py.PInt 5))
    "L:demo.double:(21,)" "V:demo.double:(21,)" [Py.PInt 21] []
    (Demo.with_faults [None; Some (Tx.ResponseError "READONLY")] Demo.fresh)
  = (Tx.World (Redis.remove "V:demo.double:(21,)"
                 (Redis.put "L:demo.double:(21,)"
                    (Redis.Entry (Redis.RString "demo.1") None) (Tx.server Demo.fresh)))
       [] None
       [Tx.EvEval Scripts.GET_SCRIPT ["L:demo.double:(21,)"; "V:demo.double:(21,)"]
          ["demo.1"];
        Tx.EvCall [Py.PInt 21] [];
        Tx.EvRpush "V:demo.double:(21,)" ("{" +:+ Core.quoted "content" +:+ ":42}")],
     Tx.Ret (Py.PInt 42)).
Proof. split; reflexivity. Qed.

(* ===================================================================== *)
(** * A result that is [None]                                              *)
(* ===================================================================== *)

Section NoneResult.
Import Py Redis Scripts Tx Core.

(** C10. An owner whose computation returns [None] publishes the message
    [{"content":null}].  The content of that message is [None], which is
    not the sentinel, so a caller that peeks it or pops it returns [None]
    and does not call the computation: the next call on the key, by this
    process or another, sends the acquisition script and nothing else. *)
Theorem none_result_is_broadcast (c c' : closure) (lock_key value_key : string)
    (args args' : list pyval) (kwargs kwargs' : list (string * pyval)) (w : world) :
  lock_key <> value_key ->
  faults w = [] ->
  lookup lock_key (server w) = None ->
  func c args kwargs = Ok PNone ->
  json_encode_func c = Json.dumps ->
  json_decode_func c' = json_loads ->
  ttl c = PNone \/ (exists t, ttl c = PInt t /\ 0 < t) ->
  let null_msg := "{" +:+ quoted "content" +:+ ":null}" in
  let r1 := compute_or_fetch c lock_key value_key args kwargs w in
  let r2 := compute_or_fetch c' lock_key value_key args' kwargs' (fst r1) in
  snd r1 = Ret PNone /\
  lookup value_key (server (fst r1)) = Some (Entry (RList [null_msg]) None) /\
  get_content (PDict [("content", PNone)]) w = (w, Ret (Some PNone)) /\
  Some PNone <> SENTINEL /\
  (forall w2, on_denied c' value_key (PStr null_msg) args' kwargs' w2 = (w2, Ret PNone)) /\
  r2 = (after (EvEval GET_SCRIPT [lock_key; value_key] [id_tag c']) (server (fst r1)) (fst r1),
        Ret PNone).
Proof.
  intros Hne Hf Hl Hv Henc Hdec Httl null_msg r1 r2.
  assert (json_encode_func c (PDict [("content", PNone)]) = Ok null_msg) as He
    by (by rewrite Henc).
  assert (forall w2, on_denied c' value_key (PStr null_msg) args' kwargs' w2 = (w2, Ret PNone))
    as Hden.
  { intros w2. rewrite (on_denied_message c' value_key null_msg [("content", PNone)]); [done|].
    by rewrite Hdec. }
  assert (hd None (faults w) = None) as Hf0 by (by rewrite Hf).
  assert (exists w1, fst r1 = w1 /\ snd r1 = Ret PNone /\ faults w1 = [] /\
            lookup value_key (server w1) = Some (Entry (RList [null_msg]) None) /\
            is_Some (lookup lock_key (server w1))) as (w1 & Hw1 & Ho & Hf1 & Hv1 & Hl1).
  { subst r1. unfold compute_or_fetch, Tx.bind.
    rewrite (acquire_free c _ _ w Hf0 Hl). cbn [fst snd].
    rewrite on_owned_outcome, Hv. cbn [fst snd].
    eexists. split; [done|]. split; [done|].
    destruct Httl as [Ht|(t & Ht & Hpos)].
    - rewrite (cache_value_plain c _ _ PNone null_msg _ Ht He);
        [|by simpl; rewrite Hf|apply lookup_remove_eq].
      simpl. rewrite Hf. split; [done|]. rewrite lookup_put_eq by done. split; [done|].
      rewrite lookup_put_ne, lookup_remove_ne by done. rewrite lookup_put_eq by done. eauto.
    - rewrite (cache_value_ttl c _ _ Hne PNone null_msg t _ (RString (id_tag c)) None
                 Ht Hpos He);
        [|by simpl; rewrite Hf|apply lookup_remove_eq
         |by simpl; rewrite lookup_remove_ne, lookup_put_eq].
      simpl. rewrite Hf. split; [done|].
      rewrite lookup_put_ne, lookup_put_eq by done. split; [done|].
      rewrite lookup_put_eq; [eauto|]. unfold expired. simpl. apply Z.leb_gt. lia. }
  split; [done|]. rewrite Hw1. split; [done|]. split; [done|]. split; [done|].
  split; [done|].
  subst r2. rewrite Hw1. destruct Hl1 as [e Hl1].
  unfold compute_or_fetch, Tx.bind.
  assert (hd None (faults w1) = None) as Hf1' by (by rewrite Hf1).
  destruct (acquire_held c' lock_key value_key w1 e Hf1' Hl1) as [_ Hpeek].
  rewrite (Hpeek _ _ _ Hv1). cbn [fst snd]. apply Hden.
Qed.

End NoneResult.

(** [double(None)]: the first call computes and publishes [None]; a process
    that calls with the same key afterwards gets [None] from the store. *)
Lemma none_result_is_broadcast_witness :
  snd (Core.compute_or_fetch (Demo.closure_with Py.PNone (Py.PInt 5))
         "L:demo.double:(None,)" "V:demo.double:(None,)" [Py.PNone] [] Demo.fresh)
  = Tx.Ret Py.PNone.
Proof.
  apply (none_result_is_broadcast
           (Demo.closure_with Py.PNone (Py.PInt 5)) (Demo.closure_with Py.PNone (Py.PInt 5))
           "L:demo.double:(None,)" "V:demo.double:(None,)" [Py.PNone] [Py.PNone] [] []
           Demo.fresh).
  - discriminate.
  - reflexivity.
  - reflexivity.
  - reflexivity.
  - reflexivity.
  - reflexivity.
  - left. reflexivity.
Defined.

(* ===================================================================== *)
(** * One call, at most one computation                                    *)
(* ===================================================================== *)

Section CallsOnce.
Import Py Redis Scripts Tx Core.

Lemma grows_refl n w : grows n w w.
Proof. exists []. rewrite app_nil_r. split; [done | simpl; lia]. Qed.

Lemma grows_trans n m w1 w2 w3 :
  grows n w1 w2 -> grows m w2 w3 -> grows (n + m) w1 w3.
Proof.
  intros (e1 & H1 & C1) (e2 & H2 & C2). exists (e1 ++ e2).
  rewrite H2, H1, <- app_assoc. split; [done|].
  assert (forall a b, count_calls (a ++ b) = (count_calls a + count_calls b)%nat) as Happ.
  { induction a as [|[] a IH]; intros b; simpl; rewrite ?IH; done. }
  rewrite Happ. lia.
Qed.

Lemma grows_weaken n m w w' : (n <= m)%nat -> grows n w w' -> grows m w w'.
Proof. intros Hle (evs & H & C). exists evs. split; [done | lia]. Qed.

Lemma grows_emit ev w :
  grows (match ev with EvCall _ _ => 1 | _ => 0 end) w (emit ev w).
Proof. exists [ev]. split; [done|]. destruct ev; simpl; lia. Qed.

Lemma ret_grows {A} (a : A) w : grows 0 w (fst (Tx.ret a w)).
Proof. apply grows_refl. Qed.

Lemma raise_grows {A} e w : grows 0 w (fst (@Tx.raise A e w)).
Proof. apply grows_refl. Qed.

Lemma lift_grows {A} (r : res A) w : grows 0 w (fst (lift r w)).
Proof. destruct r; apply grows_refl. Qed.

Lemma bind_grows {A B} n m (ma : M A) (f : A -> M B) w :
  grows n w (fst (ma w)) ->
  (forall a w1, grows m w1 (fst (f a w1))) ->
  grows (n + m) w (fst (Tx.bind ma f w)).
Proof.
  intros Ha Hf. unfold Tx.bind. destruct (ma w) as [w1 [a|e|]]; simpl in Ha.
  - by eapply grows_trans.
  - apply (grows_weaken n); [lia | done].
  - apply (grows_weaken n); [lia | done].
Qed.

Lemma try_except_grows {A} n m (body : M A) (handler : exn -> M A) w :
  grows n w (fst (body w)) ->
  (forall e w1, grows m w1 (fst (handler e w1))) ->
  grows (n + m) w (fst (try_except body handler w)).
Proof.
  intros Hb Hh. unfold try_except. destruct (body w) as [w1 [a|e|]]; simpl in Hb.
  - apply (grows_weaken n); [lia | done].
  - by eapply grows_trans.
  - apply (grows_weaken n); [lia | done].
Qed.

Lemma log_err_grows msg w : grows 0 w (fst (log_err msg w)).
Proof. apply (grows_emit (EvLogErr msg)). Qed.

Lemma log_msg_grows msg w : grows 0 w (fst (log_msg msg w)).
Proof. apply (grows_emit (EvLogMsg msg)). Qed.

Lemma request_grows ev run w :
  match ev with EvCall _ _ => False | _ => True end ->
  grows 0 w (fst (request ev run w)).
Proof.
  intros Hev. unfold request, take_fault. simpl.
  assert (grows 0 w (emit ev w)) as H by (pose proof (grows_emit ev w); by destruct ev).
  destruct (hd None (faults w)); [exact H|].
  by destruct (run (server w)) as [s' [r|msg]].
Qed.

Lemma brpoplpush_grows src dst timeout w :
  grows 0 w (fst (brpoplpush src dst timeout w)).
Proof.
  unfold brpoplpush, take_fault. simpl.
  assert (grows 0 w (emit (EvBrpoplpush src dst timeout) w)) as H
    by apply (grows_emit (EvBrpoplpush src dst timeout)).
  destruct (hd None (faults w)); [exact H|].
  destruct (timeout <? 0); [exact H|].
  destruct (rpoplpush src dst (server w)) as [s' [[z|x| |l]|msg]]; try exact H.
  destruct (incoming w) as [[t m]|].
  - by destruct (_ || _).
  - by destruct (_ =? 0).
Qed.

Variable c : closure.
Variables lock_key value_key : string.

Lemma except_skip_grows {A} n m (body handler : M A) w :
  grows n w (fst (body w)) ->
  (forall w1, grows m w1 (fst (handler w1))) ->
  grows (n + m) w (fst (except_skip c body handler w)).
Proof.
  intros Hb Hh. apply try_except_grows; [done|].
  intros e w1. destruct (exn_isinstance e _); [apply Hh|].
  apply (grows_weaken 0); [lia | apply raise_grows].
Qed.

Lemma acquire_grows w :
  grows 0 w (fst (get_lock_or_cached_value c lock_key value_key w)).
Proof.
  unfold get_lock_or_cached_value.
  apply (bind_grows 0 0).
  - apply (except_skip_grows 0 0).
    + apply (bind_grows 0 0); [by apply request_grows|].
      intros r w1. unfold unpack2. repeat case_match; apply grows_refl.
    + intros w1. apply (bind_grows 0 0); [apply log_err_grows|].
      intros _ w2. apply ret_grows.
  - intros r w1. apply (bind_grows 0 0).
    + unfold bool_int. repeat case_match; apply grows_refl.
    + intros own w2. apply ret_grows.
Qed.

Lemma notify_grows w :
  grows 0 w (fst (notify_waiters_and_release_lock c lock_key value_key w)).
Proof.
  unfold notify_waiters_and_release_lock, eval.
  pose proof (request_grows
                (EvEval PUSH_AND_DELETE_SCRIPT [value_key; lock_key] [EMPTY_JSON_MSG c])
                (lua PUSH_AND_DELETE_SCRIPT [value_key; lock_key] [EMPTY_JSON_MSG c]) w I)
    as H.
  destruct (request _ _ w) as [w1 [r|e|]]; simpl in H; [| |done].
  - apply (grows_trans 0 0 w w1); [done|]. apply (grows_emit (EvLogMsg _)).
  - apply (grows_trans 0 0 w w1); [done|]. apply (grows_emit (EvLogErr _)).
Qed.

Lemma cache_value_grows v w :
  grows 0 w (fst (cache_value c lock_key value_key v w)).
Proof.
  unfold cache_value, Tx.bind, lift.
  destruct (json_encode_func c _) as [msg|e]; [|apply grows_refl].
  unfold Tx.ret. cbv beta iota zeta.
  assert (forall ev run, match ev with EvCall _ _ => False | _ => True end ->
            grows 0 w (fst (let (w', o) := request ev run w in
                            match o with
                            | Ret result =>
                                log_msg ("cache_value(): redis response: " +:+ repr result) w'
                            | Raise e =>
                                if exn_isinstance e (skip_cache_on c)
                                then log_skip value_key "cache_value" w'
                                else (w', Raise e)
                            | Pending => (w', Pending)
                            end))) as Hreq.
  { intros ev run Hev. pose proof (request_grows ev run w Hev) as H.
    destruct (request ev run w) as [w1 [r|e|]]; simpl in H; [| |done].
    - apply (grows_trans 0 0 w w1); [done|]. apply (grows_emit (EvLogMsg _)).
    - destruct (exn_isinstance e _); [|done].
      apply (grows_trans 0 0 w w1); [done|]. apply (grows_emit (EvLogErr _)). }
  destruct (truthy (ttl c)); [unfold eval|unfold rpush]; by apply Hreq.
Qed.

Lemma call_func_grows args kwargs w :
  grows 1 w (fst (call_func c args kwargs w)).
Proof. rewrite call_func_run. apply (grows_emit (EvCall args kwargs)). Qed.

Lemma on_owned_grows args kwargs w :
  grows 1 w (fst (on_owned c lock_key value_key args kwargs w)).
Proof.
  rewrite on_owned_outcome.
  destruct (func c args kwargs) as [v|e]; cbn [fst].
  - apply (grows_trans 1 0 w (emit (EvCall args kwargs) w));
      [apply (grows_emit (EvCall args kwargs)) | apply cache_value_grows].
  - apply (grows_trans 1 0 w (emit (EvCall args kwargs) w));
      [apply (grows_emit (EvCall args kwargs)) | apply notify_grows].
Qed.

Lemma wait_grows w : grows 0 w (fst (wait_for_cached_value c value_key w)).
Proof.
  unfold wait_for_cached_value. apply (bind_grows 0 0).
  - apply (except_skip_grows 0 0); [apply brpoplpush_grows|].
    intros w1. apply (bind_grows 0 0); [apply log_err_grows|].
    intros _ w2. apply ret_grows.
  - intros j w1. apply ret_grows.
Qed.

Lemma on_denied_grows j args kwargs w :
  grows 1 w (fst (on_denied c value_key j args kwargs w)).
Proof.
  assert (forall j' w1, is_none j' = false ->
            grows 1 w1 (fst (on_denied c value_key j' args kwargs w1))) as Hmsg.
  { intros j' w1 Hj. unfold on_denied, Tx.bind, lift, get_content. rewrite Hj.
    unfold Tx.ret. destruct (json_decode_func c j') as [msg|e]; [|apply grows_refl].
    unfold Tx.raise. destruct msg; try apply grows_refl.
    destruct (Json.dict_get "content" items); [apply grows_refl|].
    unfold SENTINEL. apply call_func_grows. }
  destruct (is_none j) eqn:Hj; [|by apply Hmsg].
  destruct j; try done. rewrite on_denied_waits.
  pose proof (wait_grows w) as H.
  destruct (wait_for_cached_value c value_key w) as [w1 [j'|e|]] eqn:Hw; simpl in H.
  - apply (grows_trans 0 1 w w1); [done|]. apply Hmsg. by eapply wait_never_none.
  - apply (grows_weaken 0 1); [lia | done].
  - apply (grows_weaken 0 1); [lia | done].
Qed.

(** One run of the protocol calls the wrapped computation at most once. *)
Lemma compute_or_fetch_calls_once args kwargs w :
  (count_calls (trace (fst (compute_or_fetch c lock_key value_key args kwargs w)))
   <= S (count_calls (trace w)))%nat.
Proof.
  assert (grows 1 w (fst (compute_or_fetch c lock_key value_key args kwargs w)))
    as (evs & -> & Hc).
  { unfold compute_or_fetch, Tx.bind. pose proof (acquire_grows w) as H.
    destruct (get_lock_or_cached_value c lock_key value_key w) as [w1 [[own j]|e|]];
      simpl in H.
    - apply (grows_trans 0 1 w w1); [done|]. cbn [fst snd].
      destruct own; [apply on_owned_grows | apply on_denied_grows].
    - apply (grows_weaken 0 1); [lia | done].
    - apply (grows_weaken 0 1); [lia | done]. }
  assert (forall a b, count_calls (a ++ b) = (count_calls a + count_calls b)%nat) as Happ.
  { induction a as [|[] a IH]; intros b; simpl; rewrite ?IH; done. }
  rewrite Happ. lia.
Qed.

End CallsOnce.

(* ===================================================================== *)
(** * The local waiters                                                    *)
(* ===================================================================== *)

Section LocalWaiters.
Import Py Tx Core Local.

Variable c : closure.

Lemma wrapper_master args kwargs p :
  local_waiters p !! keymaker c args kwargs = None ->
  wrapper c args kwargs p
  = (Process (<[keymaker c args kwargs := mkWaiters (length (attempts p)) [length (deferreds p)]]>
                (local_waiters p))
             (deferreds p ++ [None])
             (attempts p ++ [(keymaker c args kwargs, (args, kwargs))]) (fired p),
     length (deferreds p)).
Proof. intros H. unfold wrapper. by rewrite H. Qed.

Lemma wrapper_slave args kwargs p m sl :
  local_waiters p !! keymaker c args kwargs = Some (mkWaiters m sl) ->
  wrapper c args kwargs p
  = (Process (<[keymaker c args kwargs := mkWaiters m (sl ++ [length (deferreds p)])]>
                (local_waiters p))
             (deferreds p ++ [None]) (attempts p) (fired p),
     length (deferreds p)).
Proof. intros H. unfold wrapper. by rewrite H. Qed.

(** Calls that find their key waited for only join the slaves. *)
Lemma burst_slaves calls : forall p k m sl,
  local_waiters p !! k = Some (mkWaiters m sl) ->
  Forall (fun call => keymaker c (fst call) (snd call) = k) calls ->
  let ds := seq (length (deferreds p)) (length calls) in
  burst c calls p
  = (Process (<[k := mkWaiters m (sl ++ ds)]> (local_waiters p))
             (deferreds p ++ replicate (length calls) None) (attempts p) (fired p),
     ds).
Proof.
  induction calls as [|[args kwargs] calls IH]; intros p k m sl Hk Hall ds; subst ds.
  - simpl. rewrite !app_nil_r. rewrite insert_id by done. by destruct p.
  - apply Forall_cons in Hall as [Hkey Hall]. simpl in Hkey. subst k.
    cbn [burst]. rewrite (wrapper_slave _ _ _ m sl Hk).
    rewrite (IH _ (keymaker c args kwargs) m (sl ++ [length (deferreds p)]));
      [|by simpl; rewrite lookup_insert_eq|done].
    cbn [deferreds local_waiters attempts fired length seq].
    rewrite insert_insert_eq, length_app, Nat.add_1_r.
    by rewrite <- !app_assoc.
Qed.

(** Firing the Deferreds [a, a+1, ...], none of them called before. *)
Lemma fire_all m o n : forall pre lw at_ fi,
  foldl (fun q d => if called d q then q else fire d m o q)
        (Process lw (pre ++ replicate n None) at_ fi) (seq (length pre) n)
  = Process lw (pre ++ replicate n (Some (m, o))) at_ (fi ++ seq (length pre) n).
Proof.
  induction n as [|n IH]; intros pre lw at_ fi.
  - simpl. by rewrite !app_nil_r.
  - cbn [seq foldl replicate]. unfold called at 2. cbn [deferreds].
    rewrite list_lookup_middle by done. unfold fire. cbn [deferreds local_waiters attempts fired].
    rewrite insert_app_r_alt by done. rewrite Nat.sub_diag. simpl insert.
    rewrite (cons_middle (Some (m, o)) pre), app_assoc.
    replace (S (length pre)) with (length (pre ++ [Some (m, o)]))
      by (rewrite length_app; simpl; lia).
    rewrite IH. by rewrite <- !app_assoc.
Qed.

(** C1. Calls with the same key arrive while no attempt for the key is in
    flight.  The first starts the one master attempt; the others only join
    the slaves, in order.  When the master ends, with a value or with an
    error, the entry of the key is removed and every caller's Deferred is
    fired with that same outcome, in the order the callers came; the store
    is gone through once, by the master, whose run calls the computation at
    most once; and the next caller with the key starts a new attempt. *)
Theorem local_coalescing (p : process) (k : option string) (first : call_t)
    (rest : list call_t) (o : res pyval) :
  local_waiters p !! k = None ->
  Forall (fun call => keymaker c (fst call) (snd call) = k) (first :: rest) ->
  let calls := first :: rest in
  let p1 := fst (burst c calls p) in
  let ds := snd (burst c calls p) in
  let p2 := master_fires o k p1 in
  ds = seq (length (deferreds p)) (length calls) /\
  attempts p1 = attempts p ++ [(k, first)] /\
  local_waiters p1 !! k = Some (mkWaiters (length (attempts p)) ds) /\
  fired p1 = fired p /\
  local_waiters p2 !! k = None /\
  fired p2 = fired p ++ ds /\
  deferreds p2 = deferreds p ++ replicate (length calls) (Some (method_of o, o)) /\
  attempts p2 = attempts p1 /\
  (forall w,
     snd (complete c (length (attempts p)) (p1, w))
     = fst (get_computed_or_redis_value c k (fst first) (snd first) w) /\
     (count_calls (trace (snd (complete c (length (attempts p)) (p1, w))))
      <= S (count_calls (trace w)))%nat /\
     match snd (get_computed_or_redis_value c k (fst first) (snd first) w) with
     | Ret v => fst (complete c (length (attempts p)) (p1, w)) = master_fires (Ok v) k p1
     | Raise e => fst (complete c (length (attempts p)) (p1, w)) = master_fires (Err e) k p1
     | Pending => fst (complete c (length (attempts p)) (p1, w)) = p1
     end) /\
  (forall args kwargs, keymaker c args kwargs = k ->
     attempts (fst (wrapper c args kwargs p2)) = attempts p2 ++ [(k, (args, kwargs))]).
Proof.
  intros Hk Hall calls p1 ds p2.
  destruct first as [args0 kwargs0].
  apply Forall_cons in Hall as [Hk0 Hall]. simpl in Hk0.
  assert (burst c calls p
          = (Process (<[k := mkWaiters (length (attempts p))
                                (seq (length (deferreds p)) (length calls))]>
                        (local_waiters p))
                     (deferreds p ++ replicate (length calls) None)
                     (attempts p ++ [(k, (args0, kwargs0))]) (fired p),
             seq (length (deferreds p)) (length calls))) as Hb.
  { subst calls. cbn [burst]. rewrite wrapper_master by (by rewrite Hk0). rewrite Hk0.
    rewrite (burst_slaves rest _ k (length (attempts p)) [length (deferreds p)]);
      [|by simpl; rewrite lookup_insert_eq|done].
    cbn [deferreds local_waiters attempts fired length seq].
    rewrite insert_insert_eq, length_app, Nat.add_1_r.
    by rewrite <- !app_assoc. }
  assert (p2 = Process (delete k (local_waiters p))
                       (deferreds p ++ replicate (length calls) (Some (method_of o, o)))
                       (attempts p ++ [(k, (args0, kwargs0))])
                       (fired p ++ seq (length (deferreds p)) (length calls))) as Hp2.
  { subst p2 p1. rewrite Hb. cbn [fst].
    assert (forall m, run_local_waiters o m k
                        (Process (<[k := mkWaiters (length (attempts p))
                                           (seq (length (deferreds p)) (length calls))]>
                                    (local_waiters p))
                                 (deferreds p ++ replicate (length calls) None)
                                 (attempts p ++ [(k, (args0, kwargs0))]) (fired p))
                      = Process (delete k (local_waiters p))
                          (deferreds p ++ replicate (length calls) (Some (m, o)))
                          (attempts p ++ [(k, (args0, kwargs0))])
                          (fired p ++ seq (length (deferreds p)) (length calls))) as Hrun.
    { intros m. unfold run_local_waiters. cbn [local_waiters deferreds attempts fired].
      rewrite lookup_insert_eq. cbn [slaves]. rewrite delete_insert_eq.
      apply fire_all. }
    unfold master_fires. destruct o; apply Hrun. }
  subst p1 ds. rewrite Hb. cbn [fst snd].
  split; [done|]. split; [done|]. split; [by simpl; rewrite lookup_insert_eq|].
  split; [done|]. rewrite Hp2. cbn [local_waiters fired deferreds attempts].
  split; [apply lookup_delete_eq|]. split; [done|]. split; [done|]. split; [done|].
  split.
  - intros w. unfold complete. cbn [attempts].
    rewrite list_lookup_middle by done.
    pose proof (compute_or_fetch_calls_once c (make_lock_key c k) (make_value_key c k)
                  args0 kwargs0 w) as Honce.
    fold (get_computed_or_redis_value c k args0 kwargs0) in Honce. cbn [fst snd].
    by destruct (get_computed_or_redis_value c k args0 kwargs0 w) as [w' [v|e|]].
  - intros args kwargs Hkey. rewrite wrapper_master.
    + simpl. by rewrite Hkey.
    + simpl. rewrite Hkey. apply lookup_delete_eq.
Qed.

End LocalWaiters.

(** Three calls of [double(21)] in one burst, the master ending with 42:
    the three Deferreds fire in the order of the calls. *)
Lemma local_coalescing_witness :
  Local.fired
    (Local.master_fires (Py.Ok (Py.PInt 42)) (Some "(21,)")
       (fst (Local.burst (Demo.closure_with Py.PNone (Py.PInt 5))
               [([Py.PInt 21], []); ([Py.PInt 21], []); ([Py.PInt 21], [])]
               Local.empty_process)))
  = [0; 1; 2]%nat /\
  Local.attempts
    (fst (Local.burst (Demo.closure_with Py.PNone (Py.PInt 5))
            [([Py.PInt 21], []); ([Py.PInt 21], []); ([Py.PInt 21], [])]
            Local.empty_process))
  = [(Some "(21,)", ([Py.PInt 21], []))].
Proof.
  destruct (local_coalescing (Demo.closure_with Py.PNone (Py.PInt 5))
              Local.empty_process (Some "(21,)") ([Py.PInt 21], [])
              [([Py.PInt 21], []); ([Py.PInt 21], [])] (Py.Ok (Py.PInt 42)))
    as (Hds & Hatt & _ & _ & _ & Hfired & _).
  - reflexivity.
  - repeat constructor.
  - split.
    + etransitivity; [apply Hfired|]. etransitivity; [apply (f_equal _ Hds)|]. reflexivity.
    + etransitivity; [apply Hatt|]. reflexivity.
Defined.

(* ===================================================================== *)
(** * The two keys of an entry                                             *)
(* ===================================================================== *)

Section Keys.
Import Py Core.

Lemma string_append_assoc (s t u : string) : (s +:+ t) +:+ u = s +:+ (t +:+ u).
Proof.
  induction s as [|a s IH]; [done|].
  change (String a ((s +:+ t) +:+ u) = String a (s +:+ (t +:+ u))). by rewrite IH.
Qed.

Lemma string_append_cancel_r (s1 s2 t : string) : s1 +:+ t = s2 +:+ t -> s1 = s2.
Proof.
  intros H.
  assert (String.length s1 = String.length s2) as Hlen.
  { apply (f_equal String.length) in H. rewrite !append_length in H. lia. }
  revert s2 H Hlen. induction s1 as [|a s1 IH]; intros [|b s2] H Hlen; simpl in *;
    try done.
  injection H as -> H. f_equal. apply IH; [done | lia].
Qed.

(** The prefixes differ, so the lock key and the value key of an entry are
    never the same key. *)
Lemma async_cache_keys_differ o uuid c key :
  async_cache o uuid = Ok (Wrapper c) -> make_lock_key c key <> make_value_key c key.
Proof.
  intros H. unfold async_cache in H.
  repeat match type of H with
         | (if ?b then Err _ else _) = Ok _ => destruct b eqn:?; [done|]
         end.
  destruct (o_func o); [|done].
  destruct (if is_none (o_namespace o) then _ else _) as [ns|]; [|done].
  destruct (match o_json_encode_func o with HCallable e => e | _ => Json.dumps end _);
    [|done].
  injection H as <-.
  assert (text (o_lock_key_prefix o) <> text (o_value_key_prefix o)) as Hne
    by (by apply String.eqb_neq).
  unfold make_lock_key, make_value_key. simpl. intros Heq. apply Hne.
  destruct key as [k|].
  - rewrite !string_append_assoc in Heq. by apply string_append_cancel_r in Heq.
  - by apply string_append_cancel_r in Heq.
Qed.

End Keys.

(* ********************************************************************* *)
(** * Part III: further properties of the code                             *)
(* ********************************************************************* *)

(* ===================================================================== *)
(** * The keys of the entries                                              *)
(* ===================================================================== *)

Section EntryKeys.
Import Py Core Notions.

Lemma string_append_cancel_l (s a b : string) : s +:+ a = s +:+ b -> a = b.
Proof.
  induction s as [|x s IH]; [done|].
  change (String x (s +:+ a) = String x (s +:+ b) -> a = b). intros [= H]. by apply IH.
Qed.

Lemma string_append_nil_inv (s t : string) : s +:+ t = s -> t = EmptyString.
Proof.
  intros H. apply (f_equal String.length) in H. rewrite append_length in H.
  destruct t; [done | simpl in H; lia].
Qed.

Lemma string_append_empty (s t : string) : s +:+ t = EmptyString -> s = EmptyString.
Proof. by destruct s. Qed.

(** What a wrapper closes over, read off the options. *)
Lemma async_cache_wrapper o uuid c :
  async_cache o uuid = Ok (Wrapper c) ->
  acceptable o /\
  exists f ns,
    o_func o = Some f /\ namespace_of o f = Ok ns /\
    encoder_of o (PDict []) = Ok (EMPTY_JSON_MSG c) /\
    func c = body f /\ ttl c = o_ttl o /\
    max_wait c = (if is_none (o_max_wait o) then PInt 0 else o_max_wait o) /\
    json_encode_func c = encoder_of o /\
    json_decode_func c
    = match o_json_decode_func o with HCallable d => d | _ => json_loads end /\
    key_sep c = text (o_key_sep o) /\
    lock_key_base c = text (o_lock_key_prefix o) +:+ text (o_key_sep o) +:+ ns /\
    value_key_base c = text (o_value_key_prefix o) +:+ text (o_key_sep o) +:+ ns.
Proof.
  intros H. unfold async_cache in H.
  repeat match type of H with
         | (if ?b then Err _ else _) = Ok _ => destruct b eqn:?; [done|]
         end.
  split.
  - unfold acceptable, well_typed.
    split; [by apply ttl_checks_valid|]. split; [by apply max_wait_checks_valid|].
    split; [|by apply String.eqb_neq].
    repeat match goal with
           | Hb : negb ?b = false |- _ => apply negb_false_iff in Hb
           end.
    repeat split; try done.
    intros v Hv. by rewrite Hv in *.
  - destruct (o_func o) as [f|]; [|done]. unfold namespace_of, encoder_of.
    destruct (if is_none (o_namespace o) then _ else _) as [ns|] eqn:Hns; [|done].
    destruct (match o_json_encode_func o with HCallable e => e | _ => Json.dumps end _)
      as [em|] eqn:He; [|done].
    injection H as <-. exists f, ns. simpl. repeat split; done.
Qed.

(** X1. [async_cache] returns something other than an error exactly when
    every check passes and, if a function is given, its namespace can be
    told and the encoding hook encodes the empty dict; without a function
    it returns the partial application, with one the wrapper. *)
Theorem async_cache_accepts_exactly (o : options) (uuid : string) :
  (acceptable o -> o_func o = None -> async_cache o uuid = Ok (Partial o)) /\
  (forall f ns e, acceptable o -> o_func o = Some f -> namespace_of o f = Ok ns ->
     encoder_of o (PDict []) = Ok e ->
     exists c, async_cache o uuid = Ok (Wrapper c) /\ EMPTY_JSON_MSG c = e /\
               lock_key_base c = text (o_lock_key_prefix o) +:+ text (o_key_sep o) +:+ ns) /\
  (forall d, async_cache o uuid = Ok d ->
     acceptable o /\
     match d with
     | Partial o' => o' = o /\ o_func o = None
     | Wrapper c => exists f ns, o_func o = Some f /\ namespace_of o f = Ok ns /\
                                 encoder_of o (PDict []) = Ok (EMPTY_JSON_MSG c)
     end).
Proof.
  assert (acceptable o ->
          async_cache o uuid
          = match o_func o with
            | None => Ok (Partial o)
            | Some f =>
                match namespace_of o f with
                | Err e => Err e
                | Ok ns =>
                    match encoder_of o (PDict []) with
                    | Err e => Err e
                    | Ok em =>
                        Ok (Wrapper
                              (Closure (body f) (o_ttl o)
                                 (if is_none (o_max_wait o) then PInt 0 else o_max_wait o)
                                 (match o_keymaker o with
                                  | HCallable k => k | _ => Utils.make_key end)
                                 (match o_skip_cache_on o with
                                  | SkipClass c => [c]
                                  | SkipTuple cs => cs
                                  | _ => ["ConnectionError"]
                                  end)
                                 (encoder_of o)
                                 (match o_json_decode_func o with
                                  | HCallable d => d | _ => json_loads end)
                                 (if is_none (o_id_tag o) then ns +:+ "." +:+ uuid
                                  else text (o_id_tag o))
                                 (text (o_key_sep o))
                                 (text (o_lock_key_prefix o) +:+ text (o_key_sep o) +:+ ns)
                                 (text (o_value_key_prefix o) +:+ text (o_key_sep o) +:+ ns)
                                 em))
                    end
                end
            end) as Hrun.
  { intros ([Ht1 Ht2]%ttl_valid_checks & [Hm1 Hm2]%max_wait_valid_checks
            & (Hk & Hs & Hn & He & Hd & Hi & Hsep & Hl & Hv) & Hne).
    unfold async_cache.
    rewrite Ht1, Ht2, Hm1, Hm2, Hk, Hn, He, Hd, Hi, Hsep, Hl, Hv. simpl.
    apply String.eqb_neq in Hne. rewrite Hne.
    assert (match o_skip_cache_on o with SkipOther _ => true | _ => false end = false)
      as -> by (destruct (o_skip_cache_on o) as [| | |v]; try done; by destruct (Hs v)).
    done. }
  split; [|split].
  - intros Ha Hf. by rewrite (Hrun Ha), Hf.
  - intros f ns e Ha Hf Hns He. rewrite (Hrun Ha), Hf, Hns, He. eauto.
  - intros d Hd. destruct d as [o'|c].
    + assert (acceptable o) as Ha.
      { unfold async_cache in Hd.
        repeat match type of Hd with
               | (if ?b then Err _ else _) = Ok _ => destruct b eqn:?; [done|]
               end.
        unfold acceptable, well_typed.
        split; [by apply ttl_checks_valid|]. split; [by apply max_wait_checks_valid|].
        split; [|by apply String.eqb_neq].
        repeat match goal with
               | Hb : negb ?b = false |- _ => apply negb_false_iff in Hb
               end.
        repeat split; try done. intros v Hv. by rewrite Hv in *. }
      split; [done|]. rewrite (Hrun Ha) in Hd.
      destruct (o_func o) as [f|]; [|by injection Hd as <-].
      destruct (namespace_of o f); [|done]. by destruct (encoder_of o (PDict [])).
    + destruct (async_cache_wrapper o uuid c Hd) as (Ha & f & ns & Hf & Hns & He & _).
      split; [done|]. eauto.
Qed.

End EntryKeys.

(** [async_cache()] with the defaults of the signature hands back the
    partial application. *)
Lemma async_cache_accepts_exactly_witness :
  Core.async_cache Core.default_options "u" = Py.Ok (Core.Partial Core.default_options).
Proof.
  apply (async_cache_accepts_exactly Core.default_options "u").
  - split; [by left|]. split; [by left|]. split; [|discriminate].
    unfold Core.well_typed. simpl. repeat split; discriminate.
  - reflexivity.
Defined.

Section EntryKeysMore.
Import Py Core Notions.

Lemma make_key_injective_lock c k1 k2 :
  key_sep c <> EmptyString -> make_lock_key c k1 = make_lock_key c k2 -> k1 = k2.
Proof.
  intros Hsep. unfold make_lock_key. destruct k1 as [a|], k2 as [b|]; intros H.
  - by do 2 apply string_append_cancel_l in H as H; subst.
  - apply string_append_nil_inv, string_append_empty in H. done.
  - symmetry in H. apply string_append_nil_inv, string_append_empty in H. done.
  - done.
Qed.

Lemma make_key_injective_value c k1 k2 :
  key_sep c <> EmptyString -> make_value_key c k1 = make_value_key c k2 -> k1 = k2.
Proof.
  intros Hsep. unfold make_value_key. destruct k1 as [a|], k2 as [b|]; intros H.
  - by do 2 apply string_append_cancel_l in H as H; subst.
  - apply string_append_nil_inv, string_append_empty in H. done.
  - symmetry in H. apply string_append_nil_inv, string_append_empty in H. done.
  - done.
Qed.

(** X2. In a wrapper made by [async_cache], the lock key and the value key
    built for a call are never the same key; and when the separator is not
    empty, calls with different entry keys (a missing one included) get
    different lock keys and different value keys. *)
Theorem entry_keys_apart (o : options) (uuid : string) (c : closure) :
  async_cache o uuid = Ok (Wrapper c) ->
  (forall k, make_lock_key c k <> make_value_key c k) /\
  (key_sep c <> EmptyString ->
   forall k1 k2, k1 <> k2 ->
     make_lock_key c k1 <> make_lock_key c k2 /\
     make_value_key c k1 <> make_value_key c k2).
Proof.
  intros H. split.
  - intros k. by eapply async_cache_keys_differ.
  - intros Hsep k1 k2 Hne. split; intros Heq; apply Hne.
    + by eapply make_key_injective_lock.
    + by eapply make_key_injective_value.
Qed.

(** X3. With the default prefixes, no lock key of any wrapper is the value
    key of any wrapper, whatever the namespaces, the separators and the
    entry keys. *)
Theorem default_prefixes_disjoint (o1 o2 : options) (u1 u2 : string) (c1 c2 : closure)
    (k1 k2 : option string) :
  async_cache o1 u1 = Ok (Wrapper c1) ->
  async_cache o2 u2 = Ok (Wrapper c2) ->
  o_lock_key_prefix o1 = PStr "L" ->
  o_value_key_prefix o2 = PStr "V" ->
  make_lock_key c1 k1 <> make_value_key c2 k2.
Proof.
  intros H1 H2 Hl Hv.
  destruct (async_cache_wrapper o1 u1 c1 H1) as (_ & f1 & ns1 & _ & _ & _ & _ & _ & _ & _ & _ & _ & Hlk & _).
  destruct (async_cache_wrapper o2 u2 c2 H2) as (_ & f2 & ns2 & _ & _ & _ & _ & _ & _ & _ & _ & _ & _ & Hvk).
  rewrite Hl in Hlk. rewrite Hv in Hvk. simpl in Hlk, Hvk.
  intros Heq. apply (f_equal first_char) in Heq.
  unfold make_lock_key, make_value_key in Heq. rewrite Hlk, Hvk in Heq.
  destruct k1, k2; cbv [first_char String.append] in Heq; discriminate.
Qed.

End EntryKeysMore.

(** [async_cache(double, id_tag='demo.1')]: the keys of [double(21)] and
    of [double(22)]. *)
Lemma entry_keys_apart_witness :
  Core.make_lock_key (Demo.closure_with Py.PNone Py.PNone) (Some "(21,)")
  <> Core.make_value_key (Demo.closure_with Py.PNone Py.PNone) (Some "(21,)").
Proof.
  apply (entry_keys_apart (Demo.options_with Py.PNone Py.PNone) "u"
           (Demo.closure_with Py.PNone Py.PNone)).
  reflexivity.
Defined.

Lemma default_prefixes_disjoint_witness :
  Core.make_lock_key (Demo.closure_with Py.PNone Py.PNone) (Some "(21,)")
  <> Core.make_value_key (Demo.closure_with (Py.PInt 60) Py.PNone) None.
Proof.
  apply (default_prefixes_disjoint
           (Demo.options_with Py.PNone Py.PNone) (Demo.options_with (Py.PInt 60) Py.PNone)
           "u" "v" (Demo.closure_with Py.PNone Py.PNone)
           (Demo.closure_with (Py.PInt 60) Py.PNone)); reflexivity.
Defined.

(* ===================================================================== *)
(** * Later calls on an entry                                              *)
(* ===================================================================== *)

Section LaterCalls.
Import Py Redis Scripts Tx Core Notions.

Lemma lookup_advance k s dt :
  lookup k (advance dt s)
  = match db s !! k with
    | Some e => if expired (now s + dt) e then None else Some e
    | None => None
    end.
Proof. reflexivity. Qed.

Lemma lookup_advance_none k s dt : 0 <= dt -> lookup k s = None -> lookup k (advance dt s) = None.
Proof.
  intros Hdt. rewrite lookup_advance. unfold lookup.
  destruct (db s !! k) as [e|]; [|done]. unfold expired.
  destruct (expire_at e) as [at_|]; [|done].
  destruct (Z.leb_spec at_ (now s)); [|done]. intros _.
  by replace (at_ <=? now s + dt) with true by (symmetry; apply Z.leb_le; lia).
Qed.

Variables c c' : closure.
Variables lock_key value_key : string.
Hypothesis keys_differ : lock_key <> value_key.





End LaterCalls.



(* ===================================================================== *)
(** * What a denied caller does to the store                               *)
(* ===================================================================== *)

Section Extends.
Import Py Redis Scripts Tx Core Notions.

Variable P : event -> Prop.

Lemma extends_refl w : extends P w w.
Proof. exists []. by rewrite app_nil_r. Qed.

Lemma extends_trans w1 w2 w3 : extends P w1 w2 -> extends P w2 w3 -> extends P w1 w3.
Proof.
  intros (e1 & H1 & F1) (e2 & H2 & F2). exists (e1 ++ e2).
  rewrite H2, H1, <- app_assoc. split; [done|]. by apply Forall_app.
Qed.

Lemma extends_emit ev w : P ev -> extends P w (emit ev w).
Proof. intros H. exists [ev]. split; [done|]. by constructor. Qed.

Lemma bind_extends {A B} (ma : M A) (f : A -> M B) w :
  extends P w (fst (ma w)) ->
  (forall a w1, extends P w1 (fst (f a w1))) ->
  extends P w (fst (Tx.bind ma f w)).
Proof.
  intros Ha Hf. unfold Tx.bind. destruct (ma w) as [w1 [a|e|]]; simpl in Ha; try done.
  by eapply extends_trans.
Qed.

Lemma try_except_extends {A} (body : M A) (handler : exn -> M A) w :
  extends P w (fst (body w)) ->
  (forall e w1, extends P w1 (fst (handler e w1))) ->
  extends P w (fst (try_except body handler w)).
Proof.
  intros Hb Hh. unfold try_except. destruct (body w) as [w1 [a|e|]]; simpl in Hb; try done.
  by eapply extends_trans.
Qed.

Lemma request_extends ev run w : P ev -> extends P w (fst (request ev run w)).
Proof.
  intros Hev. unfold request, take_fault. simpl. pose proof (extends_emit ev w Hev) as H.
  destruct (hd None (faults w)); [exact H|].
  by destruct (run (server w)) as [s' [r|msg]].
Qed.

Lemma brpoplpush_extends src dst timeout w :
  P (EvBrpoplpush src dst timeout) -> extends P w (fst (brpoplpush src dst timeout w)).
Proof.
  intros Hev. unfold brpoplpush, take_fault. simpl.
  pose proof (extends_emit _ w Hev) as H.
  destruct (hd None (faults w)); [exact H|].
  destruct (timeout <? 0); [exact H|].
  destruct (rpoplpush src dst (server w)) as [s' [[z|x| |l]|msg]]; try exact H.
  destruct (incoming w) as [[t m]|].
  - by destruct (_ || _).
  - by destruct (_ =? 0).
Qed.

Variable c : closure.
Variables lock_key value_key : string.

Hypothesis P_log : forall msg, P (EvLogErr msg).

Lemma except_skip_extends {A} (body handler : M A) w :
  extends P w (fst (body w)) ->
  (forall w1, extends P w1 (fst (handler w1))) ->
  extends P w (fst (except_skip c body handler w)).
Proof.
  intros Hb Hh. apply try_except_extends; [done|].
  intros e w1. destruct (exn_isinstance e _); [apply Hh | apply extends_refl].
Qed.

Lemma log_skip_extends name w : extends P w (fst (log_skip value_key name w)).
Proof. apply extends_emit, P_log. Qed.

Lemma acquire_extends w :
  P (EvEval GET_SCRIPT [lock_key; value_key] [id_tag c]) ->
  extends P w (fst (get_lock_or_cached_value c lock_key value_key w)).
Proof.
  intros Hacq. unfold get_lock_or_cached_value.
  apply bind_extends.
  - apply except_skip_extends.
    + apply bind_extends; [by apply request_extends|].
      intros r w1. unfold unpack2. repeat case_match; apply extends_refl.
    + intros w1. apply bind_extends; [apply log_skip_extends|].
      intros _ w2. apply extends_refl.
  - intros r w1. apply bind_extends.
    + unfold bool_int. repeat case_match; apply extends_refl.
    + intros own w2. apply extends_refl.
Qed.

Lemma wait_extends w :
  P (EvBrpoplpush value_key value_key (int_value (max_wait c))) ->
  extends P w (fst (wait_for_cached_value c value_key w)).
Proof.
  intros Hev. unfold wait_for_cached_value. apply bind_extends.
  - apply except_skip_extends; [by apply brpoplpush_extends|].
    intros w1. apply bind_extends; [apply log_skip_extends|].
    intros _ w2. apply extends_refl.
  - intros j w1. apply extends_refl.
Qed.

Lemma on_denied_extends j args kwargs w :
  P (EvBrpoplpush value_key value_key (int_value (max_wait c))) ->
  P (EvCall args kwargs) ->
  extends P w (fst (on_denied c value_key j args kwargs w)).
Proof.
  intros Hwait Hcall. unfold on_denied.
  apply bind_extends.
  - destruct (is_none j); [by apply wait_extends | apply extends_refl].
  - intros j' w1. apply bind_extends; [destruct (json_decode_func c j'); apply extends_refl|].
    intros msg w2. apply bind_extends.
    + unfold get_content. destruct msg; apply extends_refl.
    + intros [v|] w3; [apply extends_refl|]. rewrite call_func_run. by apply extends_emit.
Qed.

End Extends.

Section Denied.
Import Py Redis Scripts Tx Core Notions.

Variable c : closure.
Variables lock_key value_key : string.

(** With the lock held, the acquisition leaves the server as it is and
    does not answer that the lock is owned. *)
Lemma acquire_when_held w e :
  lookup lock_key (server w) = Some e ->
  server (fst (get_lock_or_cached_value c lock_key value_key w)) = server w /\
  forall w1 j, get_lock_or_cached_value c lock_key value_key w <> (w1, Ret (true, j)).
Proof.
  intros Hl.
  unfold get_lock_or_cached_value, except_skip, try_except, Tx.bind, eval, request,
    take_fault.
  cbn [fst snd server faults emit].
  destruct (hd None (faults w)) as [x|].
  - destruct (exn_isinstance x _); [|done]. by simpl.
  - rewrite (get_script_held _ _ _ _ e Hl).
    pose proof (lindex_server value_key 0 (server w)) as Hs.
    destruct (lindex value_key 0 (server w)) as [s1 [p|msg]]; simpl in Hs; subst s1.
    + by simpl.
    + destruct (exn_isinstance _ _); [|done]. by simpl.
Qed.

(** X6. A call that finds the lock held sends no request that writes a
    message (no RPUSH, no publishing script), whether it gets the value
    from the store, waits for it, or computes it itself; and when a message
    is on the value list, the call leaves the store exactly as it was. *)
Theorem denied_call_never_publishes (args : list pyval) (kwargs : list (string * pyval))
    (w : world) (e : entry) :
  lookup lock_key (server w) = Some e ->
  extends (fun ev => ~ is_publish ev) w
    (fst (compute_or_fetch c lock_key value_key args kwargs w)) /\
  (forall m l ex, lookup value_key (server w) = Some (Entry (RList (m :: l)) ex) ->
     server (fst (compute_or_fetch c lock_key value_key args kwargs w)) = server w).
Proof.
  intros Hl. destruct (acquire_when_held w e Hl) as [Hs Hown].
  pose proof (acquire_extends (fun ev => ~ is_publish ev) c lock_key value_key
                ltac:(intros msg H; exact H) w ltac:(intros H; exact H)) as Hacq.
  unfold compute_or_fetch, Tx.bind.
  destruct (get_lock_or_cached_value c lock_key value_key w) as [w1 [[own j]|x|]] eqn:Hget;
    cbn [fst snd] in *.
  - destruct own; [by destruct (Hown w1 j)|]. split.
    + eapply extends_trans; [exact Hacq|].
      apply on_denied_extends; [by intros msg H| |]; by intros H.
    + intros m l ex Hv.
      assert (is_none j = false) as Hj.
      { destruct (hd None (faults w)) as [x|] eqn:Hf.
        - rewrite (acquire_fault c _ _ w x Hf) in Hget.
          destruct (exn_isinstance x _); [|done]. by injection Hget as _ <-.
        - destruct (acquire_held c lock_key value_key w e Hf Hl) as [_ Hpeek].
          rewrite (Hpeek m l ex Hv) in Hget. by injection Hget as _ <-. }
      destruct (on_denied_ends c value_key j args kwargs w1 Hj) as [_ Hsd].
      by rewrite Hsd.
  - split; [done|]. by intros.
  - split; [done|]. by intros.
Qed.

End Denied.

(** [double(21)] while another process holds the lock and has published
    42: the store is not written to. *)
Lemma denied_call_never_publishes_witness :
  Tx.server
    (fst (Core.compute_or_fetch (Demo.closure_with Py.PNone (Py.PInt 5))
            "L:demo.double:(21,)" "V:demo.double:(21,)" [Py.PInt 21] [] Worlds.published))
  = Tx.server Worlds.published.
Proof.
  apply (proj2 (denied_call_never_publishes (Demo.closure_with Py.PNone (Py.PInt 5))
                  "L:demo.double:(21,)" "V:demo.double:(21,)" [Py.PInt 21] []
                  Worlds.published (Redis.Entry (Redis.RString "other.9") None) eq_refl)
           ("{" +:+ Core.quoted "content" +:+ ":42}") [] None).
  reflexivity.
Defined.

(* ===================================================================== *)
(** * A publication that does not happen                                   *)
(* ===================================================================== *)

Section LostPublication.
Import Py Redis Scripts Tx Core Notions.

Variables c c' : closure.
Variables lock_key value_key : string.
Hypothesis keys_differ : lock_key <> value_key.


End LostPublication.


(* ===================================================================== *)
(** * Messages read by a denied caller                                     *)
(* ===================================================================== *)

Section Messages.
Import Py Redis Scripts Tx Core Notions.

Variable c : closure.
Variables lock_key value_key : string.


(** X9. A caller denied the lock found no message and blocks; [t] seconds
    later, within its [max_wait] if it has one, a message with content [v]
    is pushed.  The caller returns [v] then, without computing, and the
    message is still on the list for the next reader. *)
Theorem waiter_woken_by_publication (args : list pyval) (kwargs : list (string * pyval))
    (w : world) (t : Z) (m : string) (items : list (string * pyval)) :
  hd None (faults w) = None ->
  lookup value_key (server w) = None ->
  incoming w = Some (t, m) -> 0 <= t ->
  int_value (max_wait c) = 0 \/ t < int_value (max_wait c) ->
  json_decode_func c (PStr m) = Ok (PDict items) ->
  let r := on_denied c value_key PNone args kwargs w in
  (forall v, Json.dict_get "content" items = Some v -> snd r = Ret v /\
     trace (fst r)
     = trace w ++ [EvBrpoplpush value_key value_key (int_value (max_wait c))]) /\
  (Json.dict_get "content" items = None ->
     snd r = computed c args kwargs /\
     trace (fst r)
     = trace w ++ [EvBrpoplpush value_key value_key (int_value (max_wait c));
                   EvCall args kwargs]) /\
  now (server (fst r)) = now (server w) + t /\
  lookup value_key (server (fst r)) = Some (Entry (RList [m]) None).
Proof.
  intros Hf Hv Hin Ht HW Hd r. subst r.
  assert (0 <= int_value (max_wait c)) as HW0 by (destruct HW; lia).
  rewrite on_denied_waits, (wait_absent c value_key w Hf HW0 Hv), Hin.
  assert ((int_value (max_wait c) =? 0) || (t <? int_value (max_wait c)) = true) as ->.
  { apply orb_true_iff. destruct HW as [->|Hlt]; [by left|right; by apply Z.ltb_lt]. }
  rewrite (on_denied_message c value_key m items) by done.
  assert (lookup value_key (advance t (server w)) = None) as Hv'
    by (by apply lookup_advance_none).
  rewrite (rpush_absent _ _ _ Hv'). cbn [fst].
  assert (rpoplpush value_key value_key
            (put value_key (Entry (RList [m]) None) (advance t (server w)))
          = (put value_key (Entry (RList [m]) None)
               (put value_key (Entry (RList [m]) None) (advance t (server w))),
             Reply (Bulk m))) as ->.
  { unfold rpoplpush. rewrite lookup_put_eq by done. simpl.
    by rewrite String.eqb_refl. }
  cbn [fst]. split; [|split; [|split]].
  - intros v0 ->. done.
  - intros ->. split; [done|]. simpl. by rewrite <- app_assoc.
  - by destruct (Json.dict_get "content" items).
  - destruct (Json.dict_get "content" items); cbn [fst server emit];
      by rewrite lookup_put_eq.
Qed.

End Messages.

(** A waiter of [double(21)] with [max_wait=5], the owner publishing 42
    after 2 seconds. *)
Lemma waiter_woken_by_publication_witness :
  snd (Core.on_denied (Demo.closure_with Py.PNone (Py.PInt 5)) "V:demo.double:(21,)"
         Py.PNone [Py.PInt 21] []
         (Worlds.awaited 2 ("{" +:+ Core.quoted "content" +:+ ":42}")))
  = Tx.Ret (Py.PInt 42).
Proof.
  destruct (waiter_woken_by_publication (Demo.closure_with Py.PNone (Py.PInt 5))
              "V:demo.double:(21,)" [Py.PInt 21] []
              (Worlds.awaited 2 ("{" +:+ Core.quoted "content" +:+ ":42}")) 2
              ("{" +:+ Core.quoted "content" +:+ ":42}") [("content", Py.PInt 42)])
    as [H _];
    [reflexivity | reflexivity | reflexivity | lia | right; simpl; lia | reflexivity |].
  exact (proj1 (H (Py.PInt 42) eq_refl)).
Defined.


(* ===================================================================== *)
(** * The value list never holds two messages                              *)
(* ===================================================================== *)

Section OneMessage.
Import Py Redis Scripts Tx Core Notions.

Variable c : closure.
Variables lock_key value_key : string.
Hypothesis keys_differ : lock_key <> value_key.

Abbreviation amo := (at_most_one_message value_key).

Lemma amo_put_single m ex s : amo (put value_key (Entry (RList [m]) ex) s).
Proof. unfold at_most_one_message, put. simpl. by rewrite lookup_insert_eq. Qed.

Lemma amo_put_lock e s : amo s -> amo (put lock_key e s).
Proof. unfold at_most_one_message, put. simpl. by rewrite lookup_insert_ne. Qed.

Lemma amo_remove_lock s : amo s -> amo (remove lock_key s).
Proof. unfold at_most_one_message, remove. simpl. by rewrite lookup_delete_ne. Qed.

Lemma amo_absent s : db s !! value_key = None -> amo s.
Proof. unfold at_most_one_message. by intros ->. Qed.

Lemma lookup_raw_none k s : db s !! k = None -> lookup k s = None.
Proof. unfold lookup. by intros ->. Qed.

Lemma request_server ev run w :
  server (fst (request ev run w)) = server w \/
  server (fst (request ev run w)) = fst (run (server w)).
Proof.
  unfold request, take_fault. simpl. destruct (hd None (faults w)); [by left|].
  right. by destruct (run (server w)) as [s' [r|msg]].
Qed.

Lemma request_incoming ev run w : incoming (fst (request ev run w)) = incoming w.
Proof.
  unfold request, take_fault. simpl. destruct (hd None (faults w)); [done|].
  by destruct (run (server w)) as [s' [r|msg]].
Qed.

(** RPUSH on a value list that is not there. *)
Lemma rpush_amo m s : db s !! value_key = None -> amo (fst (Redis.rpush value_key m s)).
Proof.
  intros H. rewrite (rpush_absent _ _ _ (lookup_raw_none _ _ H)). apply amo_put_single.
Qed.

Lemma push_and_expire_amo m a s :
  db s !! value_key = None ->
  amo (fst (lua PUSH_AND_EXPIRE_SCRIPT [value_key; lock_key] [m; a] s)).
Proof.
  intros H. unfold lua, Redis.bind, Redis.item, Redis.ret. simpl.
  rewrite call_rpush, (rpush_absent _ _ _ (lookup_raw_none _ _ H)), call_expire.
  destruct (int_of_string a) as [n|]; [|apply amo_put_single].
  unfold expire. destruct (lookup lock_key _) as [[lv lex]|]; [|apply amo_put_single].
  destruct (n <=? 0); simpl.
  - apply amo_remove_lock, amo_put_single.
  - apply amo_put_lock, amo_put_single.
Qed.

Lemma push_and_delete_amo m s :
  db s !! value_key = None ->
  amo (fst (lua PUSH_AND_DELETE_SCRIPT [value_key; lock_key] [m] s)).
Proof.
  intros H. rewrite push_and_delete_script.
  by rewrite (rpush_absent _ _ _ (lookup_raw_none _ _ H)); simpl; apply amo_put_single.
Qed.

Lemma acquire_amo w :
  amo (server w) ->
  amo (server (fst (get_lock_or_cached_value c lock_key value_key w))) /\
  incoming (fst (get_lock_or_cached_value c lock_key value_key w)) = incoming w /\
  forall w1 j, get_lock_or_cached_value c lock_key value_key w = (w1, Ret (true, j)) ->
               db (server w1) !! value_key = None.
Proof.
  intros Hamo.
  destruct (lookup lock_key (server w)) as [e|] eqn:Hl.
  - destruct (acquire_when_held c lock_key value_key w e Hl) as [Hs Hown].
    rewrite Hs. split; [done|]. split; [|by intros w1 j H; destruct (Hown w1 j)].
    unfold get_lock_or_cached_value, except_skip, try_except, Tx.bind, eval.
    pose proof (request_incoming (EvEval GET_SCRIPT [lock_key; value_key] [id_tag c])
                  (lua GET_SCRIPT [lock_key; value_key] [id_tag c]) w) as Hi.
    destruct (request _ _ w) as [w1 [r|x|]]; simpl in Hi.
    + unfold unpack2, bool_int, log_skip, log_err, Tx.ret, Tx.raise, emit.
      repeat case_match; simplify_eq; done.
    + destruct (exn_isinstance x _); done.
    + done.
  - destruct (hd None (faults w)) as [x|] eqn:Hf.
    + rewrite (acquire_fault c _ _ w x Hf).
      destruct (exn_isinstance x _); cbn [fst server emit after incoming];
        (split; [done|]); (split; [done|]); by intros w1 j [= _ ?].
    + rewrite (acquire_free c _ _ w Hf Hl). cbn [fst server after incoming].
      split; [|split; [done|]].
      * apply amo_absent. unfold remove. simpl. apply lookup_delete_eq.
      * intros w1 j [= <- _]. unfold remove. simpl. apply lookup_delete_eq.
Qed.

Lemma cache_value_amo v w :
  db (server w) !! value_key = None ->
  amo (server (fst (cache_value c lock_key value_key v w))).
Proof.
  intros H. unfold cache_value, Tx.bind, lift.
  destruct (json_encode_func c _) as [m|x]; [|by apply amo_absent].
  unfold Tx.ret. cbv beta iota zeta.
  assert (forall ev run,
            amo (fst (run (server w))) ->
            amo (server (fst (let (w', o) := request ev run w in
                              match o with
                              | Ret result =>
                                  log_msg ("cache_value(): redis response: "
                                           +:+ repr result) w'
                              | Raise e =>
                                  if exn_isinstance e (skip_cache_on c)
                                  then log_skip value_key "cache_value" w'
                                  else (w', Raise e)
                              | Pending => (w', Pending)
                              end)))) as Hreq.
  { intros ev run Hrun.
    assert (amo (server (fst (request ev run w)))) as Hs.
    { destruct (request_server ev run w) as [-> | ->]; [by apply amo_absent | done]. }
    destruct (request ev run w) as [w1 [r|x|]]; simpl in Hs; try done.
    by destruct (exn_isinstance x _). }
  destruct (truthy (ttl c)); [unfold eval|unfold rpush]; apply Hreq.
  - by apply push_and_expire_amo.
  - by apply rpush_amo.
Qed.

Lemma notify_amo w :
  db (server w) !! value_key = None ->
  amo (server (fst (notify_waiters_and_release_lock c lock_key value_key w))).
Proof.
  intros H. unfold notify_waiters_and_release_lock, eval.
  assert (amo (server (fst (request
                              (EvEval PUSH_AND_DELETE_SCRIPT [value_key; lock_key]
                                      [EMPTY_JSON_MSG c])
                              (lua PUSH_AND_DELETE_SCRIPT [value_key; lock_key]
                                   [EMPTY_JSON_MSG c]) w)))) as Hs.
  { destruct (request_server
                (EvEval PUSH_AND_DELETE_SCRIPT [value_key; lock_key] [EMPTY_JSON_MSG c])
                (lua PUSH_AND_DELETE_SCRIPT [value_key; lock_key] [EMPTY_JSON_MSG c]) w)
      as [-> | ->]; [by apply amo_absent | by apply push_and_delete_amo]. }
  by destruct (request _ _ w) as [w1 [r|x|]].
Qed.

Lemma brpoplpush_amo timeout w :
  amo (server w) -> incoming_later w ->
  amo (server (fst (brpoplpush value_key value_key timeout w))).
Proof.
  intros Hamo Hin. unfold brpoplpush, take_fault. cbn [fst snd emit server faults incoming].
  destruct (hd None (faults w)); [done|].
  destruct (timeout <? 0); [done|].
  unfold rpoplpush at 1.
  destruct (lookup value_key (server w)) as [[[x|l] ex]|] eqn:Hl.
  - done.
  - assert (exists m, l = [m]) as [m ->].
    { unfold at_most_one_message in Hamo. unfold lookup in Hl.
      destruct (db (server w) !! value_key) as [[[y|l'] ex']|]; try done.
      destruct (expired _ _); [done|]. injection Hl as -> ->.
      destruct l as [|m [|? ?]]; try done. by exists m. }
    simpl. rewrite String.eqb_refl. cbn [fst set_server server]. apply amo_put_single.
  - unfold incoming_later in Hin. destruct (incoming w) as [[t m]|].
    + destruct (_ || _); cbn [fst set_server server]; [|done].
      rewrite (rpush_absent value_key m (advance t (server w)))
        by (by apply lookup_advance_none).
      cbn [fst]. unfold rpoplpush. rewrite lookup_put_eq by done. simpl.
      rewrite String.eqb_refl. cbn [fst]. apply amo_put_single.
    + by destruct (_ =? 0).
Qed.

Lemma wait_amo w :
  amo (server w) -> incoming_later w ->
  amo (server (fst (wait_for_cached_value c value_key w))).
Proof.
  intros Hamo Hin. unfold wait_for_cached_value, except_skip, try_except, Tx.bind.
  pose proof (brpoplpush_amo (int_value (max_wait c)) w Hamo Hin) as H.
  destruct (brpoplpush _ _ _ w) as [w1 [r|x|]]; simpl in H; try done.
  by destruct (exn_isinstance x _).
Qed.

(** X10. If the value list of an entry holds no message or one message
    and whoever pushes while the caller blocks does so after some time, a
    call on the entry leaves it with no message or one message: owners push
    once, on a list they have just cleared, and waiters rotate the list
    without adding to it. *)
Theorem value_list_holds_one_message (args : list pyval) (kwargs : list (string * pyval))
    (w : world) :
  at_most_one_message value_key (server w) ->
  incoming_later w ->
  at_most_one_message value_key
    (server (fst (compute_or_fetch c lock_key value_key args kwargs w))).
Proof.
  intros Hamo Hin.
  destruct (acquire_amo w Hamo) as (Ha & Hi & Hown).
  unfold compute_or_fetch, Tx.bind.
  destruct (get_lock_or_cached_value c lock_key value_key w) as [w1 [[own j]|x|]] eqn:Hget;
    cbn [fst snd] in *; try done.
  destruct own.
  - specialize (Hown w1 j eq_refl). rewrite on_owned_outcome.
    destruct (func c args kwargs) as [v|x]; cbn [fst].
    + by apply cache_value_amo.
    + by apply notify_amo.
  - assert (incoming_later w1) as Hin1 by (unfold incoming_later; by rewrite Hi).
    destruct (is_none j) eqn:Hj.
    + apply is_none_eq in Hj as ->. rewrite on_denied_waits.
      pose proof (wait_amo w1 Ha Hin1) as Hw.
      destruct (wait_for_cached_value c value_key w1) as [w2 [j'|x|]] eqn:Hwait;
        simpl in Hw; try done.
      destruct (on_denied_ends c value_key j' args kwargs w2) as [_ ->]; [|done].
      by eapply wait_never_none.
    + by destruct (on_denied_ends c value_key j args kwargs w1 Hj) as [_ ->].
Qed.

End OneMessage.

(** [double(21)] called where 42 is published: one message before, one
    message after. *)
Lemma value_list_holds_one_message_witness :
  Notions.at_most_one_message "V:demo.double:(21,)"
    (Tx.server
       (fst (Core.compute_or_fetch (Demo.closure_with Py.PNone (Py.PInt 5))
               "L:demo.double:(21,)" "V:demo.double:(21,)" [Py.PInt 21] []
               Worlds.published))).
Proof.
  apply (value_list_holds_one_message (Demo.closure_with Py.PNone (Py.PInt 5))
           "L:demo.double:(21,)" "V:demo.double:(21,)" ltac:(discriminate)
           [Py.PInt 21] [] Worlds.published).
  - vm_compute. exact I.
  - exact I.
Defined.

(* ===================================================================== *)
(** * The hooks left to their defaults                                     *)
(* ===================================================================== *)

Section DefaultHooks.
Import Py Core Notions.

(** X11. With both JSON hooks left at [None], the empty message of the
    wrapper is the two characters of an empty JSON object, and decoding it
    gives a dict without content: a waiter who is told nothing computes
    the value itself. *)
Theorem default_hooks_empty_message (o : options) (uuid : string) (c : closure) :
  o_json_encode_func o = HNone -> o_json_decode_func o = HNone ->
  async_cache o uuid = Ok (Wrapper c) ->
  EMPTY_JSON_MSG c = "{}" /\ decodes_empty c.
Proof.
  intros He Hd H.
  destruct (async_cache_wrapper o uuid c H)
    as (_ & f & ns & _ & _ & Hempty & _ & _ & _ & _ & Hdec & _).
  unfold encoder_of in Hempty. rewrite He in Hempty. rewrite Hd in Hdec.
  assert (EMPTY_JSON_MSG c = "{}") as Hmsg.
  { assert (Json.dumps (PDict []) = Ok "{}") as Hdumps by (by vm_compute).
    rewrite Hdumps in Hempty. by injection Hempty as <-. }
  split; [done|]. exists []. rewrite Hdec, Hmsg. split; by vm_compute.
Qed.

End DefaultHooks.

(** [async_cache(double, max_wait=5, id_tag='demo.1')] *)
Lemma default_hooks_empty_message_witness :
  Core.EMPTY_JSON_MSG (Demo.closure_with Py.PNone (Py.PInt 5)) = "{}" /\
  Core.decodes_empty (Demo.closure_with Py.PNone (Py.PInt 5)).
Proof.
  apply (default_hooks_empty_message (Demo.options_with Py.PNone (Py.PInt 5)) "u"
           (Demo.closure_with Py.PNone (Py.PInt 5)));
    reflexivity.
Defined.

(* ===================================================================== *)
(** * Calls and firings in any order                                       *)
(* ===================================================================== *)

Section Sessions.
Import Py Core Local Session.

Variable c : closure.

Lemma called_spec d p :
  called d p = true <-> exists x, deferreds p !! d = Some (Some x).
Proof.
  unfold called. destruct (deferreds p !! d) as [[x|]|]; split; try done.
  - by exists x.
  - by intros [x ?].
  - by intros [x ?].
Qed.

(** What the loop of [run_local_waiters] does to a process, whatever the
    process: Deferreds that are called stay as they are. *)
Lemma fire_loop_spares m o sl : forall q,
  let q' := foldl (fun q d => if called d q then q else fire d m o q) q sl in
  local_waiters q' = local_waiters q /\ attempts q' = attempts q /\
  length (deferreds q') = length (deferreds q) /\
  (forall d, called d q = true -> deferreds q' !! d = deferreds q !! d) /\
  exists new, fired q' = fired q ++ new /\ Forall (fun d => called d q = false) new.
Proof.
  induction sl as [|d sl IH]; intros q; cbn [foldl].
  - repeat split; try done. exists []. by rewrite app_nil_r.
  - cbv zeta in IH. destruct (called d q) eqn:Hd; [apply IH|].
    destruct (IH (fire d m o q)) as (Hlw & Hat & Hlen & Hkeep & new & Hfi & Hnew).
    assert (forall d', called d' q = true -> called d' (fire d m o q) = true) as Hmono.
    { intros d' Hd'. apply called_spec in Hd' as [x Hx]. apply called_spec.
      unfold fire. cbn [deferreds]. destruct (decide (d' = d)) as [->|Hne].
      - exists (m, o). apply list_lookup_insert_eq. by eapply lookup_lt_Some.
      - exists x. by rewrite list_lookup_insert_ne. }
    split; [by rewrite Hlw|]. split; [by rewrite Hat|].
    split; [rewrite Hlen; unfold fire; cbn [deferreds]; by rewrite length_insert|].
    split.
    + intros d' Hd'. rewrite (Hkeep d' (Hmono d' Hd')). unfold fire. cbn [deferreds].
      apply list_lookup_insert_ne. intros ->. by rewrite Hd in Hd'.
    + exists (d :: new). split.
      * rewrite Hfi. unfold fire. cbn [fired]. by rewrite <- app_assoc.
      * apply Forall_cons. split; [done|].
        eapply Forall_impl; [exact Hnew|]. intros d' Hd'. simpl in Hd'.
        destruct (called d' q) eqn:Hq; [|done]. by rewrite (Hmono d' Hq) in Hd'.
Qed.

(** X12. [run_local_waiters] never fires a Deferred that is already
    called, whoever called it: such a Deferred keeps its result and is
    not among those fired now. *)
Theorem run_local_waiters_spares_called (result : res pyval) (m : method)
    (key : option string) (p : process) (d : nat) :
  called d p = true ->
  let p' := run_local_waiters result m key p in
  deferreds p' !! d = deferreds p !! d /\
  exists new, fired p' = fired p ++ new /\ d ∉ new.
Proof.
  intros Hd. unfold run_local_waiters.
  destruct (local_waiters p !! key) as [w|].
  - destruct (fire_loop_spares m result (slaves w)
                (Process (delete key (local_waiters p)) (deferreds p) (attempts p) (fired p)))
      as (_ & _ & _ & Hkeep & new & Hfi & Hnew).
    cbv zeta. split.
    + by apply Hkeep.
    + exists new. split; [done|]. intros Hin.
      rewrite Forall_forall in Hnew. specialize (Hnew d Hin).
      unfold called in *. cbn [deferreds] in Hnew. by rewrite Hnew in Hd.
  - cbv zeta. split; [done|]. exists []. split; [by rewrite app_nil_r | by apply not_elem_of_nil].
Qed.

(** The loop on slaves none of which is called: all are fired, in order. *)
Lemma fire_loop_all m o sl : forall q,
  NoDup sl -> (forall d, d ∈ sl -> deferreds q !! d = Some None) ->
  let q' := foldl (fun q d => if called d q then q else fire d m o q) q sl in
  fired q' = fired q ++ sl /\
  (forall d, d ∈ sl -> deferreds q' !! d = Some (Some (m, o))) /\
  (forall d, d ∉ sl -> deferreds q' !! d = deferreds q !! d).
Proof.
  induction sl as [|d sl IH]; intros q Hnd Hnone; cbn [foldl].
  - repeat split.
    + by rewrite app_nil_r.
    + intros d Hd. by apply elem_of_nil in Hd.
  - apply NoDup_cons in Hnd as [Hd Hnd]. cbv zeta in IH.
    assert (called d q = false) as ->.
    { unfold called. by rewrite (Hnone d) by apply list_elem_of_here. }
    assert (deferreds (fire d m o q) !! d = Some (Some (m, o))) as Hfired.
    { unfold fire. cbn [deferreds]. apply list_lookup_insert_eq.
      eapply lookup_lt_Some, (Hnone d), list_elem_of_here. }
    destruct (IH (fire d m o q) Hnd) as (Hfi & Hin & Hout).
    { intros d' Hd'. unfold fire. cbn [deferreds].
      rewrite list_lookup_insert_ne by (intros ->; done).
      by apply Hnone, list_elem_of_further. }
    repeat split.
    + rewrite Hfi. unfold fire. cbn [fired]. by rewrite <- app_assoc.
    + intros d' Hd'. apply elem_of_cons in Hd' as [->|Hd'].
      * by rewrite Hout.
      * by apply Hin.
    + intros d' Hd'. apply not_elem_of_cons in Hd' as [Hne Hd'].
      rewrite (Hout d' Hd'). unfold fire. cbn [deferreds].
      by apply list_lookup_insert_ne.
Qed.

Lemma keys_of_app ops ops' : keys_of c (ops ++ ops') = keys_of c ops ++ keys_of c ops'.
Proof. unfold keys_of. apply omap_app. Qed.

Lemma delivery_inv_empty : delivery_inv c [] empty_process.
Proof.
  split; simpl; try done.
  - apply NoDup_nil_2.
  - intros d Hd. by apply elem_of_nil in Hd.
Qed.

Lemma delivery_inv_call hist p args kwargs :
  delivery_inv c hist p ->
  delivery_inv c (hist ++ [Call args kwargs]) (fst (wrapper c args kwargs p)).
Proof.
  intros [Hlen Hwait Hpend Hfired Hnd Hcalled].
  set (k := keymaker c args kwargs).
  set (n := length (deferreds p)).
  assert (keys_of c (hist ++ [Call args kwargs]) = keys_of c hist ++ [k]) as Hkeys
    by (by rewrite keys_of_app).
  assert (forall d x, deferreds p !! d = Some x -> (deferreds p ++ [None]) !! d = Some x)
    as Hold by (intros d x Hx; by apply lookup_app_l_Some).
  assert (forall d x, keys_of c hist !! d = Some x -> (keys_of c hist ++ [k]) !! d = Some x)
    as Holdk by (intros d x Hx; by apply lookup_app_l_Some).
  assert ((deferreds p ++ [None]) !! n = Some None) as Hn
    by (subst n; by rewrite list_lookup_middle).
  assert ((keys_of c hist ++ [k]) !! n = Some k) as Hnk
    by (subst n; rewrite Hlen; by rewrite list_lookup_middle).
  assert (forall w, local_waiters p !! k = Some w -> n ∉ slaves w) as Hfresh.
  { intros w Hw Hin. destruct (Hwait k w Hw) as [_ Hsl].
    destruct (Hsl n Hin) as [_ Hd]. apply lookup_lt_Some in Hd. subst n. lia. }
  set (sl' := match local_waiters p !! k with
              | Some w => slaves w ++ [n]
              | None => [n]
              end).
  set (ms := match local_waiters p !! k with
             | Some w => master w
             | None => length (attempts p)
             end).
  assert (local_waiters (fst (wrapper c args kwargs p))
          = <[k := mkWaiters ms sl']> (local_waiters p) /\
          deferreds (fst (wrapper c args kwargs p)) = deferreds p ++ [None] /\
          fired (fst (wrapper c args kwargs p)) = fired p) as (Hlw & Hds & Hfi).
  { unfold wrapper. fold k. subst sl' ms. by destruct (local_waiters p !! k). }
  assert (forall d, d ∈ sl' <-> d = n \/ exists w, local_waiters p !! k = Some w /\ d ∈ slaves w)
    as Hsl'.
  { intros d. subst sl'. destruct (local_waiters p !! k) as [w|].
    - rewrite elem_of_app, list_elem_of_singleton. split.
      + intros [?|?]; [right; by exists w | by left].
      + intros [?|(w' & [= <-] & ?)]; [by right | by left].
    - rewrite list_elem_of_singleton. split; [by left|]. by intros [?|(w' & ? & ?)]. }
  split.
  - rewrite Hds, Hkeys, !length_app, Hlen. done.
  - intros k' w'. rewrite Hlw, Hkeys, Hds. destruct (decide (k' = k)) as [->|Hne].
    + rewrite lookup_insert_eq. intros [= <-]. cbn [slaves]. split.
      * subst sl'. destruct (local_waiters p !! k) as [w|] eqn:Hw.
        -- apply NoDup_app. split; [by apply (Hwait k w)|]. split.
           ++ intros d Hd Hd'. apply list_elem_of_singleton in Hd' as ->.
              by apply (Hfresh w).
           ++ apply NoDup_singleton.
        -- apply NoDup_singleton.
      * intros d Hd. apply Hsl' in Hd as [->|(w & Hw & Hd)]; [done|].
        destruct (Hwait k w Hw) as [_ Hsl]. destruct (Hsl d Hd). split; auto.
    + rewrite lookup_insert_ne by done. intros Hw'.
      destruct (Hwait k' w' Hw') as [Hnd' Hsl]. split; [done|].
      intros d Hd. destruct (Hsl d Hd). split; auto.
  - intros d. rewrite Hds, Hkeys, Hlw. intros Hd.
    destruct (decide (d = n)) as [->|Hne].
    + exists k, (mkWaiters ms sl'). rewrite lookup_insert_eq. repeat split; try done.
      apply Hsl'. by left.
    + assert (deferreds p !! d = Some None) as Hd'.
      { apply lookup_app_Some in Hd as [?|[Hge Hd]]; [done|]. fold n in Hge, Hd.
        destruct (d - n)%nat as [|i] eqn:Hi; [lia | by destruct i]. }
      destruct (Hpend d Hd') as (k' & w' & Hk' & Hw' & Hin).
      destruct (decide (k' = k)) as [->|Hnek].
      * exists k, (mkWaiters ms sl'). rewrite lookup_insert_eq. repeat split; auto.
        apply Hsl'. right. by exists w'.
      * exists k', w'. rewrite lookup_insert_ne by done. repeat split; auto.
  - intros d m r. rewrite Hds, Hkeys, Hfi. intros Hd.
    assert (deferreds p !! d = Some (Some (m, r))) as Hd'.
    { apply lookup_app_Some in Hd as [?|[Hge Hd]]; [done|].
      destruct (d - length (deferreds p))%nat as [|i]; [done | by destruct i]. }
    destruct (Hfired d m r Hd') as (Hm & k' & Hk' & Hin & Hf). split; [done|].
    exists k'. repeat split; auto. apply in_or_app. by left.
  - by rewrite Hfi.
  - intros d. rewrite Hfi. intros Hd. specialize (Hcalled d Hd).
    apply called_spec in Hcalled as [x Hx]. apply called_spec. exists x.
    rewrite Hds. by apply Hold.
Qed.

Lemma master_fires_run o key p :
  master_fires o key p = run_local_waiters o (method_of o) key p.
Proof. by destruct o. Qed.

Lemma delivery_inv_fires hist p o key :
  delivery_inv c hist p ->
  delivery_inv c (hist ++ [Fires o key]) (master_fires o key p).
Proof.
  intros [Hlen Hwait Hpend Hfired Hnd Hcalled].
  assert (keys_of c (hist ++ [Fires o key]) = keys_of c hist) as Hkeys
    by (by rewrite keys_of_app, app_nil_r).
  rewrite master_fires_run. unfold run_local_waiters.
  destruct (local_waiters p !! key) as [w|] eqn:Hw.
  - destruct (Hwait key w Hw) as [Hndw Hsl].
    set (q := Process (delete key (local_waiters p)) (deferreds p) (attempts p) (fired p)).
    destruct (fire_loop_spares (method_of o) o (slaves w) q) as (Hlw & _ & Hlen' & _ & _).
    destruct (fire_loop_all (method_of o) o (slaves w) q Hndw) as (Hfi & Hin & Hout).
    { intros d Hd. by apply Hsl. }
    cbv zeta in *.
    set (q' := foldl _ q (slaves w)) in *.
    change (local_waiters q) with (delete key (local_waiters p)) in Hlw.
    change (deferreds q) with (deferreds p) in Hlen', Hout.
    change (fired q) with (fired p) in Hfi.
    split.
    + by rewrite Hlen', Hkeys.
    + intros k' w'. rewrite Hlw, Hkeys. destruct (decide (k' = key)) as [->|Hne].
      * by rewrite lookup_delete_eq.
      * rewrite lookup_delete_ne by done. intros Hw'.
        destruct (Hwait k' w' Hw') as [Hnd' Hsl']. split; [done|].
        intros d Hd. destruct (Hsl' d Hd) as [Hk Hnone]. split; [done|].
        rewrite Hout; [done|]. intros Hd'. destruct (Hsl d Hd') as [Hk' _].
        rewrite Hk in Hk'. by injection Hk'.
    + intros d Hd. rewrite Hkeys, Hlw.
      destruct (decide (d ∈ slaves w)) as [Hin'|Hnin].
      * by rewrite (Hin d Hin') in Hd.
      * rewrite (Hout d Hnin) in Hd.
        destruct (Hpend d Hd) as (k' & w' & Hk' & Hw' & Hd').
        exists k', w'. repeat split; auto. rewrite lookup_delete_ne; [done|].
        intros <-. rewrite Hw in Hw'. by injection Hw' as <-.
    + intros d m r Hd. rewrite Hkeys, Hfi.
      destruct (decide (d ∈ slaves w)) as [Hin'|Hnin].
      * rewrite (Hin d Hin') in Hd. injection Hd as <- <-. split; [done|].
        exists key. destruct (Hsl d Hin') as [Hk _]. repeat split; auto.
        -- apply in_or_app. right. by left.
        -- apply elem_of_app. by right.
      * rewrite (Hout d Hnin) in Hd.
        destruct (Hfired d m r Hd) as (Hm & k' & Hk' & Hi & Hf). split; [done|].
        exists k'. repeat split; auto.
        -- apply in_or_app. by left.
        -- apply elem_of_app. by left.
    + rewrite Hfi. apply NoDup_app. repeat split; try done.
      intros d Hd Hd'. specialize (Hcalled d Hd). apply called_spec in Hcalled as [x Hx].
      destruct (Hsl d Hd') as [_ Hnone]. by rewrite Hnone in Hx.
    + intros d. rewrite Hfi. intros Hd. apply called_spec.
      destruct (decide (d ∈ slaves w)) as [Hin'|Hnin].
      * exists (method_of o, o). by apply Hin.
      * apply elem_of_app in Hd as [Hd|Hd]; [|done].
        rewrite (Hout d Hnin). by apply called_spec, Hcalled.
  - split; try done.
    + by rewrite Hkeys.
    + intros k' w'. rewrite Hkeys. apply Hwait.
    + intros d Hd. rewrite Hkeys. by apply Hpend.
    + intros d m r Hd. rewrite Hkeys.
      destruct (Hfired d m r Hd) as (Hm & k' & Hk' & Hi & Hf). split; [done|].
      exists k'. repeat split; auto. apply in_or_app. by left.
Qed.

Lemma delivery_inv_run ops : forall hist p,
  delivery_inv c hist p -> delivery_inv c (hist ++ ops) (run c ops p).
Proof.
  induction ops as [|x ops IH]; intros hist p Hinv.
  - by rewrite app_nil_r.
  - unfold run. cbn [foldl]. fold (run c ops (step c p x)).
    rewrite (cons_middle x hist ops), app_assoc.
    apply IH. destruct x as [args kwargs|o key]; cbn [step].
    + by apply delivery_inv_call.
    + by apply delivery_inv_fires.
Qed.

(** X13. In a process that starts with no waiters, whatever the order of
    calls and of firings: the Deferred handed to a call with key [k] is
    either still uncalled and among the slaves waiting under [k], or it
    was fired once with an outcome one of the masters of [k] fired with,
    by [callback] for a value and by [errback] for a failure. No caller is
    dropped and none gets the outcome of another key. *)
Theorem every_call_waits_or_is_answered (ops : list op) (d : nat) (k : option string) :
  keys_of c ops !! d = Some k ->
  let p := run c ops empty_process in
  (deferreds p !! d = Some None /\
   exists w, local_waiters p !! k = Some w /\ d ∈ slaves w) \/
  (exists r, deferreds p !! d = Some (Some (method_of r, r)) /\
             In (Fires r k) ops /\ d ∈ fired p).
Proof.
  intros Hk p.
  destruct (delivery_inv_run ops [] empty_process delivery_inv_empty)
    as [Hlen Hwait Hpend Hfired Hnd Hcalled].
  rewrite app_nil_l in *. fold p in Hlen, Hwait, Hpend, Hfired, Hnd, Hcalled.
  destruct (deferreds p !! d) as [[[m r]|]|] eqn:Hd.
  - right. destruct (Hfired d m r Hd) as (-> & k' & Hk' & Hin & Hf).
    rewrite Hk in Hk'. injection Hk' as <-. by exists r.
  - left. split; [done|]. destruct (Hpend d Hd) as (k' & w & Hk' & Hw & Hin).
    rewrite Hk in Hk'. injection Hk' as <-. by exists w.
  - apply lookup_lt_Some in Hk. apply lookup_ge_None in Hd. lia.
Qed.

(** X14. In such a process no Deferred is fired twice. *)
Theorem no_deferred_fired_twice (ops : list op) :
  NoDup (fired (run c ops empty_process)).
Proof.
  by destruct (delivery_inv_run ops [] empty_process delivery_inv_empty).
Qed.

Lemma fire_loop_frame m o sl q :
  let q' := foldl (fun q d => if called d q then q else fire d m o q) q sl in
  local_waiters q' = local_waiters q /\ attempts q' = attempts q.
Proof. destruct (fire_loop_spares m o sl q) as (? & ? & _). by split. Qed.

Lemma attempts_step k p x :
  (attempts_for k (step c p x) + waiting_for k p
   <= attempts_for k p + waiting_for k (step c p x) + fires_for k [x])%nat.
Proof.
  unfold attempts_for, fires_for, waiting_for.
  destruct x as [args kwargs|o key]; cbn [step].
  - unfold wrapper. simpl. destruct (local_waiters p !! keymaker c args kwargs) as [w|] eqn:Hw;
      cbn [fst local_waiters attempts].
    + destruct (decide (keymaker c args kwargs = k)) as [<-|Hne].
      * rewrite lookup_insert_eq, Hw. lia.
      * rewrite lookup_insert_ne by done. lia.
    + rewrite List.filter_app, length_app. simpl.
      destruct (decide (keymaker c args kwargs = k)) as [<-|Hne].
      * rewrite lookup_insert_eq, Hw. rewrite bool_decide_eq_true_2 by done. simpl. lia.
      * rewrite lookup_insert_ne by done. rewrite bool_decide_eq_false_2 by done. simpl. lia.
  - rewrite master_fires_run. unfold run_local_waiters. simpl.
    destruct (local_waiters p !! key) as [w|] eqn:Hw.
    + destruct (fire_loop_frame (method_of o) o (slaves w)
                  (Process (delete key (local_waiters p)) (deferreds p) (attempts p)
                           (fired p))) as [-> ->].
      cbn [local_waiters attempts].
      destruct (decide (key = k)) as [->|Hne].
      * rewrite lookup_delete_eq, Hw. rewrite bool_decide_eq_true_2 by done. simpl. lia.
      * rewrite lookup_delete_ne by done. rewrite bool_decide_eq_false_2 by done. simpl. lia.
    + destruct (bool_decide (key = k)); simpl; lia.
Qed.

Lemma fires_for_cons k x ops :
  fires_for k (x :: ops) = (fires_for k [x] + fires_for k ops)%nat.
Proof. unfold fires_for. simpl. by destruct x as [|o key]; [|destruct (bool_decide _)]. Qed.

Lemma attempts_run k ops : forall p,
  (attempts_for k (run c ops p) + waiting_for k p
   <= attempts_for k p + waiting_for k (run c ops p) + fires_for k ops)%nat.
Proof.
  induction ops as [|x ops IH]; intros p.
  - unfold run, fires_for. simpl. lia.
  - unfold run. cbn [foldl]. fold (run c ops (step c p x)).
    rewrite fires_for_cons. pose proof (attempts_step k p x) as Hs.
    specialize (IH (step c p x)). lia.
Qed.

(** X15. The attempts started for a key are at most the firings of its
    masters, and one more while the key is waited for: between two firings
    for a key, however many calls come in, [get_computed_or_redis_value]
    is started once. *)
Theorem one_attempt_between_firings (ops : list op) (k : option string) :
  (attempts_for k (run c ops empty_process)
   <= fires_for k ops + waiting_for k (run c ops empty_process))%nat.
Proof.
  pose proof (attempts_run k ops empty_process) as H.
  unfold attempts_for at 2 in H. unfold waiting_for at 1 in H. simpl in H. lia.
Qed.

End Sessions.

(** The first of two waiting Deferreds was fired by its caller; the master
    then fires with 42. *)
Lemma run_local_waiters_spares_called_witness :
  Local.deferreds
    (Local.run_local_waiters (Py.Ok (Py.PInt 42)) Local.callback None Session.interfered)
    !! 0%nat
  = Local.deferreds Session.interfered !! 0%nat /\
  exists new,
    Local.fired
      (Local.run_local_waiters (Py.Ok (Py.PInt 42)) Local.callback None Session.interfered)
    = Local.fired Session.interfered ++ new /\ 0%nat ∉ new.
Proof.
  apply (run_local_waiters_spares_called (Py.Ok (Py.PInt 42)) Local.callback None
           Session.interfered 0). reflexivity.
Defined.

(** [double(21)], [double(21)], the master fires with 42: the second
    caller got 42 by [callback]. *)
Lemma every_call_waits_or_is_answered_witness :
  (Local.deferreds
     (Session.run (Demo.closure_with Py.PNone (Py.PInt 5)) Session.two_calls_one_firing
        Local.empty_process) !! 1%nat = Some None /\
   exists w,
     Local.local_waiters
       (Session.run (Demo.closure_with Py.PNone (Py.PInt 5)) Session.two_calls_one_firing
          Local.empty_process) !! Some "(21,)" = Some w /\
     1%nat ∈ Local.slaves w) \/
  (exists r,
     Local.deferreds
       (Session.run (Demo.closure_with Py.PNone (Py.PInt 5)) Session.two_calls_one_firing
          Local.empty_process) !! 1%nat = Some (Some (Local.method_of r, r)) /\
     In (Session.Fires r (Some "(21,)")) Session.two_calls_one_firing /\
     1%nat ∈ Local.fired
       (Session.run (Demo.closure_with Py.PNone (Py.PInt 5)) Session.two_calls_one_firing
          Local.empty_process)).
Proof.
  apply (every_call_waits_or_is_answered (Demo.closure_with Py.PNone (Py.PInt 5))
           Session.two_calls_one_firing 1 (Some "(21,)")).
  reflexivity.
Defined.

(* ===================================================================== *)
(** * From the call to the caller's Deferred                               *)
(* ===================================================================== *)

Section CallToDeferred.
Import Py Tx Core Local.

Variable c : closure.

(** X16. A call whose key nobody waits for starts the attempt number
    [length (attempts p)] and gets the next Deferred; when that attempt
    has run against the store, the Deferred holds what
    [get_computed_or_redis_value] ended with, a value by [callback] and an
    exception by [errback], and the key is waited for no more; while the
    attempt is blocked, the Deferred is uncalled. *)
Theorem caller_gets_the_master_outcome (args : list pyval) (kwargs : list (string * pyval))
    (p : process) (w : world) :
  local_waiters p !! keymaker c args kwargs = None ->
  let key := keymaker c args kwargs in
  let d := snd (wrapper c args kwargs p) in
  let pw := complete c (length (attempts p)) (fst (wrapper c args kwargs p), w) in
  d = length (deferreds p) /\
  snd pw = fst (get_computed_or_redis_value c key args kwargs w) /\
  match snd (get_computed_or_redis_value c key args kwargs w) with
  | Ret v => deferreds (fst pw) !! d = Some (Some (callback, Ok v)) /\
             local_waiters (fst pw) !! key = None
  | Raise e => deferreds (fst pw) !! d = Some (Some (errback, Err e)) /\
               local_waiters (fst pw) !! key = None
  | Pending => deferreds (fst pw) !! d = Some None /\
               local_waiters (fst pw) !! key
               = Some (mkWaiters (length (attempts p)) [d])
  end.
Proof.
  intros Hk key d pw. subst d pw. rewrite (wrapper_master c args kwargs p Hk). fold key.
  cbn [fst snd]. split; [done|].
  unfold complete. cbn [attempts]. rewrite list_lookup_middle by done.
  assert (forall m o,
            let q := run_local_waiters o m key
                       (Process (<[key := mkWaiters (length (attempts p))
                                                    [length (deferreds p)]]>
                                   (local_waiters p))
                                (deferreds p ++ [None])
                                (attempts p ++ [(key, (args, kwargs))]) (fired p)) in
            deferreds q !! length (deferreds p) = Some (Some (m, o)) /\
            local_waiters q !! key = None) as Hfire.
  { intros m o. unfold run_local_waiters. cbn [local_waiters]. rewrite lookup_insert_eq.
    cbn [slaves foldl deferreds attempts fired]. unfold called. cbn [deferreds].
    rewrite list_lookup_middle by done. unfold fire. cbn [deferreds local_waiters].
    split.
    - apply list_lookup_insert_eq. rewrite length_app. simpl. lia.
    - apply lookup_delete_eq. }
  destruct (get_computed_or_redis_value c key args kwargs w) as [w' [v|e|]];
    cbn [fst snd master_fires].
  - split; [done|]. apply Hfire.
  - split; [done|]. apply Hfire.
  - split; [done|]. cbn [deferreds local_waiters]. split.
    + by rewrite list_lookup_middle.
    + by rewrite lookup_insert_eq.
Qed.

End CallToDeferred.

(** [double(21)] called in a process and on a store that are both new. *)
Lemma caller_gets_the_master_outcome_witness :
  snd (Local.wrapper (Demo.closure_with Py.PNone (Py.PInt 5)) [Py.PInt 21] []
         Local.empty_process) = 0%nat /\
  Local.deferreds
    (fst (Local.complete (Demo.closure_with Py.PNone (Py.PInt 5)) 0
            (fst (Local.wrapper (Demo.closure_with Py.PNone (Py.PInt 5)) [Py.PInt 21] []
                    Local.empty_process), Demo.fresh)))
    !! 0%nat
  = Some (Some (Local.callback, Py.Ok (Py.PInt 42))).
Proof.
  destruct (caller_gets_the_master_outcome (Demo.closure_with Py.PNone (Py.PInt 5))
              [Py.PInt 21] [] Local.empty_process Demo.fresh eq_refl) as (Hd & _ & H).
  split; [exact Hd | exact (proj1 H)].
Defined.
